(** * node-ts-fragmenter: MPEG-TS to Low-Latency HLS fragmenter

    A shallow embedding of [src/index.ts] (classes [PartialSegment],
    [Segment] and [TSFragmenter]) and the properties of its sliding
    window, its sealing protocol, its program selection and its playlist
    renderer.

    Conventions of the embedding.
    - A [Buffer] is a list of bytes.  Reading a byte out of range gives
      [undefined] in the source; every such read is an operand of a
      bitwise operator or of a comparison with a non-zero constant, where
      [undefined] behaves as [0], so [byte_at] returns [0] there.
    - PTS values, sequence numbers and PIDs are integers ([Z]).  The
      source's [%] is the truncating remainder, [Z.rem].
    - Seconds are exact rationals ([Q]): [x / 90000] is the fraction
      [x # 90000], and [toFixed(3)] rounds to the nearest multiple of
      1/1000 (the larger one on a tie).  The rounding error of IEEE
      doubles is not modelled.
    - A completion callback is an opaque token; invoking it is recorded
      in the list of fired callbacks that every mutating operation
      returns next to the new state.
    - A [TypeError] of the source (a method call on [undefined]) is the
      result [None].
    - The parser library [arib-mpeg2ts-parser] is not part of the
      repository: its pure functions and constants are the fields of the
      class [Collaborators], and what its stateful queues hand back for a
      packet is part of the input ([Arrival]). *)

From Stdlib Require Import ZArith QArith Qabs Qround List String Ascii Bool Lia.
From Stdlib Require Import Strings.Byte DecimalString.
Import ListNotations.
Open Scope Z_scope.

(** ** Buffers, arrays and the effect of firing callbacks *)

Definition Buffer := list byte.

Definition Callback := nat.

Definition byte_at (b : Buffer) (i : Z) : Z :=
  if i <? 0 then 0
  else match nth_error b (Z.to_nat i) with
       | Some x => Z.of_N (Byte.to_N x)
       | None => 0
       end.

Definition Buffer_length (b : Buffer) : Z := Z.of_nat (List.length b).

(** [a[i]] of a JavaScript array: [None] stands for [undefined]. *)
Definition array_get {A : Type} (a : list A) (i : Z) : option A :=
  if i <? 0 then None else nth_error a (Z.to_nat i).

(** In-place mutation of the object stored at [a[i]]. *)
Fixpoint array_set {A : Type} (a : list A) (i : nat) (x : A) : list A :=
  match a, i with
  | [], _ => []
  | _ :: a', O => x :: a'
  | y :: a', S i' => y :: array_set a' i' x
  end.

Definition array_length {A : Type} (a : list A) : Z := Z.of_nat (List.length a).

(** A computation that may throw and that fires callbacks on the way. *)
Definition Eff (A : Type) : Type := option (A * list Callback).

Definition ret {A : Type} (x : A) : Eff A := Some (x, []).

Definition bind {A B : Type} (c : Eff A) (k : A -> Eff B) : Eff B :=
  match c with
  | None => None
  | Some (x, fired) =>
      match k x with
      | None => None
      | Some (y, fired') => Some (y, fired ++ fired')
      end
  end.

Definition lift {A : Type} (o : option A) : Eff A :=
  match o with
  | None => None
  | Some x => Some (x, [])
  end.

Notation "x <- c ;; k" := (bind c (fun x => k))
  (at level 61, c at next level, right associativity).

(** [a.forEach(x => this.f(x))] where [f] mutates the receiver. *)
Fixpoint forEach {S A : Type} (f : S -> A -> option S) (a : list A) (s : S) : option S :=
  match a with
  | [] => Some s
  | x :: a' =>
      match f s x with
      | None => None
      | Some s' => forEach f a' s'
      end
  end.

(** ** class PartialSegment *)

Module PartialSegment.

Record t : Type := mk {
  beginPTS : Z;
  endPTS : option Z;
  hasIFrame : bool;
  completed : Buffer;
  retains : list Buffer;
  complete_callbacks : list Callback
}.

Definition new (beginPTS : Z) (hasIFrame : option bool) : t :=
  {| beginPTS := beginPTS;
     endPTS := None;
     hasIFrame := match hasIFrame with Some h => h | None => false end;
     completed := [];
     retains := [];
     complete_callbacks := [] |}.

Definition addPacket (this : t) (packet : Buffer) : t :=
  {| beginPTS := beginPTS this;
     endPTS := endPTS this;
     hasIFrame := hasIFrame this;
     completed := completed this;
     retains := retains this ++ [packet];
     complete_callbacks := complete_callbacks this |}.

Definition addCallback (this : t) (cb : Callback) : t :=
  {| beginPTS := beginPTS this;
     endPTS := endPTS this;
     hasIFrame := hasIFrame this;
     completed := completed this;
     retains := retains this;
     complete_callbacks := complete_callbacks this ++ [cb] |}.

Definition isCompleted (this : t) : bool :=
  match endPTS this with Some _ => true | None => false end.

(** Returns the sealed object and the callbacks invoked, in the order
    of invocation. *)
Definition complete (this : t) (e : Z) : t * list Callback :=
  ({| beginPTS := beginPTS this;
      endPTS := Some e;
      hasIFrame := hasIFrame this;
      completed := completed this ++ List.concat (retains this);
      retains := [];
      complete_callbacks := [] |},
   complete_callbacks this).

Definition getBuffer (this : t) : Buffer := completed this.

Definition getSeconds (this : t) : option Q :=
  match endPTS this with
  | None => None
  | Some e => Some (Z.rem (e - beginPTS this + 2 ^ 33) (2 ^ 33) # 90000)
  end.

Definition estimateSeconds (this : t) (e : Z) : Q :=
  Z.rem (e - beginPTS this + 2 ^ 33) (2 ^ 33) # 90000.

Definition getHasIFrame (this : t) : bool := hasIFrame this.

End PartialSegment.

(** ** class Segment extends PartialSegment *)

Module Segment.

(** [base] is the inherited [PartialSegment] part of the object. *)
Record t : Type := mk {
  base : PartialSegment.t;
  parts : list PartialSegment.t;
  programDateTime : string
}.

Definition newPartial (this : t) (beginPTS : Z) (hasIFrame : option bool) : t :=
  {| base := base this;
     parts := parts this ++ [PartialSegment.new beginPTS hasIFrame];
     programDateTime := programDateTime this |}.

(** [now] is what [new Date().toISOString()] returns at construction. *)
Definition new (beginPTS : Z) (hasIFrame : option bool) (now : string) : t :=
  let this := {| base := PartialSegment.new beginPTS hasIFrame;
                 parts := [];
                 programDateTime := EmptyString |} in
  let this := newPartial this beginPTS hasIFrame in
  {| base := base this; parts := parts this; programDateTime := now |}.

Definition completePartial (this : t) (e : Z) : t * list Callback :=
  if array_length (parts this) =? 0 then (this, [])
  else
    match array_get (parts this) (array_length (parts this) - 1) with
    | None => (this, [])
    | Some lastPart =>
        let (lastPart', fired) := PartialSegment.complete lastPart e in
        ({| base := base this;
            parts := array_set (parts this)
                       (Z.to_nat (array_length (parts this) - 1)) lastPart';
            programDateTime := programDateTime this |}, fired)
    end.

Definition complete (this : t) (e : Z) : t * list Callback :=
  let (base', fired) := PartialSegment.complete (base this) e in
  let this := {| base := base';
                 parts := parts this;
                 programDateTime := programDateTime this |} in
  let (this, fired') := completePartial this e in
  (this, fired ++ fired').

Definition addPacket (this : t) (packet : Buffer) : option t :=
  let base' := PartialSegment.addPacket (base this) packet in
  match array_get (parts this) (array_length (parts this) - 1) with
  | None => None
  | Some lastPart =>
      Some {| base := base';
              parts := array_set (parts this)
                         (Z.to_nat (array_length (parts this) - 1))
                         (PartialSegment.addPacket lastPart packet);
              programDateTime := programDateTime this |}
  end.

Definition addCallback (this : t) (cb : Callback) : t :=
  {| base := PartialSegment.addCallback (base this) cb;
     parts := parts this;
     programDateTime := programDateTime this |}.

Definition isCompleted (this : t) : bool := PartialSegment.isCompleted (base this).

Definition getBuffer (this : t) : Buffer := PartialSegment.getBuffer (base this).

Definition getSeconds (this : t) : option Q := PartialSegment.getSeconds (base this).

Definition getLength (this : t) : Z := array_length (parts this).

Definition getPartial (this : t) (index : Z) : option PartialSegment.t :=
  array_get (parts this) index.

Definition getProgramDateTime (this : t) : string := programDateTime this.

End Segment.

(** ** The parser library used by the fragmenter *)

(** Pure functions and constants of [arib-mpeg2ts-parser]
    ([TSPacket], [TSSection], [TSPES], [TSSectionPacketizer]). *)
Class Collaborators : Type := {
  TSPacket_pid : Buffer -> Z;
  TSPacket_transport_error_indicator : Buffer -> bool;
  TSPacket_transport_priority : Buffer -> bool;
  TSPacket_transport_scrambling_control : Buffer -> Z;
  TSSection_BASIC_HEADER_SIZE : Z;
  TSSection_EXTENDED_HEADER_SIZE : Z;
  TSSection_CRC_SIZE : Z;
  TSSection_section_length : Buffer -> Z;
  TSSection_CRC32 : Buffer -> Z;
  TSPES_PES_HEADER_SIZE : Z;
  TSSectionPacketizer_packetize :
    Buffer -> bool -> bool -> Z -> Z -> Z -> list Buffer
}.

(** One TS packet handed out by the packet queue, with what the
    library's stateful queues return while it is processed:
    [popped_sections] are the sections the section queue of the branch
    taken yields once the packet is pushed, [popped_PES] the PES payloads
    the video PES queue yields, each with the wall-clock reading
    ([new Date().toISOString()]) available while it is handled. *)
Record Arrival : Type := mkArrival {
  packet : Buffer;
  popped_sections : list Buffer;
  popped_PES : list (Buffer * string)
}.

(** ** class TSFragmenter *)

Module TSFragmenterOptions.
Record t : Type := mk {
  length : option Z;
  partTarget : option Q
}.
End TSFragmenterOptions.

Record TSFragmenter : Type := mkTSFragmenter {
  Packet_TransportErrorIndicator : bool;
  Packet_TransportPriority : bool;
  Packet_TransportScramblingControl : Z;
  PAT_lastPAT : option Buffer;
  PAT_Continuous_Counter : Z;
  PAT_TargetSID : option Z;
  PAT_TargetPMTPid : option Z;
  PMT_lastPMT : option Buffer;
  PMT_Continuous_Counter : Z;
  PMT_VideoPid : option Z;
  PMT_PCRPid : option Z;
  Video_Packets : list Buffer;
  M3U8_Segments_Length : Z;
  M3U8_Part_Target : Q;
  M3U8_Begin_Sequence_Number : Z;
  M3U8_End_Sequence_Number : Z;
  M3U8_Segments : list Segment.t;
  M3U8_Initial_PAT_Detected : bool;
  M3U8_Initial_PMT_Detected : bool;
  M3U8_Initial_IDR_Detected : bool
}.

Definition new_TSFragmenter (options : option TSFragmenterOptions.t) : TSFragmenter :=
  {| Packet_TransportErrorIndicator := false;
     Packet_TransportPriority := false;
     Packet_TransportScramblingControl := 0;
     PAT_lastPAT := None;
     PAT_Continuous_Counter := 0;
     PAT_TargetSID := None;
     PAT_TargetPMTPid := None;
     PMT_lastPMT := None;
     PMT_Continuous_Counter := 0;
     PMT_VideoPid := None;
     PMT_PCRPid := None;
     Video_Packets := [];
     M3U8_Segments_Length :=
       match options with
       | Some o => match TSFragmenterOptions.length o with Some n => n | None => 3 end
       | None => 3
       end;
     M3U8_Part_Target :=
       match options with
       | Some o => match TSFragmenterOptions.partTarget o with Some q => q | None => 1%Q end
       | None => 1%Q
       end;
     M3U8_Begin_Sequence_Number := 0;
     M3U8_End_Sequence_Number := 0;
     M3U8_Segments := [];
     M3U8_Initial_PAT_Detected := false;
     M3U8_Initial_PMT_Detected := false;
     M3U8_Initial_IDR_Detected := false |}.

(** Field assignments [this.f = v]. *)

Definition set_Packet_header (s : TSFragmenter) (tei tp : bool) (tsc : Z) : TSFragmenter :=
  mkTSFragmenter tei tp tsc
    (PAT_lastPAT s) (PAT_Continuous_Counter s) (PAT_TargetSID s) (PAT_TargetPMTPid s)
    (PMT_lastPMT s) (PMT_Continuous_Counter s) (PMT_VideoPid s) (PMT_PCRPid s)
    (Video_Packets s) (M3U8_Segments_Length s) (M3U8_Part_Target s)
    (M3U8_Begin_Sequence_Number s) (M3U8_End_Sequence_Number s) (M3U8_Segments s)
    (M3U8_Initial_PAT_Detected s) (M3U8_Initial_PMT_Detected s) (M3U8_Initial_IDR_Detected s).

Definition set_PAT (s : TSFragmenter) (lastPAT : option Buffer) (cc : Z) (pmtPid : option Z)
  : TSFragmenter :=
  mkTSFragmenter (Packet_TransportErrorIndicator s) (Packet_TransportPriority s)
    (Packet_TransportScramblingControl s)
    lastPAT cc (PAT_TargetSID s) pmtPid
    (PMT_lastPMT s) (PMT_Continuous_Counter s) (PMT_VideoPid s) (PMT_PCRPid s)
    (Video_Packets s) (M3U8_Segments_Length s) (M3U8_Part_Target s)
    (M3U8_Begin_Sequence_Number s) (M3U8_End_Sequence_Number s) (M3U8_Segments s)
    (M3U8_Initial_PAT_Detected s) (M3U8_Initial_PMT_Detected s) (M3U8_Initial_IDR_Detected s).

Definition set_PMT (s : TSFragmenter) (lastPMT : option Buffer) (cc : Z)
    (videoPid pcrPid : option Z) : TSFragmenter :=
  mkTSFragmenter (Packet_TransportErrorIndicator s) (Packet_TransportPriority s)
    (Packet_TransportScramblingControl s)
    (PAT_lastPAT s) (PAT_Continuous_Counter s) (PAT_TargetSID s) (PAT_TargetPMTPid s)
    lastPMT cc videoPid pcrPid
    (Video_Packets s) (M3U8_Segments_Length s) (M3U8_Part_Target s)
    (M3U8_Begin_Sequence_Number s) (M3U8_End_Sequence_Number s) (M3U8_Segments s)
    (M3U8_Initial_PAT_Detected s) (M3U8_Initial_PMT_Detected s) (M3U8_Initial_IDR_Detected s).

Definition set_Video_Packets (s : TSFragmenter) (packets : list Buffer) : TSFragmenter :=
  mkTSFragmenter (Packet_TransportErrorIndicator s) (Packet_TransportPriority s)
    (Packet_TransportScramblingControl s)
    (PAT_lastPAT s) (PAT_Continuous_Counter s) (PAT_TargetSID s) (PAT_TargetPMTPid s)
    (PMT_lastPMT s) (PMT_Continuous_Counter s) (PMT_VideoPid s) (PMT_PCRPid s)
    packets (M3U8_Segments_Length s) (M3U8_Part_Target s)
    (M3U8_Begin_Sequence_Number s) (M3U8_End_Sequence_Number s) (M3U8_Segments s)
    (M3U8_Initial_PAT_Detected s) (M3U8_Initial_PMT_Detected s) (M3U8_Initial_IDR_Detected s).

Definition set_M3U8 (s : TSFragmenter) (begin_msn end_msn : Z) (segments : list Segment.t)
  : TSFragmenter :=
  mkTSFragmenter (Packet_TransportErrorIndicator s) (Packet_TransportPriority s)
    (Packet_TransportScramblingControl s)
    (PAT_lastPAT s) (PAT_Continuous_Counter s) (PAT_TargetSID s) (PAT_TargetPMTPid s)
    (PMT_lastPMT s) (PMT_Continuous_Counter s) (PMT_VideoPid s) (PMT_PCRPid s)
    (Video_Packets s) (M3U8_Segments_Length s) (M3U8_Part_Target s)
    begin_msn end_msn segments
    (M3U8_Initial_PAT_Detected s) (M3U8_Initial_PMT_Detected s) (M3U8_Initial_IDR_Detected s).

Definition set_M3U8_Segments (s : TSFragmenter) (segments : list Segment.t) : TSFragmenter :=
  set_M3U8 s (M3U8_Begin_Sequence_Number s) (M3U8_End_Sequence_Number s) segments.

Definition set_Initial_Detected (s : TSFragmenter) (pat pmt idr : bool) : TSFragmenter :=
  mkTSFragmenter (Packet_TransportErrorIndicator s) (Packet_TransportPriority s)
    (Packet_TransportScramblingControl s)
    (PAT_lastPAT s) (PAT_Continuous_Counter s) (PAT_TargetSID s) (PAT_TargetPMTPid s)
    (PMT_lastPMT s) (PMT_Continuous_Counter s) (PMT_VideoPid s) (PMT_PCRPid s)
    (Video_Packets s) (M3U8_Segments_Length s) (M3U8_Part_Target s)
    (M3U8_Begin_Sequence_Number s) (M3U8_End_Sequence_Number s) (M3U8_Segments s)
    pat pmt idr.

Section Fragmenter.

Context {lib : Collaborators}.

(** *** Availability queries *)

Definition inRangeSegment (this : TSFragmenter) (msn : Z) : bool :=
  if msn <? M3U8_Begin_Sequence_Number this then false
  else if M3U8_End_Sequence_Number this <=? msn then false
  else true.

(** [None] is the source's [null] or [undefined]; both are tested with
    [!segment] by the callers. *)
Definition M3U8_Get_Segment (this : TSFragmenter) (msn : Z) : option Segment.t :=
  if negb (inRangeSegment this msn) then None
  else array_get (M3U8_Segments this) (msn - M3U8_Begin_Sequence_Number this).

Definition isFulfilledSegment (this : TSFragmenter) (msn : Z) : bool :=
  match M3U8_Get_Segment this msn with
  | None => true
  | Some segment => Segment.isCompleted segment
  end.

Definition getSegment (this : TSFragmenter) (msn : Z) : Buffer :=
  match M3U8_Get_Segment this msn with
  | None => []
  | Some segment => Segment.getBuffer segment
  end.

Definition addSegmentCallback (this : TSFragmenter) (msn : Z) (cb : Callback)
  : TSFragmenter * bool :=
  match M3U8_Get_Segment this msn with
  | None => (this, false)
  | Some segment =>
      (set_M3U8_Segments this
         (array_set (M3U8_Segments this)
            (Z.to_nat (msn - M3U8_Begin_Sequence_Number this))
            (Segment.addCallback segment cb)),
       true)
  end.

(** The outer [None] is the [TypeError] of [segment.getPartial] on an
    [undefined] segment. *)
Definition inRangePartial (this : TSFragmenter) (msn part : Z) : option bool :=
  if negb (inRangeSegment this msn) then Some false
  else
    match array_get (M3U8_Segments this) (msn - M3U8_Begin_Sequence_Number this) with
    | None => None
    | Some segment =>
        match Segment.getPartial segment part with
        | None => Some false
        | Some _ => Some true
        end
    end.

Definition M3U8_Get_Partial (this : TSFragmenter) (msn part : Z)
  : option (option PartialSegment.t) :=
  match inRangePartial this msn part with
  | None => None
  | Some false => Some None
  | Some true =>
      match array_get (M3U8_Segments this) (msn - M3U8_Begin_Sequence_Number this) with
      | None => None
      | Some segment => Some (Segment.getPartial segment part)
      end
  end.

Definition isFulfilledPartial (this : TSFragmenter) (msn part : Z) : option bool :=
  match M3U8_Get_Partial this msn part with
  | None => None
  | Some None => Some true
  | Some (Some partial) => Some (PartialSegment.isCompleted partial)
  end.

Definition getPartial (this : TSFragmenter) (msn part : Z) : option Buffer :=
  match M3U8_Get_Partial this msn part with
  | None => None
  | Some None => Some []
  | Some (Some partial) => Some (PartialSegment.getBuffer partial)
  end.

(** The partial is an object shared with its segment and the window:
    registering the callback mutates it in place. *)
Definition addPartialCallback (this : TSFragmenter) (msn part : Z) (cb : Callback)
  : option (TSFragmenter * bool) :=
  match M3U8_Get_Partial this msn part with
  | None => None
  | Some None => Some (this, false)
  | Some (Some partial) =>
      match array_get (M3U8_Segments this) (msn - M3U8_Begin_Sequence_Number this) with
      | None => None
      | Some segment =>
          let segment' :=
            Segment.mk (Segment.base segment)
              (array_set (Segment.parts segment) (Z.to_nat part)
                 (PartialSegment.addCallback partial cb))
              (Segment.programDateTime segment) in
          Some (set_M3U8_Segments this
                  (array_set (M3U8_Segments this)
                     (Z.to_nat (msn - M3U8_Begin_Sequence_Number this)) segment'),
                true)
      end
  end.

(** *** Window maintenance *)

Definition M3U8_Add_Packet (this : TSFragmenter) (packet : Buffer) : option TSFragmenter :=
  let size := M3U8_End_Sequence_Number this - M3U8_Begin_Sequence_Number this in
  if size <=? 0 then Some this
  else
    match array_get (M3U8_Segments this) (size - 1) with
    | None => None
    | Some lastSegment =>
        match Segment.addPacket lastSegment packet with
        | None => None
        | Some lastSegment' =>
            Some (set_M3U8_Segments this
                    (array_set (M3U8_Segments this) (Z.to_nat (size - 1)) lastSegment'))
        end
    end.

Definition M3U8_Add_PAT (this : TSFragmenter) (PAT : Buffer) : option TSFragmenter :=
  let packets :=
    TSSectionPacketizer_packetize PAT
      (Packet_TransportErrorIndicator this)
      (Packet_TransportPriority this)
      0
      (Packet_TransportScramblingControl this)
      (PAT_Continuous_Counter this) in
  let this :=
    set_PAT this (PAT_lastPAT this)
      (Z.land (PAT_Continuous_Counter this + array_length packets) 0x0F)
      (PAT_TargetPMTPid this) in
  forEach M3U8_Add_Packet packets this.

(** [!this.PAT_TargetPMTPid] holds for [null] and for the PID [0]. *)
Definition M3U8_Add_PMT (this : TSFragmenter) (PMT : Buffer) : option TSFragmenter :=
  match PAT_TargetPMTPid this with
  | None => Some this
  | Some pmtPid =>
      if pmtPid =? 0 then Some this
      else
        let packets :=
          TSSectionPacketizer_packetize PMT
            (Packet_TransportErrorIndicator this)
            (Packet_TransportPriority this)
            pmtPid
            (Packet_TransportScramblingControl this)
            (PMT_Continuous_Counter this) in
        let this :=
          set_PMT this (PMT_lastPMT this)
            (Z.land (PMT_Continuous_Counter this + array_length packets) 0x0F)
            (PMT_VideoPid this) (PMT_PCRPid this) in
        forEach M3U8_Add_Packet packets this
  end.

(** Outer [None]: [TypeError]; inner [None]: [null] or [undefined]. *)
Definition M3U8_Get_Last_Partial (this : TSFragmenter) : option (option PartialSegment.t) :=
  let size := M3U8_End_Sequence_Number this - M3U8_Begin_Sequence_Number this in
  if size <=? 0 then Some None
  else
    match array_get (M3U8_Segments this) (size - 1) with
    | None => None
    | Some lastSegment =>
        Some (Segment.getPartial lastSegment (Segment.getLength lastSegment - 1))
    end.

Definition M3U8_New_Partial (this : TSFragmenter) (beginPTS : Z) : Eff TSFragmenter :=
  let size := M3U8_End_Sequence_Number this - M3U8_Begin_Sequence_Number this in
  if size <=? 0 then ret this
  else
    match array_get (M3U8_Segments this) (size - 1) with
    | None => None
    | Some lastSegment =>
        let (lastSegment, fired) := Segment.completePartial lastSegment beginPTS in
        let lastSegment := Segment.newPartial lastSegment beginPTS None in
        Some (set_M3U8_Segments this
                (array_set (M3U8_Segments this) (Z.to_nat (size - 1)) lastSegment),
              fired)
    end.

(** Sealing of the last segment at the start of [M3U8_New_Segment]. *)
Definition M3U8_Complete_Last (this : TSFragmenter) (beginPTS : Z) : Eff TSFragmenter :=
  let size := M3U8_End_Sequence_Number this - M3U8_Begin_Sequence_Number this in
  if 0 <? size then
    match array_get (M3U8_Segments this) (size - 1) with
    | None => None
    | Some lastSegment =>
        let (lastSegment, fired) := Segment.complete lastSegment beginPTS in
        Some (set_M3U8_Segments this
                (array_set (M3U8_Segments this) (Z.to_nat (size - 1)) lastSegment),
              fired)
    end
  else ret this.

(** Eviction step of [M3U8_New_Segment]; [shift] of an empty array
    does nothing. *)
Definition M3U8_Evict (this : TSFragmenter) : TSFragmenter :=
  let size := M3U8_End_Sequence_Number this - M3U8_Begin_Sequence_Number this in
  if M3U8_Segments_Length this <? size then
    set_M3U8 this (M3U8_Begin_Sequence_Number this + 1) (M3U8_End_Sequence_Number this)
      (tl (M3U8_Segments this))
  else this.

Definition M3U8_New_Segment (this : TSFragmenter) (beginPTS : Z) (now : string)
  : Eff TSFragmenter :=
  match PAT_lastPAT this, PMT_lastPMT this with
  | None, _ => ret this
  | _, None => ret this
  | Some lastPAT, Some lastPMT =>
      this <- M3U8_Complete_Last this beginPTS ;;
      let this :=
        set_M3U8 this (M3U8_Begin_Sequence_Number this)
          (M3U8_End_Sequence_Number this + 1)
          (M3U8_Segments this ++ [Segment.new beginPTS (Some true) now]) in
      let this := M3U8_Evict this in
      this <- lift (M3U8_Add_PAT this lastPAT) ;;
      lift (M3U8_Add_PMT this lastPMT)
  end.

(** *** Program demuxer (PAT) *)

(** One test of [this.PAT_TargetSID === program_number] and its
    [else if], on the current entry. *)
Definition PAT_select (TargetSID : option Z) (program_number program_map_PID : Z)
    (TargetPMTPid : option Z) : option Z :=
  match TargetSID with
  | Some sid =>
      if sid =? program_number then Some program_map_PID else TargetPMTPid
  | None =>
      match TargetPMTPid with
      | None => Some program_map_PID
      | Some _ => TargetPMTPid
      end
  end.

(** The [while (begin < ...)] loop over the 4-byte program entries;
    [fuel] bounds the number of iterations. *)
Fixpoint PAT_loop (fuel : nat) (PAT : Buffer) (TargetSID : option Z) (bound begin : Z)
    (TargetPMTPid : option Z) : option Z :=
  match fuel with
  | O => TargetPMTPid
  | S fuel' =>
      if begin <? bound then
        let program_number :=
          Z.lor (Z.shiftl (byte_at PAT (begin + 0)) 8) (byte_at PAT (begin + 1)) in
        let program_map_PID :=
          Z.lor (Z.shiftl (Z.land (byte_at PAT (begin + 2)) 0x1F) 8)
                (byte_at PAT (begin + 3)) in
        if program_map_PID =? 0x10 then
          PAT_loop fuel' PAT TargetSID bound (begin + 4) TargetPMTPid
        else
          PAT_loop fuel' PAT TargetSID bound (begin + 4)
            (PAT_select TargetSID program_number program_map_PID TargetPMTPid)
      else TargetPMTPid
  end.

Definition section_end (PAT : Buffer) : Z :=
  TSSection_BASIC_HEADER_SIZE + TSSection_section_length PAT - TSSection_CRC_SIZE.

(** The body of the loop over the sections popped from
    [PAT_TSSectionQueue]. *)
Definition PAT_section (this : TSFragmenter) (PAT : Buffer) : option TSFragmenter :=
  if negb (TSSection_CRC32 PAT =? 0) then Some this
  else
    let this := set_PAT this (Some PAT) (PAT_Continuous_Counter this) None in
    let begin := TSSection_EXTENDED_HEADER_SIZE in
    let pmtPid :=
      PAT_loop (Z.to_nat (section_end PAT - begin)) PAT (PAT_TargetSID this)
        (section_end PAT) begin (PAT_TargetPMTPid this) in
    let this := set_PAT this (PAT_lastPAT this) (PAT_Continuous_Counter this) pmtPid in
    let this :=
      if negb (M3U8_Initial_PAT_Detected this) then
        set_Initial_Detected this true
          (M3U8_Initial_PMT_Detected this) (M3U8_Initial_IDR_Detected this)
      else this in
    if M3U8_Initial_IDR_Detected this then M3U8_Add_PAT this PAT else Some this.

(** *** Stream map demuxer (PMT) *)

Fixpoint PMT_loop (fuel : nat) (PMT : Buffer) (bound begin : Z) (VideoPid : option Z)
  : option Z :=
  match fuel with
  | O => VideoPid
  | S fuel' =>
      if begin <? bound then
        let stream_type := byte_at PMT (begin + 0) in
        let elementary_PID :=
          Z.lor (Z.shiftl (Z.land (byte_at PMT (begin + 1)) 0x1F) 8)
                (byte_at PMT (begin + 2)) in
        let ES_info_length :=
          Z.lor (Z.shiftl (Z.land (byte_at PMT (begin + 3)) 0x0F) 8)
                (byte_at PMT (begin + 4)) in
        let VideoPid :=
          match VideoPid with
          | None => if stream_type =? 0x1b then Some elementary_PID else None
          | Some _ => VideoPid
          end in
        PMT_loop fuel' PMT bound (begin + (5 + ES_info_length)) VideoPid
      else VideoPid
  end.

Definition PMT_section (this : TSFragmenter) (PMT : Buffer) : option TSFragmenter :=
  if negb (TSSection_CRC32 PMT =? 0) then Some this
  else
    let PCR_PID :=
      Z.lor (Z.shiftl (Z.land (byte_at PMT (TSSection_EXTENDED_HEADER_SIZE + 0)) 0x1F) 8)
            (byte_at PMT (TSSection_EXTENDED_HEADER_SIZE + 1)) in
    let program_info_length :=
      Z.lor (Z.shiftl (Z.land (byte_at PMT (TSSection_EXTENDED_HEADER_SIZE + 2)) 0x0F) 8)
            (byte_at PMT (TSSection_EXTENDED_HEADER_SIZE + 3)) in
    let begin := TSSection_EXTENDED_HEADER_SIZE + 4 + program_info_length in
    let videoPid :=
      PMT_loop (Z.to_nat (section_end PMT - begin)) PMT (section_end PMT) begin None in
    let this :=
      set_PMT this (Some PMT) (PMT_Continuous_Counter this) videoPid (Some PCR_PID) in
    let this :=
      if negb (M3U8_Initial_PMT_Detected this) then
        set_Initial_Detected this (M3U8_Initial_PAT_Detected this) true
          (M3U8_Initial_IDR_Detected this)
      else this in
    if M3U8_Initial_IDR_Detected this then M3U8_Add_PMT this PMT else Some this.

(** *** Timestamp and access-unit analyzer *)

(** The 33-bit PTS packed in five bytes (3/8/7/8/7 bits). *)
Definition PES_pts (VideoPES : Buffer) : Z :=
  let at_ (k : Z) := byte_at VideoPES (TSPES_PES_HEADER_SIZE + 3 + k) in
  let pts := 0 in
  let pts := pts * Z.shiftl 1 3 + Z.shiftr (Z.land (at_ 0) 0x0E) 1 in
  let pts := pts * Z.shiftl 1 8 + Z.shiftr (Z.land (at_ 1) 0xFF) 0 in
  let pts := pts * Z.shiftl 1 7 + Z.shiftr (Z.land (at_ 2) 0xFE) 1 in
  let pts := pts * Z.shiftl 1 8 + Z.shiftr (Z.land (at_ 3) 0xFF) 0 in
  let pts := pts * Z.shiftl 1 7 + Z.shiftr (Z.land (at_ 4) 0xFE) 1 in
  pts.

(** [VideoPES[i] !== v]: an out-of-range read is [undefined], which
    differs from every number. *)
Definition byte_differs (b : Buffer) (i v : Z) : bool :=
  if i <? 0 then true
  else match nth_error b (Z.to_nat i) with
       | Some x => negb (Z.of_N (Byte.to_N x) =? v)
       | None => true
       end.

(** The start-code scan; the result is [hasIDR]. *)
Fixpoint IDR_loop (fuel : nat) (VideoPES : Buffer) (begin : Z) : bool :=
  match fuel with
  | O => false
  | S fuel' =>
      if begin <? Buffer_length VideoPES then
        if Buffer_length VideoPES <=? begin + 2 then false
        else if byte_differs VideoPES (begin + 0) 0 then IDR_loop fuel' VideoPES (begin + 1)
        else if byte_differs VideoPES (begin + 1) 0 then IDR_loop fuel' VideoPES (begin + 1)
        else if byte_differs VideoPES (begin + 2) 1 then IDR_loop fuel' VideoPES (begin + 1)
        else if Buffer_length VideoPES <=? begin + 3 then false
        else
          let nal_unit_type := Z.land (byte_at VideoPES (begin + 3)) 0x1f in
          if nal_unit_type =? 5 then true
          else IDR_loop fuel' VideoPES (begin + 4)
      else false
  end.

(** [PES_header_data_length] is [undefined] when the payload is too
    short; the loop condition is then false. *)
Definition PES_hasIDR (VideoPES : Buffer) : bool :=
  let i := TSPES_PES_HEADER_SIZE + 2 in
  if (i <? 0) || (Buffer_length VideoPES <=? i) then false
  else
    let PES_header_data_length := byte_at VideoPES i in
    let begin := TSPES_PES_HEADER_SIZE + 2 + PES_header_data_length in
    IDR_loop (Z.to_nat (Buffer_length VideoPES - begin)) VideoPES begin.

(** *** Segmenter: [_write] *)

Definition Qlt_bool (x y : Q) : bool := negb (Qle_bool y x).

Fixpoint forEachEff {S A : Type} (f : S -> A -> Eff S) (a : list A) (s : S) : Eff S :=
  match a with
  | [] => ret s
  | x :: a' => s' <- f s x ;; forEachEff f a' s'
  end.

(** [pid === this.field] for a field that is a number or [null]. *)
Definition pid_is (pid : Z) (field : option Z) : bool :=
  match field with
  | Some v => pid =? v
  | None => false
  end.

(** The part cut taken for an access unit without IDR. *)
Definition Video_part_cut (this : TSFragmenter) (pts : Z) : Eff TSFragmenter :=
  match M3U8_Get_Last_Partial this with
  | None => None
  | Some None => ret this
  | Some (Some part) =>
      let time := PartialSegment.estimateSeconds part pts in
      if Qlt_bool (M3U8_Part_Target this * (85 # 100)) time
         && Qle_bool time (M3U8_Part_Target this)
      then M3U8_New_Partial this pts
      else ret this
  end.

(** The body of the loop over the payloads popped from
    [Video_TSPESQueue]. *)
Definition Video_PES (this : TSFragmenter) (popped : Buffer * string) : Eff TSFragmenter :=
  let (VideoPES, now) := popped in
  let pts := PES_pts VideoPES in
  let hasIDR := PES_hasIDR VideoPES in
  this <- (if hasIDR then
             let this :=
               if negb (M3U8_Initial_IDR_Detected this) then
                 set_Initial_Detected this (M3U8_Initial_PAT_Detected this)
                   (M3U8_Initial_PMT_Detected this) true
               else this in
             M3U8_New_Segment this pts now
           else ret this) ;;
  if M3U8_Initial_IDR_Detected this then
    this <- (if negb hasIDR then Video_part_cut this pts else ret this) ;;
    this <- lift (forEach M3U8_Add_Packet (Video_Packets this) this) ;;
    ret (set_Video_Packets this [])
  else ret this.

(** The body of the loop over the packets popped from [packetQueue].
    The PCR of a packet on the PCR PID is read and dropped. *)
Definition write_packet (this : TSFragmenter) (a : Arrival) : Eff TSFragmenter :=
  let pid := TSPacket_pid (packet a) in
  let this :=
    set_Packet_header this
      (TSPacket_transport_error_indicator (packet a))
      (TSPacket_transport_priority (packet a))
      (TSPacket_transport_scrambling_control (packet a)) in
  if pid =? 0x00 then
    lift (forEach PAT_section (popped_sections a) this)
  else if pid_is pid (PAT_TargetPMTPid this) then
    lift (forEach PMT_section (popped_sections a) this)
  else if pid_is pid (PMT_VideoPid this) then
    let this := set_Video_Packets this (Video_Packets this ++ [packet a]) in
    forEachEff Video_PES (popped_PES a) this
  else if pid_is pid (PMT_PCRPid this) then
    if M3U8_Initial_IDR_Detected this then lift (M3U8_Add_Packet this (packet a))
    else ret this
  else
    if M3U8_Initial_IDR_Detected this then lift (M3U8_Add_Packet this (packet a))
    else ret this.

(** [_write(chunk)]: [chunk] is given as the packets the packet queue
    yields for it. *)
Definition _write (this : TSFragmenter) (chunk : list Arrival) : Eff TSFragmenter :=
  forEachEff write_packet chunk this.

(** *** Runs: the calls a client and the input stream make *)

Inductive Call : Type :=
| Call_write (chunk : list Arrival)
| Call_addSegmentCallback (msn : Z) (cb : Callback)
| Call_addPartialCallback (msn part : Z) (cb : Callback).

Definition call (this : TSFragmenter) (c : Call) : Eff TSFragmenter :=
  match c with
  | Call_write chunk => _write this chunk
  | Call_addSegmentCallback msn cb => ret (fst (addSegmentCallback this msn cb))
  | Call_addPartialCallback msn part cb =>
      match addPartialCallback this msn part cb with
      | None => None
      | Some (this', _) => ret this'
      end
  end.

Definition run (this : TSFragmenter) (calls : list Call) : Eff TSFragmenter :=
  forEachEff call calls this.

(** *** Playlist renderer *)

Definition newline : string := String "010"%char EmptyString.

Definition dquote : string := String "034"%char EmptyString.

(** Template interpolation of an integer. *)
Definition Number_toString (n : Z) : string := NilZero.string_of_int (Z.to_int n).

(** [x.toFixed(3)], as the number of thousandths it prints and as the
    text. *)
Definition toFixed3_thousandths (x : Q) : Z := Qfloor (Qabs x * 1000 + (1 # 2)).

Definition toFixed3 (x : Q) : string :=
  let n := toFixed3_thousandths x in
  ((if Qlt_bool x 0 then "-" else "")
     ++ Number_toString (n / 1000) ++ "."
     ++ Number_toString (n / 100 mod 10)
     ++ Number_toString (n / 10 mod 10)
     ++ Number_toString (n mod 10))%string.

(** [Number.parseFloat(x.toFixed(3))]. *)
Definition parseFloat_toFixed3 (x : Q) : Q :=
  if Qlt_bool x 0 then (- toFixed3_thousandths x) # 1000
  else toFixed3_thousandths x # 1000.

Definition Qmax (x y : Q) : Q := if Qle_bool x y then y else x.

Definition INDEPENDENT (part : PartialSegment.t) : string :=
  if PartialSegment.getHasIFrame part then ",INDEPENDENT=YES"%string else EmptyString.

Definition PRELOAD_HINT_line (media_sequence p : Z) (part : PartialSegment.t) : string :=
  ("#EXT-X-PRELOAD-HINT:TYPE=PART,URI=" ++ dquote
     ++ "part?msn=" ++ Number_toString media_sequence
     ++ "&part.ts=" ++ Number_toString p ++ dquote
     ++ INDEPENDENT part ++ newline)%string.

Definition PART_line (media_sequence p : Z) (part : PartialSegment.t) (seconds : Q) : string :=
  ("#EXT-X-PART:DURATION=" ++ toFixed3 seconds ++ ",URI=" ++ dquote
     ++ "part?msn=" ++ Number_toString media_sequence
     ++ "&part=" ++ Number_toString p ++ dquote
     ++ INDEPENDENT part ++ newline)%string.

(** The loop over the partials of one segment: the text appended and
    the value of [extinf]. *)
Fixpoint Manifest_parts (fuel : nat) (segment : Segment.t) (media_sequence p : Z)
    (m3u8 : string) (extinf : Q) : option (string * Q) :=
  match fuel with
  | O => Some (m3u8, extinf)
  | S fuel' =>
      if p <? Segment.getLength segment then
        match Segment.getPartial segment p with
        | None => Some (m3u8, extinf)
        | Some part =>
            if negb (PartialSegment.isCompleted part) then
              Manifest_parts fuel' segment media_sequence (p + 1)
                (m3u8 ++ PRELOAD_HINT_line media_sequence p part)%string extinf
            else
              match PartialSegment.getSeconds part with
              | None => None
              | Some seconds =>
                  Manifest_parts fuel' segment media_sequence (p + 1)
                    (m3u8 ++ PART_line media_sequence p part seconds)%string
                    (extinf + parseFloat_toFixed3 seconds)%Q
              end
        end
      else Some (m3u8, extinf)
  end.

Definition Manifest_segment (segment : Segment.t) (media_sequence : Z) (m3u8 : string)
  : option string :=
  let m3u8 := (m3u8 ++ newline)%string in
  let m3u8 :=
    (m3u8 ++ "#EXT-X-PROGRAM-DATE-TIME:" ++ Segment.getProgramDateTime segment
       ++ newline)%string in
  match Manifest_parts (Z.to_nat (Segment.getLength segment)) segment media_sequence 0
          m3u8 0%Q with
  | None => None
  | Some (m3u8, extinf) =>
      if Segment.isCompleted segment then
        Some (m3u8 ++ "#EXTINF:" ++ toFixed3 extinf ++ newline
                ++ "segment?msn=" ++ Number_toString media_sequence ++ newline)%string
      else Some m3u8
  end.

Fixpoint Manifest_segments (fuel : nat) (this : TSFragmenter) (media_sequence : Z)
    (m3u8 : string) : option string :=
  match fuel with
  | O => Some m3u8
  | S fuel' =>
      if media_sequence <? M3U8_End_Sequence_Number this then
        match array_get (M3U8_Segments this)
                (media_sequence - M3U8_Begin_Sequence_Number this) with
        | None => None
        | Some segment =>
            match Manifest_segment segment media_sequence m3u8 with
            | None => None
            | Some m3u8 => Manifest_segments fuel' this (media_sequence + 1) m3u8
            end
        end
      else Some m3u8
  end.

Fixpoint TargetDuration_loop (fuel : nat) (this : TSFragmenter) (media_sequence : Z)
    (max : Q) : option Q :=
  match fuel with
  | O => Some max
  | S fuel' =>
      if media_sequence <? M3U8_End_Sequence_Number this then
        match array_get (M3U8_Segments this)
                (media_sequence - M3U8_Begin_Sequence_Number this) with
        | None => None
        | Some segment =>
            TargetDuration_loop fuel' this (media_sequence + 1)
              (Qmax max (match Segment.getSeconds segment with
                         | Some s => s
                         | None => 0%Q
                         end))
        end
      else Some max
  end.

Definition window_size (this : TSFragmenter) : nat :=
  Z.to_nat (M3U8_End_Sequence_Number this - M3U8_Begin_Sequence_Number this).

Definition getTargetDuration (this : TSFragmenter) : option Z :=
  match TargetDuration_loop (window_size this) this
          (M3U8_Begin_Sequence_Number this) 1%Q with
  | None => None
  | Some max => Some (Qceiling max)
  end.

Definition getManifest (this : TSFragmenter) : option string :=
  match getTargetDuration this with
  | None => None
  | Some targetDuration =>
      let m3u8 :=
        ("#EXTM3U" ++ newline
           ++ "#EXT-X-VERSION:6" ++ newline
           ++ "#EXT-X-TARGETDURATION:" ++ Number_toString targetDuration ++ newline
           ++ "#EXT-X-PART-INF:PART-TARGET=" ++ toFixed3 (M3U8_Part_Target this) ++ newline
           ++ "#EXT-X-SERVER-CONTROL:CAN-BLOCK-RELOAD=YES,PART-HOLD-BACK="
           ++ toFixed3 (M3U8_Part_Target this * 3) ++ newline
           ++ "#EXT-X-MEDIA-SEQUENCE:"
           ++ Number_toString (M3U8_Begin_Sequence_Number this) ++ newline)%string in
      Manifest_segments (window_size this) this (M3U8_Begin_Sequence_Number this) m3u8
  end.

End Fragmenter.

(** ** Traces of one PartialSegment *)

(** What a client can do to a partial that is still open. *)
Inductive PendingOp : Type :=
| Append (chunk : Buffer)
| Register (cb : Callback).

Definition pending (this : PartialSegment.t) (op : PendingOp) : PartialSegment.t :=
  match op with
  | Append chunk => PartialSegment.addPacket this chunk
  | Register cb => PartialSegment.addCallback this cb
  end.

Definition appended (ops : list PendingOp) : list Buffer :=
  flat_map (fun op => match op with Append chunk => [chunk] | Register _ => [] end) ops.

Definition registered (ops : list PendingOp) : list Callback :=
  flat_map (fun op => match op with Append _ => [] | Register cb => [cb] end) ops.

(** ** Invariants of the window *)

(** Every element but the last satisfies [P], the last one [Q]. *)
Fixpoint Forall_last {A : Type} (P Q : A -> Prop) (l : list A) : Prop :=
  match l with
  | [] => True
  | x :: l' =>
      match l' with
      | [] => Q x
      | _ :: _ => P x /\ Forall_last P Q l'
      end
  end.

Definition PTS_domain (pts : Z) : Prop := 0 <= pts < 2 ^ 33.

(** An open partial has an empty sealed buffer. *)
Definition Partial_inv (p : PartialSegment.t) : Prop :=
  PTS_domain (PartialSegment.beginPTS p)
  /\ (PartialSegment.isCompleted p = false -> PartialSegment.completed p = []).

Definition Partial_sealed (p : PartialSegment.t) : Prop :=
  Partial_inv p /\ PartialSegment.isCompleted p = true.

Definition Partial_open (p : PartialSegment.t) : Prop :=
  Partial_inv p /\ PartialSegment.isCompleted p = false.

(** A sealed segment has only sealed partials; an open segment has one
    open partial, its last. *)
Definition Segment_sealed (s : Segment.t) : Prop :=
  Partial_sealed (Segment.base s)
  /\ Segment.parts s <> []
  /\ Forall Partial_sealed (Segment.parts s).

Definition Segment_open (s : Segment.t) : Prop :=
  Partial_open (Segment.base s)
  /\ Segment.parts s <> []
  /\ Forall_last Partial_sealed Partial_open (Segment.parts s).

Record WF (this : TSFragmenter) : Prop := mkWF {
  WF_begin : 0 <= M3U8_Begin_Sequence_Number this;
  WF_size : array_length (M3U8_Segments this)
            = M3U8_End_Sequence_Number this - M3U8_Begin_Sequence_Number this;
  WF_cap : M3U8_End_Sequence_Number this - M3U8_Begin_Sequence_Number this
           <= Z.max 0 (M3U8_Segments_Length this);
  WF_window : Forall_last Segment_sealed Segment_open (M3U8_Segments this);
  WF_begin_eq : M3U8_Begin_Sequence_Number this
                = Z.max 0 (M3U8_End_Sequence_Number this
                           - Z.max 0 (M3U8_Segments_Length this));
  WF_sid : PAT_TargetSID this = None;
  WF_idle : M3U8_Initial_IDR_Detected this = false -> M3U8_End_Sequence_Number this = 0
}.

Section Runs.

Context {lib : Collaborators}.

(** States the fragmenter can be in: built by the constructor and
    driven by calls. *)
Inductive Reachable : TSFragmenter -> Prop :=
| Reachable_new : forall options, Reachable (new_TSFragmenter options)
| Reachable_call : forall this c this' fired,
    Reachable this -> call this c = Some (this', fired) -> Reachable this'.

(** Does the packet go down the video branch of [_write]? *)
Definition video_branch (this : TSFragmenter) (a : Arrival) : bool :=
  let pid := TSPacket_pid (packet a) in
  negb (pid =? 0x00)
  && negb (pid_is pid (PAT_TargetPMTPid this))
  && pid_is pid (PMT_VideoPid this).

(** Number of segment creations an arriving packet causes: its IDR
    access units, provided a PAT and a PMT are cached. *)
Definition created_by_packet (this : TSFragmenter) (a : Arrival) : Z :=
  if video_branch this a then
    match PAT_lastPAT this, PMT_lastPMT this with
    | Some _, Some _ =>
        array_length (filter (fun popped => PES_hasIDR (fst popped)) (popped_PES a))
    | _, _ => 0
    end
  else 0.

Fixpoint created_by_chunk (this : TSFragmenter) (chunk : list Arrival) : Z :=
  match chunk with
  | [] => 0
  | a :: chunk' =>
      created_by_packet this a
      + match write_packet this a with
        | Some (this', _) => created_by_chunk this' chunk'
        | None => 0
        end
  end.

Definition created_by_call (this : TSFragmenter) (k : Call) : Z :=
  match k with
  | Call_write chunk => created_by_chunk this chunk
  | _ => 0
  end.

Fixpoint created_by_run (this : TSFragmenter) (calls : list Call) : Z :=
  match calls with
  | [] => 0
  | k :: calls' =>
      created_by_call this k
      + match call this k with
        | Some (this', _) => created_by_run this' calls'
        | None => 0
        end
  end.

End Runs.

(** ** Pending callbacks and the fate of a partial *)

Definition fired_count (c : Callback) (fired : list Callback) : nat :=
  count_occ Nat.eq_dec fired c.

Definition Partial_count (c : Callback) (p : PartialSegment.t) : nat :=
  fired_count c (PartialSegment.complete_callbacks p).

Definition Segment_count (c : Callback) (s : Segment.t) : nat :=
  (Partial_count c (Segment.base s)
   + list_sum (map (Partial_count c) (Segment.parts s)))%nat.

(** How many times [c] is registered in the window. *)
Definition Window_count (c : Callback) (this : TSFragmenter) : nat :=
  list_sum (map (Segment_count c) (M3U8_Segments this)).

Definition lookup_partial (this : TSFragmenter) (msn part : Z) : option PartialSegment.t :=
  match M3U8_Get_Segment this msn with
  | None => None
  | Some segment => Segment.getPartial segment part
  end.

(** The partial [(msn, part)] is sealed, or its segment was evicted. *)
Definition closed_at (this : TSFragmenter) (msn part : Z) : Prop :=
  msn < M3U8_Begin_Sequence_Number this
  \/ exists p, lookup_partial this msn part = Some p
               /\ PartialSegment.isCompleted p = true.

(** The partial [(msn, part)] is in range and open, and holds [k]
    registrations of [c]. *)
Definition open_at (c : Callback) (this : TSFragmenter) (msn part : Z) (k : nat) : Prop :=
  exists p, lookup_partial this msn part = Some p
            /\ PartialSegment.isCompleted p = false
            /\ Partial_count c p = k.

(** What a step that registers no [c] may do to the registrations of
    [c] while it fires the callbacks [fired]. *)
Record Evolves (c : Callback) (s s' : TSFragmenter) (fired : list Callback) : Prop :=
  mkEvolves {
    Ev_count : (fired_count c fired + Window_count c s' <= Window_count c s)%nat;
    Ev_closed : forall msn part, closed_at s msn part -> closed_at s' msn part;
    Ev_open : forall msn part k,
        open_at c s msn part k ->
        open_at c s' msn part k
        \/ (closed_at s' msn part /\ (k <= fired_count c fired)%nat)
  }.

Definition registers (c : Callback) (k : Call) : bool :=
  match k with
  | Call_write _ => false
  | Call_addSegmentCallback _ cb => Nat.eqb cb c
  | Call_addPartialCallback _ _ cb => Nat.eqb cb c
  end.

(** ** The same notions on the array of segments *)

Definition lookup_in (segments : list Segment.t) (i part : Z) : option PartialSegment.t :=
  match array_get segments i with
  | None => None
  | Some segment => Segment.getPartial segment part
  end.

Definition Segments_count (c : Callback) (segments : list Segment.t) : nat :=
  list_sum (map (Segment_count c) segments).

(** The array [segments'] results from [segments] by sealing partials
    and appending to them, with the callbacks [fired] invoked. *)
Record Array_evolves (c : Callback) (segments segments' : list Segment.t)
    (fired : list Callback) : Prop := mkArray_evolves {
  AE_count : (fired_count c fired + Segments_count c segments'
              <= Segments_count c segments)%nat;
  AE_sealed : forall i part p,
      lookup_in segments i part = Some p ->
      PartialSegment.isCompleted p = true ->
      exists p', lookup_in segments' i part = Some p'
                 /\ PartialSegment.isCompleted p' = true;
  AE_open : forall i part p,
      lookup_in segments i part = Some p ->
      PartialSegment.isCompleted p = false ->
      exists p', lookup_in segments' i part = Some p'
                 /\ ((PartialSegment.isCompleted p' = false
                      /\ Partial_count c p' = Partial_count c p)
                     \/ (PartialSegment.isCompleted p' = true
                         /\ (Partial_count c p <= fired_count c fired)%nat))
}.

(** The window and the configuration are those of [s]. *)
Definition same_window (s s' : TSFragmenter) : Prop :=
  M3U8_Begin_Sequence_Number s' = M3U8_Begin_Sequence_Number s
  /\ M3U8_End_Sequence_Number s' = M3U8_End_Sequence_Number s
  /\ M3U8_Segments s' = M3U8_Segments s.

Definition same_settings (s s' : TSFragmenter) : Prop :=
  M3U8_Segments_Length s' = M3U8_Segments_Length s
  /\ M3U8_Part_Target s' = M3U8_Part_Target s
  /\ PAT_TargetSID s' = PAT_TargetSID s
  /\ (M3U8_Initial_IDR_Detected s = true -> M3U8_Initial_IDR_Detected s' = true).

(** The fields that appending packets and sealing leave alone. *)
Record Frame (s s' : TSFragmenter) : Prop := mkFrame {
  Fr_length : M3U8_Segments_Length s' = M3U8_Segments_Length s;
  Fr_target : M3U8_Part_Target s' = M3U8_Part_Target s;
  Fr_sid : PAT_TargetSID s' = PAT_TargetSID s;
  Fr_idr : M3U8_Initial_IDR_Detected s' = M3U8_Initial_IDR_Detected s;
  Fr_pat : PAT_lastPAT s' = PAT_lastPAT s;
  Fr_pmt : PMT_lastPMT s' = PMT_lastPMT s;
  Fr_pmtpid : PAT_TargetPMTPid s' = PAT_TargetPMTPid s;
  Fr_videopid : PMT_VideoPid s' = PMT_VideoPid s;
  Fr_pcrpid : PMT_PCRPid s' = PMT_PCRPid s;
  Fr_video : Video_Packets s' = Video_Packets s
}.

Record Appends (s s' : TSFragmenter) : Prop := mkAppends {
  Ap_frame : Frame s s';
  Ap_begin : M3U8_Begin_Sequence_Number s' = M3U8_Begin_Sequence_Number s;
  Ap_end : M3U8_End_Sequence_Number s' = M3U8_End_Sequence_Number s
}.

(** What every step of the ingestion guarantees. *)
Record Advances (s s' : TSFragmenter) (fired : list Callback) : Prop := mkAdvances {
  Adv_WF : WF s';
  Adv_settings : same_settings s s';
  Adv_evolves : forall c, Evolves c s s' fired
}.

Section Creation.

Context {lib : Collaborators}.

(** Does this access unit open a segment? *)
Definition creates (s : TSFragmenter) (VideoPES : Buffer) : Z :=
  if PES_hasIDR VideoPES then
    match PAT_lastPAT s, PMT_lastPMT s with
    | Some _, Some _ => 1
    | _, _ => 0
    end
  else 0.

Fixpoint created_by_PES (s : TSFragmenter) (popped : list (Buffer * string)) : Z :=
  match popped with
  | [] => 0
  | x :: popped' => creates s (fst x) + created_by_PES s popped'
  end.

End Creation.

(** ** The program selection and the aggregate duration, as specified *)

Section Specified.

Context {lib : Collaborators}.

(** The 4-byte program entries of a PAT, in order: program number and
    program map PID. *)
Definition PAT_entry (PAT : Buffer) (k : nat) : Z * Z :=
  let begin := TSSection_EXTENDED_HEADER_SIZE + 4 * Z.of_nat k in
  (Z.lor (Z.shiftl (byte_at PAT (begin + 0)) 8) (byte_at PAT (begin + 1)),
   Z.lor (Z.shiftl (Z.land (byte_at PAT (begin + 2)) 0x1F) 8) (byte_at PAT (begin + 3))).

Definition PAT_entries (PAT : Buffer) : list (Z * Z) :=
  map (PAT_entry PAT)
    (seq 0 (Z.to_nat ((section_end PAT - TSSection_EXTENDED_HEADER_SIZE + 3) / 4))).

(** The entries the loop has still to read when it stands at
    [begin]. *)
Definition PAT_entries_from (PAT : Buffer) (bound begin : Z) : list (Z * Z) :=
  map (fun k =>
         (Z.lor (Z.shiftl (byte_at PAT (begin + 4 * Z.of_nat k + 0)) 8)
                (byte_at PAT (begin + 4 * Z.of_nat k + 1)),
          Z.lor (Z.shiftl (Z.land (byte_at PAT (begin + 4 * Z.of_nat k + 2)) 0x1F) 8)
                (byte_at PAT (begin + 4 * Z.of_nat k + 3))))
    (seq 0 (Z.to_nat ((bound - begin + 3) / 4))).

(** The effect of one program entry on the binding. *)
Definition PAT_visit (TargetSID : option Z) (TargetPMTPid : option Z) (e : Z * Z)
  : option Z :=
  if snd e =? 0x10 then TargetPMTPid
  else PAT_select TargetSID (fst e) (snd e) TargetPMTPid.

(** Entries with the PID 0x10 do not qualify. *)
Definition qualifying (entries : list (Z * Z)) : list (Z * Z) :=
  filter (fun e => negb (snd e =? 0x10)) entries.

(** The selection policy: with a target service id, the qualifying
    entry that carries it, wherever it stands (the last one if several
    do); without, the first qualifying entry. *)
Definition select_program (TargetSID : option Z) (entries : list (Z * Z)) : option Z :=
  match TargetSID with
  | Some sid =>
      option_map snd (find (fun e => sid =? fst e) (rev (qualifying entries)))
  | None => option_map snd (hd_error (qualifying entries))
  end.

End Specified.

(** A duration as the playlist prints it. *)
Definition rounded_seconds (p : PartialSegment.t) : Q :=
  match PartialSegment.getSeconds p with
  | Some seconds => parseFloat_toFixed3 seconds
  | None => 0%Q
  end.

Definition sum_rounded_seconds (parts : list PartialSegment.t) : Q :=
  fold_left (fun extinf p => (extinf + rounded_seconds p)%Q) parts 0%Q.




(** ** The life of one registration *)

(** The callback [c] is registered once, on the open partial
    [(msn, part)], and nowhere else. *)
Definition Pending (c : Callback) (s : TSFragmenter) (msn part : Z) : Prop :=
  open_at c s msn part 1 /\ Window_count c s = 1%nat.

(** The partial [(msn, part)] is sealed or evicted and [c] is registered
    nowhere. *)
Definition Done (c : Callback) (s : TSFragmenter) (msn part : Z) : Prop :=
  closed_at s msn part /\ Window_count c s = 0%nat.


(** ** A concrete parser library

    An instance of [Collaborators] with the field layout of ISO/IEC
    13818-1: the packet header, the section length, the CRC-32 of a
    section (zero over a section that ends with its checksum) and a
    packetizer that cuts a section, behind a zero pointer field, into
    188-byte packets stuffed with 0xFF. *)

Definition byte_of_Z (z : Z) : byte :=
  match Byte.of_N (Z.to_N (z mod 256)) with
  | Some b => b
  | None => x00
  end.

Definition bytes (l : list Z) : Buffer := map byte_of_Z l.

Definition crc32_shift (crc : Z) : Z :=
  if Z.testbit crc 31
  then Z.land (Z.lxor (Z.shiftl crc 1) 0x04C11DB7) 0xFFFFFFFF
  else Z.land (Z.shiftl crc 1) 0xFFFFFFFF.

Definition crc32_byte (crc : Z) (b : byte) : Z :=
  let crc := Z.lxor crc (Z.shiftl (Z.of_N (Byte.to_N b)) 24) in
  crc32_shift (crc32_shift (crc32_shift (crc32_shift
    (crc32_shift (crc32_shift (crc32_shift (crc32_shift crc))))))).

Definition crc32 (section : Buffer) : Z := fold_left crc32_byte section 0xFFFFFFFF.

Fixpoint chunks184 (fuel : nat) (payload : Buffer) : list Buffer :=
  match fuel with
  | O => []
  | S fuel' =>
      match payload with
      | [] => []
      | _ :: _ => firstn 184 payload :: chunks184 fuel' (skipn 184 payload)
      end
  end.

Fixpoint packetize_chunks (chunks : list Buffer) (first tei tp : bool) (pid tsc cc : Z)
  : list Buffer :=
  match chunks with
  | [] => []
  | chunk :: chunks' =>
      (bytes [0x47;
              Z.lor (Z.lor (if tei then 0x80 else 0) (if first then 0x40 else 0))
                (Z.lor (if tp then 0x20 else 0) (Z.land (Z.shiftr pid 8) 0x1F));
              Z.land pid 0xFF;
              Z.lor (Z.lor (Z.shiftl (Z.land tsc 3) 6) 0x10) (Z.land cc 0x0F)]
         ++ chunk ++ repeat xff (184 - List.length chunk))
        :: packetize_chunks chunks' false tei tp pid tsc (cc + 1)
  end.

Definition plain_lib : Collaborators := {|
  TSPacket_pid := fun p => Z.lor (Z.shiftl (Z.land (byte_at p 1) 0x1F) 8) (byte_at p 2);
  TSPacket_transport_error_indicator := fun p => negb (Z.land (byte_at p 1) 0x80 =? 0);
  TSPacket_transport_priority := fun p => negb (Z.land (byte_at p 1) 0x20 =? 0);
  TSPacket_transport_scrambling_control := fun p => Z.shiftr (Z.land (byte_at p 3) 0xC0) 6;
  TSSection_BASIC_HEADER_SIZE := 3;
  TSSection_EXTENDED_HEADER_SIZE := 8;
  TSSection_CRC_SIZE := 4;
  TSSection_section_length :=
    fun s => Z.lor (Z.shiftl (Z.land (byte_at s 1) 0x0F) 8) (byte_at s 2);
  TSSection_CRC32 := crc32;
  TSPES_PES_HEADER_SIZE := 6;
  TSSectionPacketizer_packetize :=
    fun section tei tp pid tsc cc =>
      packetize_chunks (chunks184 (S (List.length section)) (x00 :: section))
        true tei tp pid tsc cc
|}.

(** ** Test vectors *)

(** A section body followed by its CRC-32. *)
Definition with_CRC (body : list Z) : Buffer :=
  let crc := crc32 (bytes body) in
  bytes (body ++ [Z.shiftr crc 24; Z.shiftr crc 16; Z.shiftr crc 8; crc]).

(** A 188-byte TS packet on [pid]: header, one payload byte, stuffing. *)
Definition test_packet (pid tag : Z) : Buffer :=
  bytes [0x47; Z.land (Z.shiftr pid 8) 0x1F; Z.land pid 0xFF; 0x10; tag] ++ repeat xff 183.

(** A PAT with the single program 1 on PMT PID 0x100. *)
Definition test_PAT : Buffer :=
  Eval vm_compute in
    with_CRC [0x00; 0xB0; 0x0D; 0; 1; 0xC1; 0; 0;
              0; 1; 0xE1; 0x00].

(** A PAT with the network entry (PID 0x10), program 1 on PMT PID 0x100
    and program 2 on PMT PID 0x200. *)
Definition test_PAT_two_programs : Buffer :=
  Eval vm_compute in
    with_CRC [0x00; 0xB0; 0x15; 0; 1; 0xC1; 0; 0;
              0; 0; 0xE0; 0x10;
              0; 1; 0xE1; 0x00;
              0; 2; 0xE2; 0x00].

(** A PMT with one AVC stream on PID 0x101, which also carries the PCR. *)
Definition test_PMT : Buffer :=
  Eval vm_compute in
    with_CRC [0x02; 0xB0; 0x12; 0; 1; 0xC1; 0; 0; 0xE1; 0x01; 0xF0; 0;
              0x1b; 0xE1; 0x01; 0xF0; 0].

(** A video PES payload with the given PTS and one NAL unit: an IDR
    slice (type 5) or a non-IDR slice (type 1). *)
Definition test_PES (pts : Z) (idr : bool) : Buffer :=
  bytes [0; 0; 1; 0xE0; 0; 0; 0x80; 0x80; 5;
         Z.lor 0x21 (Z.shiftl (Z.land (Z.shiftr pts 30) 7) 1);
         Z.land (Z.shiftr pts 22) 255;
         Z.lor 1 (Z.shiftl (Z.land (Z.shiftr pts 15) 127) 1);
         Z.land (Z.shiftr pts 7) 255;
         Z.lor 1 (Z.shiftl (Z.land pts 127) 1);
         0; 0; 1; (if idr then 0x65 else 0x41); 0xAA].

Definition test_clock : string := "2026-01-01T00:00:00.000Z".

Definition test_PAT_arrival : Arrival := mkArrival (test_packet 0 1) [test_PAT] [].

Definition test_PMT_arrival : Arrival := mkArrival (test_packet 0x100 2) [test_PMT] [].

(** A video packet with which the PES queue yields the access unit with
    the given PTS. *)
Definition test_video_arrival (tag pts : Z) (idr : bool) : Arrival :=
  mkArrival (test_packet 0x101 tag) [] [(test_PES pts idr, test_clock)].


(** ** Test runs *)

Definition state_of (r : Eff TSFragmenter) : TSFragmenter :=
  match r with
  | Some (this, _) => this
  | None => new_TSFragmenter None
  end.

(** PAT, PMT, then five IDR access units one second apart. *)
Definition test_five_segments : list Call :=
  [Call_write [test_PAT_arrival; test_PMT_arrival;
               test_video_arrival 3 0 true;
               test_video_arrival 4 90000 true];
   Call_write [test_video_arrival 5 180000 true;
               test_video_arrival 6 270000 true;
               test_video_arrival 7 360000 true]].

(** PAT, PMT and a first IDR access unit at PTS 0: segment 0 is open
    with its partial 0. *)
Definition test_first_segment : list Call :=
  [Call_write [test_PAT_arrival; test_PMT_arrival; test_video_arrival 3 0 true]].

Definition test_state_first_segment : TSFragmenter :=
  Eval vm_compute in state_of (run (lib := plain_lib) (new_TSFragmenter None) test_first_segment).

(** After [test_first_segment]: a part cut that seals partial 0 of
    segment 0, then the next segment. *)
Definition test_seal_then_go_on : list Call :=
  [Call_write [test_video_arrival 4 90000 false];
   Call_write [test_video_arrival 5 180000 true]].




(** PAT, PMT, an IDR access unit at PTS 0 and a non-IDR access unit one
    second later: partial 0 of segment 0 is sealed, partial 1 is open. *)
Definition test_one_part_cut : list Call :=
  [Call_write [test_PAT_arrival; test_PMT_arrival;
               test_video_arrival 3 0 true;
               test_video_arrival 4 90000 false]].

Definition test_state_one_part_cut : TSFragmenter :=
  Eval vm_compute in state_of (run (lib := plain_lib) (new_TSFragmenter None) test_one_part_cut).

(** PAT, PMT, an IDR access unit at PTS 0, two non-IDR access units
    0.9004 s apart that cut parts, and the next IDR access unit: segment
    0 is sealed with three parts of 81036 ticks each. *)
Definition test_three_parts : list Call :=
  [Call_write [test_PAT_arrival; test_PMT_arrival;
               test_video_arrival 3 0 true;
               test_video_arrival 4 81036 false;
               test_video_arrival 5 162072 false;
               test_video_arrival 6 243108 true]].

Definition test_state_three_parts : TSFragmenter :=
  Eval vm_compute in state_of (run (lib := plain_lib) (new_TSFragmenter None) test_three_parts).

(** The stream of the end-to-end scenario: a non-IDR access unit 0.3 s
    after the first IDR (no cut), one at 1.0 s (part cut), and the next
    IDR access unit at 2.0 s. *)
Definition test_end_to_end : list Call :=
  [Call_write [test_PAT_arrival; test_PMT_arrival;
               test_video_arrival 3 0 true;
               test_video_arrival 4 27000 false;
               test_video_arrival 5 90000 false;
               test_video_arrival 6 180000 true]].


(** ** Layouts the analyzer reads *)

(** The five bytes that carry a 33-bit timestamp in a PES header: a
    4-bit prefix, then 3, 15 and 15 bits of the value, each group closed
    by a marker bit. *)
Definition PTS_field (prefix m0 m1 m2 pts : Z) : list Z :=
  [prefix * 16 + (pts / 2 ^ 30) mod 8 * 2 + m0;
   (pts / 2 ^ 22) mod 256;
   (pts / 2 ^ 15) mod 128 * 2 + m1;
   (pts / 2 ^ 7) mod 256;
   pts mod 128 * 2 + m2].

(** A NAL unit of type [t] stands at offset [i]: the start code
    00 00 01 and a header byte, all inside the payload. *)
Definition NAL_at (VideoPES : Buffer) (i t : Z) : Prop :=
  0 <= i /\ i + 3 < Buffer_length VideoPES
  /\ byte_at VideoPES i = 0
  /\ byte_at VideoPES (i + 1) = 0
  /\ byte_at VideoPES (i + 2) = 1
  /\ Z.land (byte_at VideoPES (i + 3)) 0x1f = t.

Section Layouts.

Context {lib : Collaborators}.

(** Where the start-code scan begins. *)
Definition scan_begin (VideoPES : Buffer) : Z :=
  TSPES_PES_HEADER_SIZE + 2 + byte_at VideoPES (TSPES_PES_HEADER_SIZE + 2).

(** *** The stream entries of a PMT *)

Definition PMT_stream_type (PMT : Buffer) (b : Z) : Z := byte_at PMT (b + 0).

Definition PMT_elementary_PID (PMT : Buffer) (b : Z) : Z :=
  Z.lor (Z.shiftl (Z.land (byte_at PMT (b + 1)) 0x1F) 8) (byte_at PMT (b + 2)).

Definition PMT_ES_info_length (PMT : Buffer) (b : Z) : Z :=
  Z.lor (Z.shiftl (Z.land (byte_at PMT (b + 3)) 0x0F) 8) (byte_at PMT (b + 4)).

(** The offsets of the stream entries that lie before [bound]: the
    first one at [start], each next one behind the five header bytes
    and the descriptors of the one before. *)
Inductive PMT_stream (PMT : Buffer) (bound start : Z) : Z -> Prop :=
| PMT_stream_first : start < bound -> PMT_stream PMT bound start start
| PMT_stream_next : forall b,
    PMT_stream PMT bound start b ->
    b + (5 + PMT_ES_info_length PMT b) < bound ->
    PMT_stream PMT bound start (b + (5 + PMT_ES_info_length PMT b)).

Definition PMT_PCR_PID (PMT : Buffer) : Z :=
  Z.lor (Z.shiftl (Z.land (byte_at PMT (TSSection_EXTENDED_HEADER_SIZE + 0)) 0x1F) 8)
        (byte_at PMT (TSSection_EXTENDED_HEADER_SIZE + 1)).

Definition PMT_streams_begin (PMT : Buffer) : Z :=
  TSSection_EXTENDED_HEADER_SIZE + 4
  + Z.lor (Z.shiftl (Z.land (byte_at PMT (TSSection_EXTENDED_HEADER_SIZE + 2)) 0x0F) 8)
          (byte_at PMT (TSSection_EXTENDED_HEADER_SIZE + 3)).

(** [b] is the first stream entry of type 0x1b (AVC video). *)
Definition first_AVC_stream (PMT : Buffer) (bound start b : Z) : Prop :=
  PMT_stream PMT bound start b
  /\ PMT_stream_type PMT b = 0x1b
  /\ forall b', PMT_stream PMT bound start b' -> b' < b -> PMT_stream_type PMT b' <> 0x1b.

Definition no_AVC_stream (PMT : Buffer) (bound start : Z) : Prop :=
  forall b, PMT_stream PMT bound start b -> PMT_stream_type PMT b <> 0x1b.

End Layouts.

(** ** The playlist, block by block *)

(** The line of one partial: a sealed one has a duration. *)
Definition Playlist_part (media_sequence p : Z) (part : PartialSegment.t) : string :=
  match PartialSegment.getSeconds part with
  | None => PRELOAD_HINT_line media_sequence p part
  | Some seconds => PART_line media_sequence p part seconds
  end.

Fixpoint Playlist_parts (media_sequence p : Z) (parts : list PartialSegment.t) : string :=
  match parts with
  | [] => EmptyString
  | part :: parts' =>
      (Playlist_part media_sequence p part
         ++ Playlist_parts media_sequence (p + 1) parts')%string
  end.

(** The block of one segment: a blank line, the date, the lines of its
    partials and, for a sealed segment, its duration and its URI. *)
Definition Playlist_segment (media_sequence : Z) (segment : Segment.t) : string :=
  (newline ++ "#EXT-X-PROGRAM-DATE-TIME:" ++ Segment.getProgramDateTime segment ++ newline
     ++ Playlist_parts media_sequence 0 (Segment.parts segment)
     ++ (if Segment.isCompleted segment
         then "#EXTINF:"
              ++ toFixed3 (sum_rounded_seconds
                             (filter PartialSegment.isCompleted (Segment.parts segment)))
              ++ newline ++ "segment?msn=" ++ Number_toString media_sequence ++ newline
         else EmptyString))%string.

Fixpoint Playlist_segments (media_sequence : Z) (segments : list Segment.t) : string :=
  match segments with
  | [] => EmptyString
  | segment :: segments' =>
      (Playlist_segment media_sequence segment
         ++ Playlist_segments (media_sequence + 1) segments')%string
  end.

Definition Playlist_header (this : TSFragmenter) (targetDuration : Z) : string :=
  ("#EXTM3U" ++ newline
     ++ "#EXT-X-VERSION:6" ++ newline
     ++ "#EXT-X-TARGETDURATION:" ++ Number_toString targetDuration ++ newline
     ++ "#EXT-X-PART-INF:PART-TARGET=" ++ toFixed3 (M3U8_Part_Target this) ++ newline
     ++ "#EXT-X-SERVER-CONTROL:CAN-BLOCK-RELOAD=YES,PART-HOLD-BACK="
     ++ toFixed3 (M3U8_Part_Target this * 3) ++ newline
     ++ "#EXT-X-MEDIA-SEQUENCE:"
     ++ Number_toString (M3U8_Begin_Sequence_Number this) ++ newline)%string.

(** ** The mutations of the window *)

(** What the ingestion and the registrations do to the window, one
    mutation at a time, with the callbacks the mutation fires and the
    callbacks it registers: a change of the other fields, a packet
    appended to the last segment and its last partial, a part cut, a
    new segment (behind the sealing of the last one and before the
    eviction of the oldest one), a registration on a segment or on a
    partial. *)
Inductive Mutation : TSFragmenter -> TSFragmenter -> list Callback -> list Callback -> Prop :=
| Mut_fields : forall s s',
    same_window s s' ->
    M3U8_Segments_Length s' = M3U8_Segments_Length s ->
    M3U8_Part_Target s' = M3U8_Part_Target s ->
    Mutation s s' [] []
| Mut_packet : forall s init lastS pinit lastP pkt,
    M3U8_Segments s = init ++ [lastS] ->
    Segment.parts lastS = pinit ++ [lastP] ->
    Mutation s
      (set_M3U8_Segments s
         (init ++ [Segment.mk (PartialSegment.addPacket (Segment.base lastS) pkt)
                     (pinit ++ [PartialSegment.addPacket lastP pkt])
                     (Segment.programDateTime lastS)]))
      [] []
| Mut_cut : forall s init lastS pinit lastP pts,
    M3U8_Segments s = init ++ [lastS] ->
    Segment.parts lastS = pinit ++ [lastP] ->
    PTS_domain pts ->
    (M3U8_Part_Target s * (85 # 100) < PartialSegment.estimateSeconds lastP pts)%Q ->
    (PartialSegment.estimateSeconds lastP pts <= M3U8_Part_Target s)%Q ->
    Mutation s
      (set_M3U8_Segments s
         (init ++ [Segment.mk (Segment.base lastS)
                     (pinit ++ [fst (PartialSegment.complete lastP pts);
                                PartialSegment.new pts None])
                     (Segment.programDateTime lastS)]))
      (PartialSegment.complete_callbacks lastP) []
| Mut_first : forall s pts now,
    M3U8_Segments s = [] ->
    PTS_domain pts ->
    Mutation s
      (M3U8_Evict
         (set_M3U8 s (M3U8_Begin_Sequence_Number s) (M3U8_End_Sequence_Number s + 1)
            [Segment.new pts (Some true) now]))
      [] []
| Mut_next : forall s init lastS pinit lastP pts now,
    M3U8_Segments s = init ++ [lastS] ->
    Segment.parts lastS = pinit ++ [lastP] ->
    PTS_domain pts ->
    Mutation s
      (M3U8_Evict
         (set_M3U8 s (M3U8_Begin_Sequence_Number s) (M3U8_End_Sequence_Number s + 1)
            (init ++ [Segment.mk (fst (PartialSegment.complete (Segment.base lastS) pts))
                        (pinit ++ [fst (PartialSegment.complete lastP pts)])
                        (Segment.programDateTime lastS);
                      Segment.new pts (Some true) now])))
      (PartialSegment.complete_callbacks (Segment.base lastS)
         ++ PartialSegment.complete_callbacks lastP) []
| Mut_segment_callback : forall s init seg rest cb,
    M3U8_Segments s = init ++ seg :: rest ->
    Mutation s
      (set_M3U8_Segments s (init ++ Segment.addCallback seg cb :: rest))
      [] [cb]
| Mut_partial_callback : forall s init seg rest pinit p prest cb,
    M3U8_Segments s = init ++ seg :: rest ->
    Segment.parts seg = pinit ++ p :: prest ->
    Mutation s
      (set_M3U8_Segments s
         (init ++ Segment.mk (Segment.base seg)
                    (pinit ++ PartialSegment.addCallback p cb :: prest)
                    (Segment.programDateTime seg) :: rest))
      [] [cb].

(** A sequence of mutations through well-formed states. *)
Inductive Mutations : TSFragmenter -> TSFragmenter -> list Callback -> list Callback -> Prop :=
| Mutations_nil : forall s, WF s -> Mutations s s [] []
| Mutations_cons : forall s s1 s2 f1 f2 r1 r2,
    WF s -> Mutation s s1 f1 r1 -> Mutations s1 s2 f2 r2 ->
    Mutations s s2 (f1 ++ f2) (r1 ++ r2).

(** ** The shape of the segments *)

(** All the bytes a partial holds, the sealed ones and the pending
    ones. *)
Definition Partial_bytes (p : PartialSegment.t) : Buffer :=
  PartialSegment.completed p ++ List.concat (PartialSegment.retains p).

(** A sealed partial has no pending data. *)
Definition Flushed (p : PartialSegment.t) : Prop :=
  PartialSegment.isCompleted p = true -> PartialSegment.retains p = [].

(** Each element ends where the next one begins. *)
Fixpoint Chained (l : list PartialSegment.t) : Prop :=
  match l with
  | [] => True
  | p :: l' =>
      match l' with
      | [] => True
      | q :: _ =>
          PartialSegment.endPTS p = Some (PartialSegment.beginPTS q) /\ Chained l'
      end
  end.

(** The first element satisfies [P], every other one [R]. *)
Definition Forall_first {A : Type} (P R : A -> Prop) (l : list A) : Prop :=
  match l with
  | [] => True
  | x :: l' => P x /\ Forall R l'
  end.

(** A duration above 85 % of the part target and not above the part
    target. *)
Definition Paced (T : Q) (p : PartialSegment.t) : Prop :=
  exists seconds,
    PartialSegment.getSeconds p = Some seconds
    /\ (T * (85 # 100) < seconds)%Q /\ (seconds <= T)%Q.

Record Segment_sound (T : Q) (seg : Segment.t) : Prop := mkSegment_sound {
  SS_bytes : Partial_bytes (Segment.base seg)
             = List.concat (map Partial_bytes (Segment.parts seg));
  SS_flushed : Forall Flushed (Segment.base seg :: Segment.parts seg);
  SS_key : PartialSegment.hasIFrame (Segment.base seg) = true;
  SS_first : Forall_first
               (fun p => PartialSegment.beginPTS p
                         = PartialSegment.beginPTS (Segment.base seg)
                         /\ PartialSegment.hasIFrame p = true)
               (fun p => PartialSegment.hasIFrame p = false)
               (Segment.parts seg);
  SS_chained : Chained (Segment.parts seg);
  SS_end : PartialSegment.isCompleted (Segment.base seg) = true ->
           Forall_last (fun _ => True)
             (fun p => PartialSegment.endPTS p = PartialSegment.endPTS (Segment.base seg))
             (Segment.parts seg);
  SS_paced : Forall_last (Paced T) (fun _ => True) (Segment.parts seg)
}.

Record Sound (s : TSFragmenter) : Prop := mkSound {
  Sound_segments : Forall (Segment_sound (M3U8_Part_Target s)) (M3U8_Segments s);
  Sound_chain : Chained (map Segment.base (M3U8_Segments s))
}.

(** ** What later calls leave as it is *)

(** The same partial, but for its callbacks. *)
Definition same_content (p p' : PartialSegment.t) : Prop :=
  PartialSegment.beginPTS p' = PartialSegment.beginPTS p
  /\ PartialSegment.endPTS p' = PartialSegment.endPTS p
  /\ PartialSegment.hasIFrame p' = PartialSegment.hasIFrame p
  /\ PartialSegment.completed p' = PartialSegment.completed p
  /\ PartialSegment.retains p' = PartialSegment.retains p.

(** A partial keeps its begin PTS and its flag, and its content once it
    is sealed. *)
Definition Partial_keeps (p p' : PartialSegment.t) : Prop :=
  PartialSegment.beginPTS p' = PartialSegment.beginPTS p
  /\ PartialSegment.hasIFrame p' = PartialSegment.hasIFrame p
  /\ (PartialSegment.isCompleted p = true -> same_content p p').

(** A segment keeps its date and its partials, and its number of
    partials once it is sealed. *)
Definition Segment_keeps (seg seg' : Segment.t) : Prop :=
  Segment.programDateTime seg' = Segment.programDateTime seg
  /\ Partial_keeps (Segment.base seg) (Segment.base seg')
  /\ (forall i p, Segment.getPartial seg i = Some p ->
                  exists p', Segment.getPartial seg' i = Some p' /\ Partial_keeps p p')
  /\ (Segment.isCompleted seg = true ->
      Segment.getLength seg' = Segment.getLength seg).

Record Keeps (s s' : TSFragmenter) : Prop := mkKeeps {
  Keeps_begin : M3U8_Begin_Sequence_Number s <= M3U8_Begin_Sequence_Number s';
  Keeps_end : M3U8_End_Sequence_Number s <= M3U8_End_Sequence_Number s';
  Keeps_segments : forall i seg,
      array_get (M3U8_Segments s) (i - M3U8_Begin_Sequence_Number s) = Some seg ->
      M3U8_Begin_Sequence_Number s' <= i ->
      exists seg',
        array_get (M3U8_Segments s') (i - M3U8_Begin_Sequence_Number s') = Some seg'
        /\ Segment_keeps seg seg'
}.

(** ** Callbacks that can still fire *)

(** The registrations of [c] on an object that is not sealed. *)
Definition Armed (c : Callback) (p : PartialSegment.t) : nat :=
  if PartialSegment.isCompleted p then 0%nat else Partial_count c p.

Definition Segment_armed (c : Callback) (seg : Segment.t) : nat :=
  (Armed c (Segment.base seg) + list_sum (map (Armed c) (Segment.parts seg)))%nat.

Definition Window_armed (c : Callback) (s : TSFragmenter) : nat :=
  list_sum (map (Segment_armed c) (M3U8_Segments s)).

(** The callback [c] waits on the last segment of the window, whose
    MSN is [msn], and on no other open object. *)
Definition Segment_pending (c : Callback) (s : TSFragmenter) (msn : Z) : Prop :=
  msn = M3U8_End_Sequence_Number s - 1
  /\ (exists init lastS,
         M3U8_Segments s = init ++ [lastS]
         /\ Partial_count c (Segment.base lastS) = 1%nat)
  /\ Window_armed c s = 1%nat.

(** The segment [msn] is behind the last one and [c] waits nowhere. *)
Definition Segment_done (c : Callback) (s : TSFragmenter) (msn : Z) : Prop :=
  msn < M3U8_End_Sequence_Number s - 1 /\ Window_armed c s = 0%nat.

(** ** The packets a new segment begins with *)

Section Preamble.

Context {lib : Collaborators}.

(** The cached PAT, packetized as [M3U8_Add_PAT] does it. *)
Definition PAT_packets (this : TSFragmenter) (PAT : Buffer) : list Buffer :=
  TSSectionPacketizer_packetize PAT
    (Packet_TransportErrorIndicator this)
    (Packet_TransportPriority this)
    0
    (Packet_TransportScramblingControl this)
    (PAT_Continuous_Counter this).

(** The cached PMT, packetized as [M3U8_Add_PMT] does it: nothing when
    no PMT PID is bound, or the PID 0. *)
Definition PMT_packets (this : TSFragmenter) (PMT : Buffer) : list Buffer :=
  match PAT_TargetPMTPid this with
  | None => []
  | Some pmtPid =>
      if pmtPid =? 0 then []
      else
        TSSectionPacketizer_packetize PMT
          (Packet_TransportErrorIndicator this)
          (Packet_TransportPriority this)
          pmtPid
          (Packet_TransportScramblingControl this)
          (PMT_Continuous_Counter this)
  end.

End Preamble.


(** * Properties *)

(** ** The effect monad *)

Lemma bind_ret_l {A B : Type} (x : A) (k : A -> Eff B) : bind (ret x) k = k x.
Proof. unfold bind, ret. destruct (k x) as [[y f]|]; reflexivity. Qed.


Lemma bind_assoc {A B C : Type} (c : Eff A) (k1 : A -> Eff B) (k2 : B -> Eff C) :
  bind (bind c k1) k2 = bind c (fun x => bind (k1 x) k2).
Proof.
  unfold bind. destruct c as [[x f]|]; [|reflexivity].
  destruct (k1 x) as [[y f1]|]; [|reflexivity].
  destruct (k2 y) as [[z f2]|]; [|reflexivity].
  now rewrite app_assoc.
Qed.

Lemma bind_ext {A B : Type} (c : Eff A) (k k' : A -> Eff B) :
  (forall x, k x = k' x) -> bind c k = bind c k'.
Proof. intros H. unfold bind. destruct c as [[x f]|]; [|reflexivity]. now rewrite H. Qed.

Lemma bind_lift_Some {A B : Type} (x : A) (k : A -> Eff B) :
  bind (lift (Some x)) k = k x.
Proof. apply bind_ret_l. Qed.

Lemma bind_Some {A B : Type} (c : Eff A) (k : A -> Eff B) (x : A) (y : B)
    (f f' : list Callback) :
  c = Some (x, f) -> k x = Some (y, f') -> bind c k = Some (y, f ++ f').
Proof. intros -> H. unfold bind. now rewrite H. Qed.

(** ** Arrays *)

Lemma array_get_last {A : Type} (init : list A) (x : A) :
  array_get (init ++ [x]) (array_length (init ++ [x]) - 1) = Some x.
Proof.
  unfold array_get, array_length. rewrite length_app. simpl.
  destruct (Z.ltb_spec (Z.of_nat (List.length init + 1) - 1) 0); [lia|].
  replace (Z.to_nat (Z.of_nat (List.length init + 1) - 1)) with (List.length init) by lia.
  rewrite nth_error_app2 by lia. now rewrite Nat.sub_diag.
Qed.

Lemma array_set_app {A : Type} (init : list A) (x y : A) (rest : list A) :
  array_set (init ++ x :: rest) (List.length init) y = init ++ y :: rest.
Proof. induction init as [|z init IH]; simpl; [reflexivity | now rewrite IH]. Qed.

Lemma array_set_last {A : Type} (init : list A) (x y : A) :
  array_set (init ++ [x]) (Z.to_nat (array_length (init ++ [x]) - 1)) y = init ++ [y].
Proof.
  unfold array_length. rewrite length_app. simpl.
  replace (Z.to_nat (Z.of_nat (List.length init + 1) - 1)) with (List.length init) by lia.
  apply array_set_app.
Qed.

Lemma array_get_split {A : Type} (a : list A) (i : Z) (x : A) :
  array_get a i = Some x ->
  exists init rest, a = init ++ x :: rest /\ Z.to_nat i = List.length init /\ 0 <= i.
Proof.
  unfold array_get. destruct (Z.ltb_spec i 0); [discriminate|]. intros E.
  apply nth_error_split in E. destruct E as (init & rest & -> & E).
  exists init, rest. repeat split; auto.
Qed.

Lemma array_get_in_range {A : Type} (a : list A) (i : Z) :
  0 <= i < array_length a -> exists x, array_get a i = Some x.
Proof.
  unfold array_get, array_length. intros H.
  destruct (Z.ltb_spec i 0); [lia|].
  destruct (nth_error a (Z.to_nat i)) eqn:E; [eauto|].
  apply nth_error_None in E. lia.
Qed.

Lemma array_length_app {A : Type} (a b : list A) :
  array_length (a ++ b) = array_length a + array_length b.
Proof. unfold array_length. rewrite length_app. lia. Qed.

Lemma list_last_split {A : Type} (l : list A) :
  l <> [] -> exists init x, l = init ++ [x].
Proof. intros H. destruct (exists_last H) as (init & x & ->). eauto. Qed.

(** ** Forall_last *)

Lemma Forall_last_app {A : Type} (P Q : A -> Prop) (init : list A) (x : A) :
  Forall_last P Q (init ++ [x]) <-> Forall P init /\ Q x.
Proof.
  induction init as [|y init IH]; simpl.
  - split; [intros H; split; [constructor | exact H] | intros [_ H]; exact H].
  - destruct (init ++ [x]) eqn:E.
    + destruct init; discriminate.
    + rewrite IH. split.
      * intros (Hy & Hi & Hx). split; [constructor|]; assumption.
      * intros (Hyi & Hx). inversion Hyi; subst. tauto.
Qed.

Lemma Forall_last_set {A : Type} (P Q : A -> Prop) (init rest : list A) (x y : A) :
  (P x -> P y) -> (Q x -> Q y) ->
  Forall_last P Q (init ++ x :: rest) -> Forall_last P Q (init ++ y :: rest).
Proof.
  intros HP HQ. induction init as [|z init IH]; simpl.
  - destruct rest; [exact HQ | intros [H1 H2]; split; auto].
  - destruct (init ++ x :: rest) eqn:E1; [destruct init; discriminate|].
    destruct (init ++ y :: rest) eqn:E2; [destruct init; discriminate|].
    intros [H1 H2]. split; auto.
Qed.

(** ** Comparisons of seconds *)

Lemma Qlt_bool_iff (x y : Q) : Qlt_bool x y = true <-> (x < y)%Q.
Proof.
  unfold Qlt_bool. rewrite negb_true_iff. split.
  - intros H. apply Qnot_le_lt. intros L. apply Qle_bool_iff in L. congruence.
  - intros H. destruct (Qle_bool y x) eqn:E; [|reflexivity].
    apply Qle_bool_iff in E. exfalso. exact (Qlt_not_le _ _ H E).
Qed.

(** ** PartialSegment *)

Lemma pending_completed (ops : list PendingOp) (p : PartialSegment.t) :
  PartialSegment.completed (fold_left pending ops p) = PartialSegment.completed p.
Proof.
  revert p. induction ops as [|op ops IH]; intros p; simpl; [reflexivity|].
  rewrite IH. now destruct op.
Qed.

Lemma pending_endPTS (ops : list PendingOp) (p : PartialSegment.t) :
  PartialSegment.endPTS (fold_left pending ops p) = PartialSegment.endPTS p.
Proof.
  revert p. induction ops as [|op ops IH]; intros p; simpl; [reflexivity|].
  rewrite IH. now destruct op.
Qed.

Lemma pending_retains (ops : list PendingOp) (p : PartialSegment.t) :
  PartialSegment.retains (fold_left pending ops p)
  = PartialSegment.retains p ++ appended ops.
Proof.
  revert p. induction ops as [|op ops IH]; intros p; simpl.
  - now rewrite app_nil_r.
  - rewrite IH. destruct op; simpl; [now rewrite <- app_assoc | reflexivity].
Qed.

Lemma pending_callbacks (ops : list PendingOp) (p : PartialSegment.t) :
  PartialSegment.complete_callbacks (fold_left pending ops p)
  = PartialSegment.complete_callbacks p ++ registered ops.
Proof.
  revert p. induction ops as [|op ops IH]; intros p; simpl.
  - now rewrite app_nil_r.
  - rewrite IH. destruct op; simpl; [reflexivity | now rewrite <- app_assoc].
Qed.

(** C2. A fresh partial that receives any sequence of appended chunks and
    registered callbacks has an empty buffer while unsealed; sealing it
    with any end PTS makes the buffer the concatenation, in order, of
    exactly the chunks appended before, invokes exactly the callbacks
    registered before, each once and in registration order, and leaves
    the callback list empty; chunks appended afterwards do not reach the
    buffer. *)
Theorem partial_seal_buffer_and_callbacks :
  forall (beginPTS : Z) (hasIFrame : option bool) (ops later : list PendingOp) (e : Z),
    let this := fold_left pending ops (PartialSegment.new beginPTS hasIFrame) in
    let sealed := fst (PartialSegment.complete this e) in
    let fired := snd (PartialSegment.complete this e) in
    PartialSegment.isCompleted this = false
    /\ PartialSegment.getBuffer this = []
    /\ PartialSegment.isCompleted sealed = true
    /\ PartialSegment.getBuffer sealed = List.concat (appended ops)
    /\ fired = registered ops
    /\ PartialSegment.complete_callbacks sealed = []
    /\ PartialSegment.getBuffer (fold_left pending later sealed)
       = List.concat (appended ops).
Proof.
  intros beginPTS hasIFrame ops later e this sealed fired.
  assert (Hc : PartialSegment.completed this = []).
  { unfold this. now rewrite pending_completed. }
  assert (Hr : PartialSegment.retains this = appended ops).
  { unfold this. now rewrite pending_retains. }
  assert (Hb : PartialSegment.getBuffer sealed = List.concat (appended ops)).
  { unfold sealed, PartialSegment.getBuffer. simpl. now rewrite Hc, Hr. }
  repeat split.
  - unfold PartialSegment.isCompleted, this. now rewrite pending_endPTS.
  - exact Hc.
  - exact Hb.
  - unfold fired, this. simpl. now rewrite pending_callbacks.
  - unfold PartialSegment.getBuffer. rewrite pending_completed. exact Hb.
Qed.

Lemma PTS_rem_mod (b e : Z) :
  PTS_domain b -> PTS_domain e ->
  Z.rem (e - b + 2 ^ 33) (2 ^ 33) = (e - b + 2 ^ 33) mod 2 ^ 33.
Proof. unfold PTS_domain. intros Hb He. apply Z.rem_mod_nonneg; lia. Qed.

(** C3. A sealed partial whose begin PTS [b] and end PTS [e] lie in the
    33-bit domain lasts ((e - b + 2^33) mod 2^33) / 90000 seconds. *)
Theorem partial_seconds_wraparound :
  forall (this : PartialSegment.t) (b e : Z),
    PartialSegment.beginPTS this = b ->
    PartialSegment.endPTS this = Some e ->
    0 <= b < 2 ^ 33 ->
    0 <= e < 2 ^ 33 ->
    PartialSegment.getSeconds this = Some (((e - b + 2 ^ 33) mod 2 ^ 33) # 90000).
Proof.
  intros this b e Hb He Db De. unfold PartialSegment.getSeconds.
  rewrite He, Hb. now rewrite PTS_rem_mod.
Qed.

(** A partial that begins 10 ticks before the wrap and ends 5 ticks
    after it lasts 15/90000 s. *)
Lemma partial_seconds_wraparound_witness :
  PartialSegment.getSeconds
    (fst (PartialSegment.complete (PartialSegment.new (2 ^ 33 - 10) None) 5))
  = Some (15 # 90000).
Proof.
  refine (partial_seconds_wraparound
            (fst (PartialSegment.complete (PartialSegment.new (2 ^ 33 - 10) None) 5))
            (2 ^ 33 - 10) 5 eq_refl eq_refl _ _); lia.
Defined.

(** ** Segments *)

Lemma Partial_sealed_complete (p : PartialSegment.t) (e : Z) :
  Partial_inv p -> Partial_sealed (fst (PartialSegment.complete p e)).
Proof.
  intros [Hd _]. split; [split|]; simpl; [exact Hd | discriminate | reflexivity].
Qed.

Lemma Partial_open_new (b : Z) (h : option bool) :
  PTS_domain b -> Partial_open (PartialSegment.new b h).
Proof. intros Hb. split; [split|]; simpl; auto. Qed.

Lemma Segment_open_view (s : Segment.t) :
  Segment_open s ->
  exists pinit lastP,
    Segment.parts s = pinit ++ [lastP]
    /\ Forall Partial_sealed pinit /\ Partial_open lastP.
Proof.
  intros (_ & Hne & Hfl). destruct (list_last_split _ Hne) as (pinit & lastP & E).
  rewrite E in Hfl. apply Forall_last_app in Hfl. exists pinit, lastP. tauto.
Qed.

Lemma Segment_open_intro (b : PartialSegment.t) (pinit : list PartialSegment.t)
    (lastP : PartialSegment.t) (d : string) :
  Partial_open b -> Forall Partial_sealed pinit -> Partial_open lastP ->
  Segment_open (Segment.mk b (pinit ++ [lastP]) d).
Proof.
  intros Hb Hi Hl. split; [exact Hb|]. split; simpl.
  - destruct pinit; discriminate.
  - apply Forall_last_app. tauto.
Qed.

Lemma Segment_addPacket_open (s : Segment.t) (pinit : list PartialSegment.t)
    (lastP : PartialSegment.t) (pkt : Buffer) :
  Segment.parts s = pinit ++ [lastP] ->
  Segment.addPacket s pkt
  = Some (Segment.mk (PartialSegment.addPacket (Segment.base s) pkt)
            (pinit ++ [PartialSegment.addPacket lastP pkt])
            (Segment.programDateTime s)).
Proof.
  intros E. unfold Segment.addPacket. rewrite E, array_get_last, array_set_last.
  reflexivity.
Qed.

Lemma Segment_completePartial_open (s : Segment.t) (pinit : list PartialSegment.t)
    (lastP : PartialSegment.t) (e : Z) :
  Segment.parts s = pinit ++ [lastP] ->
  Segment.completePartial s e
  = (Segment.mk (Segment.base s)
       (pinit ++ [fst (PartialSegment.complete lastP e)])
       (Segment.programDateTime s),
     PartialSegment.complete_callbacks lastP).
Proof.
  intros E. unfold Segment.completePartial. rewrite E.
  destruct (Z.eqb_spec (array_length (pinit ++ [lastP])) 0) as [H|_].
  - rewrite array_length_app in H. unfold array_length in H. simpl in H. lia.
  - rewrite array_get_last. unfold PartialSegment.complete. cbv iota beta.
    rewrite array_set_last. reflexivity.
Qed.

Lemma Segment_complete_open (s : Segment.t) (pinit : list PartialSegment.t)
    (lastP : PartialSegment.t) (e : Z) :
  Segment.parts s = pinit ++ [lastP] ->
  Segment.complete s e
  = (Segment.mk (fst (PartialSegment.complete (Segment.base s) e))
       (pinit ++ [fst (PartialSegment.complete lastP e)])
       (Segment.programDateTime s),
     PartialSegment.complete_callbacks (Segment.base s)
       ++ PartialSegment.complete_callbacks lastP).
Proof.
  intros E. unfold Segment.complete. simpl.
  rewrite (Segment_completePartial_open _ pinit lastP e) by exact E.
  reflexivity.
Qed.

Lemma Segment_sealed_complete (s : Segment.t) (e : Z) :
  Segment_open s -> Segment_sealed (fst (Segment.complete s e)).
Proof.
  intros Ho. destruct (Segment_open_view s Ho) as (pinit & lastP & E & Hi & Hl).
  rewrite (Segment_complete_open s pinit lastP e E). simpl.
  destruct Ho as (Hb & _ & _). split; [|split]; simpl.
  - apply Partial_sealed_complete, Hb.
  - destruct pinit; discriminate.
  - apply Forall_app. split; [exact Hi|]. constructor; [|constructor].
    apply Partial_sealed_complete, Hl.
Qed.

Lemma Segment_open_new (b : Z) (h : option bool) (now : string) :
  PTS_domain b -> Segment_open (Segment.new b h now).
Proof.
  intros Hb. unfold Segment.new. simpl.
  apply (Segment_open_intro _ [] _ now); auto using Partial_open_new.
Qed.

(** ** Well-formed windows *)

Lemma array_get_app_l {A : Type} (init rest : list A) (i : Z) :
  i < array_length init -> array_get (init ++ rest) i = array_get init i.
Proof.
  unfold array_get, array_length. intros H.
  destruct (Z.ltb_spec i 0); [reflexivity|]. apply nth_error_app1. lia.
Qed.

Lemma array_get_app_r {A : Type} (init rest : list A) (i : Z) :
  array_length init <= i ->
  array_get (init ++ rest) i = array_get rest (i - array_length init).
Proof.
  unfold array_get, array_length. intros H.
  destruct (Z.ltb_spec i 0); [lia|].
  destruct (Z.ltb_spec (i - Z.of_nat (List.length init)) 0); [lia|].
  rewrite nth_error_app2 by lia. f_equal. lia.
Qed.

Lemma array_get_tl {A : Type} (a : list A) (i : Z) :
  0 <= i -> array_get (tl a) i = array_get a (i + 1).
Proof.
  unfold array_get. intros H.
  destruct (Z.ltb_spec i 0); [lia|]. destruct (Z.ltb_spec (i + 1) 0); [lia|].
  replace (Z.to_nat (i + 1)) with (S (Z.to_nat i)) by lia.
  destruct a; simpl; [now destruct (Z.to_nat i)|reflexivity].
Qed.

Lemma array_get_Forall {A : Type} (P : A -> Prop) (a : list A) (i : Z) (x : A) :
  Forall P a -> array_get a i = Some x -> P x.
Proof.
  unfold array_get. intros H E. destruct (i <? 0); [discriminate|].
  apply nth_error_In in E. rewrite Forall_forall in H. auto.
Qed.

Lemma array_get_bounds {A : Type} (a : list A) (i : Z) (x : A) :
  array_get a i = Some x -> 0 <= i < array_length a.
Proof.
  unfold array_get, array_length. destruct (Z.ltb_spec i 0); [discriminate|].
  intros E. assert (nth_error a (Z.to_nat i) <> None) by congruence.
  apply nth_error_Some in H0. lia.
Qed.

Lemma WF_new (options : option TSFragmenterOptions.t) : WF (new_TSFragmenter options).
Proof.
  constructor; simpl; try reflexivity; try lia.
Qed.

(** A state whose window is not empty ends with an open segment that
    ends with an open partial. *)
Lemma WF_view (this : TSFragmenter) :
  WF this ->
  0 < M3U8_End_Sequence_Number this - M3U8_Begin_Sequence_Number this ->
  exists init lastS pinit lastP,
    M3U8_Segments this = init ++ [lastS]
    /\ Segment.parts lastS = pinit ++ [lastP]
    /\ Forall Segment_sealed init
    /\ Partial_open (Segment.base lastS)
    /\ Forall Partial_sealed pinit
    /\ Partial_open lastP
    /\ array_length init
       = M3U8_End_Sequence_Number this - M3U8_Begin_Sequence_Number this - 1.
Proof.
  intros W Hs. destruct W as [_ Hsize _ Hw _ _ _].
  assert (Hne : M3U8_Segments this <> []).
  { intros E. rewrite E in Hsize. unfold array_length in Hsize. simpl in Hsize. lia. }
  destruct (list_last_split _ Hne) as (init & lastS & E).
  rewrite E in Hw. apply Forall_last_app in Hw. destruct Hw as [Hi Ho].
  destruct (Segment_open_view _ Ho) as (pinit & lastP & Ep & Hpi & Hpl).
  exists init, lastS, pinit, lastP.
  destruct Ho as (Hb & _ & _).
  split; [exact E|]. split; [exact Ep|]. split; [exact Hi|]. split; [exact Hb|].
  split; [exact Hpi|]. split; [exact Hpl|].
  rewrite E, array_length_app in Hsize. unfold array_length in *. simpl in Hsize. lia.
Qed.

(** ** Counting registrations *)

Lemma fired_count_app (c : Callback) (a b : list Callback) :
  fired_count c (a ++ b) = (fired_count c a + fired_count c b)%nat.
Proof. apply count_occ_app. Qed.

Lemma Segments_count_app (c : Callback) (a b : list Segment.t) :
  Segments_count c (a ++ b) = (Segments_count c a + Segments_count c b)%nat.
Proof. unfold Segments_count. now rewrite map_app, list_sum_app. Qed.

Lemma Segments_count_tl (c : Callback) (a : list Segment.t) :
  (Segments_count c (tl a) <= Segments_count c a)%nat.
Proof. destruct a; unfold Segments_count; simpl; lia. Qed.

Lemma Parts_count_app (c : Callback) (a b : list PartialSegment.t) :
  list_sum (map (Partial_count c) (a ++ b))
  = (list_sum (map (Partial_count c) a) + list_sum (map (Partial_count c) b))%nat.
Proof. now rewrite map_app, list_sum_app. Qed.

Lemma Partial_count_addPacket (c : Callback) (p : PartialSegment.t) (pkt : Buffer) :
  Partial_count c (PartialSegment.addPacket p pkt) = Partial_count c p.
Proof. reflexivity. Qed.

(** ** Looking a partial up *)

Lemma lookup_in_app_l (init rest : list Segment.t) (i part : Z) :
  i < array_length init -> lookup_in (init ++ rest) i part = lookup_in init i part.
Proof. intros H. unfold lookup_in. now rewrite array_get_app_l. Qed.

Lemma lookup_in_last (init : list Segment.t) (x : Segment.t) (part : Z) :
  lookup_in (init ++ [x]) (array_length init) part = Segment.getPartial x part.
Proof.
  unfold lookup_in. rewrite array_get_app_r by lia. now rewrite Z.sub_diag.
Qed.

Lemma lookup_in_bounds (segments : list Segment.t) (i part : Z) (p : PartialSegment.t) :
  lookup_in segments i part = Some p -> 0 <= i < array_length segments.
Proof.
  unfold lookup_in. destruct (array_get segments i) eqn:E; [|discriminate].
  intros _. eapply array_get_bounds, E.
Qed.

Lemma lookup_in_snoc_cases (init : list Segment.t) (x : Segment.t) (i part : Z)
    (p : PartialSegment.t) :
  lookup_in (init ++ [x]) i part = Some p ->
  (i < array_length init /\ lookup_in init i part = Some p)
  \/ (i = array_length init /\ Segment.getPartial x part = Some p).
Proof.
  intros H. pose proof (lookup_in_bounds _ _ _ _ H) as B.
  rewrite array_length_app in B. unfold array_length in B at 2. simpl in B.
  destruct (Z.lt_ge_cases i (array_length init)) as [L|G].
  - left. split; [exact L|]. now rewrite lookup_in_app_l in H.
  - right. assert (i = array_length init) by lia. subst i.
    split; [reflexivity|]. now rewrite lookup_in_last in H.
Qed.

Lemma lookup_partial_in (this : TSFragmenter) (msn part : Z) (p : PartialSegment.t) :
  lookup_partial this msn part = Some p ->
  M3U8_Begin_Sequence_Number this <= msn < M3U8_End_Sequence_Number this
  /\ lookup_in (M3U8_Segments this) (msn - M3U8_Begin_Sequence_Number this) part = Some p.
Proof.
  unfold lookup_partial, M3U8_Get_Segment, inRangeSegment, lookup_in.
  destruct (Z.ltb_spec msn (M3U8_Begin_Sequence_Number this)); simpl; [discriminate|].
  destruct (Z.leb_spec (M3U8_End_Sequence_Number this) msn); simpl; [discriminate|].
  intros E. split; [lia | exact E].
Qed.

Lemma lookup_partial_out (this : TSFragmenter) (msn part : Z) :
  M3U8_Begin_Sequence_Number this <= msn < M3U8_End_Sequence_Number this ->
  lookup_partial this msn part
  = lookup_in (M3U8_Segments this) (msn - M3U8_Begin_Sequence_Number this) part.
Proof.
  intros H. unfold lookup_partial, M3U8_Get_Segment, inRangeSegment, lookup_in.
  destruct (Z.ltb_spec msn (M3U8_Begin_Sequence_Number this)); simpl; [lia|].
  destruct (Z.leb_spec (M3U8_End_Sequence_Number this) msn); simpl; [lia|].
  reflexivity.
Qed.

(** ** Evolution of the array of segments *)

Lemma Array_evolves_refl (c : Callback) (segments : list Segment.t) :
  Array_evolves c segments segments [].
Proof.
  constructor.
  - simpl. lia.
  - intros i part p H1 H2. eauto.
  - intros i part p H1 H2. exists p. split; [exact H1|]. left. auto.
Qed.

(** Only the last partial of the last segment changes: it receives
    data, or it is sealed and followed by new partials. *)
Lemma Array_evolves_replace_last (c : Callback) (init : list Segment.t)
    (lastS lastS' : Segment.t) (pinit rest' : list PartialSegment.t)
    (lastP lastP' : PartialSegment.t) (fired : list Callback) :
  Segment.parts lastS = pinit ++ [lastP] ->
  Segment.parts lastS' = pinit ++ lastP' :: rest' ->
  PartialSegment.isCompleted lastP = false ->
  (PartialSegment.isCompleted lastP' = false
   /\ Partial_count c lastP' = Partial_count c lastP)
  \/ (PartialSegment.isCompleted lastP' = true
      /\ (Partial_count c lastP <= fired_count c fired)%nat) ->
  (fired_count c fired + Segment_count c lastS' <= Segment_count c lastS)%nat ->
  Array_evolves c (init ++ [lastS]) (init ++ [lastS']) fired.
Proof.
  intros E E' Ho Hl Hc.
  assert (Hsame : forall i part p,
             lookup_in (init ++ [lastS]) i part = Some p ->
             lookup_in (init ++ [lastS']) i part = Some p
             \/ (p = lastP /\ lookup_in (init ++ [lastS']) i part = Some lastP')).
  { intros i part p H. apply lookup_in_snoc_cases in H.
    destruct H as [[L H]|[-> H]].
    - left. now rewrite lookup_in_app_l.
    - rewrite lookup_in_last. unfold Segment.getPartial in *. rewrite E in H. rewrite E'.
      pose proof (array_get_bounds _ _ _ H) as B.
      rewrite array_length_app in B. unfold array_length in B at 2. simpl in B.
      destruct (Z.lt_ge_cases part (array_length pinit)) as [L|G].
      + left. rewrite array_get_app_l in * by assumption. exact H.
      + right. assert (part = array_length pinit) by lia. subst part.
        rewrite array_get_app_r in H by lia. rewrite array_get_app_r by lia.
        rewrite Z.sub_diag in *. cbn in H. cbn. split; congruence. }
  constructor.
  - rewrite !Segments_count_app. unfold Segments_count at 2 4. simpl. lia.
  - intros i part p H1 H2. destruct (Hsame _ _ _ H1) as [H|[-> H]]; [eauto|congruence].
  - intros i part p H1 H2. destruct (Hsame _ _ _ H1) as [H|[-> H]].
    + exists p. split; [exact H|]. left. auto.
    + exists lastP'. split; [exact H|]. exact Hl.
Qed.

(** ** Evolution of the state *)

Lemma Evolves_of_array (c : Callback) (s s' : TSFragmenter) (fired : list Callback) :
  M3U8_Begin_Sequence_Number s' = M3U8_Begin_Sequence_Number s ->
  M3U8_End_Sequence_Number s' = M3U8_End_Sequence_Number s ->
  Array_evolves c (M3U8_Segments s) (M3U8_Segments s') fired ->
  Evolves c s s' fired.
Proof.
  intros Hb He [Hc Hs Ho]. constructor.
  - exact Hc.
  - intros msn part [H|(p & H1 & H2)].
    + left. lia.
    + apply lookup_partial_in in H1. destruct H1 as [R H1].
      destruct (Hs _ _ _ H1 H2) as (p' & H3 & H4).
      right. exists p'. split; [|exact H4].
      rewrite lookup_partial_out by lia. now rewrite Hb.
  - intros msn part k (p & H1 & H2 & H3).
    apply lookup_partial_in in H1. destruct H1 as [R H1].
    destruct (Ho _ _ _ H1 H2) as (p' & H4 & [[H5 H6]|[H5 H6]]).
    + left. exists p'. rewrite lookup_partial_out by lia. rewrite Hb.
      repeat split; congruence.
    + right. split; [|lia]. right. exists p'.
      rewrite lookup_partial_out by lia. rewrite Hb. auto.
Qed.

Lemma Evolves_same_window (c : Callback) (s s' : TSFragmenter) :
  same_window s s' -> Evolves c s s' [].
Proof.
  intros (Hb & He & Hs). apply Evolves_of_array; auto.
  rewrite Hs. apply Array_evolves_refl.
Qed.

Lemma Evolves_trans (c : Callback) (s1 s2 s3 : TSFragmenter) (f1 f2 : list Callback) :
  Evolves c s1 s2 f1 -> Evolves c s2 s3 f2 -> Evolves c s1 s3 (f1 ++ f2).
Proof.
  intros [C1 S1 O1] [C2 S2 O2]. constructor.
  - rewrite fired_count_app. lia.
  - auto.
  - intros msn part k H. rewrite fired_count_app.
    destruct (O1 _ _ _ H) as [H1|[H1 K1]].
    + destruct (O2 _ _ _ H1) as [H2|[H2 K2]]; [left; exact H2|right; split; [exact H2|lia]].
    + right. split; [auto|lia].
Qed.

Lemma Frame_refl (s : TSFragmenter) : Frame s s.
Proof. constructor; reflexivity. Qed.

Lemma Frame_trans (s1 s2 s3 : TSFragmenter) : Frame s1 s2 -> Frame s2 s3 -> Frame s1 s3.
Proof. intros [] []. constructor; congruence. Qed.

Lemma Appends_refl (s : TSFragmenter) : Appends s s.
Proof. constructor; auto using Frame_refl. Qed.

Lemma Appends_trans (s1 s2 s3 : TSFragmenter) :
  Appends s1 s2 -> Appends s2 s3 -> Appends s1 s3.
Proof. intros [] []. constructor; eauto using Frame_trans; congruence. Qed.

Lemma Appends_set_M3U8_Segments (s : TSFragmenter) (segments : list Segment.t) :
  Appends s (set_M3U8_Segments s segments).
Proof. destruct s. repeat constructor. Qed.

Lemma Appends_set_PAT_cc (s : TSFragmenter) (cc : Z) :
  Appends s (set_PAT s (PAT_lastPAT s) cc (PAT_TargetPMTPid s)).
Proof. destruct s. repeat constructor. Qed.

Lemma Appends_set_PMT_cc (s : TSFragmenter) (cc : Z) :
  Appends s (set_PMT s (PMT_lastPMT s) cc (PMT_VideoPid s) (PMT_PCRPid s)).
Proof. destruct s. repeat constructor. Qed.

Lemma set_M3U8_Segments_same (s : TSFragmenter) :
  set_M3U8_Segments s (M3U8_Segments s) = s.
Proof. now destruct s. Qed.

Lemma M3U8_Segments_set (s : TSFragmenter) (segments : list Segment.t) :
  M3U8_Segments (set_M3U8_Segments s segments) = segments.
Proof. now destruct s. Qed.

(** A state with the same window and settings is as well formed. *)
Lemma WF_same_window (s s' : TSFragmenter) :
  WF s -> same_window s s' -> same_settings s s' -> WF s'.
Proof.
  intros [W1 W2 W3 W4 W5 W6 W7] (Hb & He & Hs) (Hl & _ & Hsid & Hidr).
  constructor; rewrite ?Hb, ?He, ?Hs, ?Hl, ?Hsid; auto.
  intros H. apply W7. destruct (M3U8_Initial_IDR_Detected s); [|reflexivity].
  rewrite Hidr in H; [discriminate|reflexivity].
Qed.

Lemma WF_replace_last (s : TSFragmenter) (init : list Segment.t) (lastS lastS' : Segment.t) :
  WF s -> M3U8_Segments s = init ++ [lastS] -> Segment_open lastS' ->
  WF (set_M3U8_Segments s (init ++ [lastS'])).
Proof.
  intros [W1 W2 W3 W4 W5 W6 W7] E Ho. rewrite E in *.
  apply Forall_last_app in W4.
  destruct s; simpl in *. constructor; simpl; auto.
  - rewrite array_length_app in *. exact W2.
  - apply Forall_last_app. tauto.
Qed.

Lemma Evolves_replace_last (c : Callback) (s : TSFragmenter) (init : list Segment.t)
    (lastS lastS' : Segment.t) (fired : list Callback) :
  M3U8_Segments s = init ++ [lastS] ->
  Array_evolves c (init ++ [lastS]) (init ++ [lastS']) fired ->
  Evolves c s (set_M3U8_Segments s (init ++ [lastS'])) fired.
Proof.
  intros E H. apply Evolves_of_array.
  - now destruct s.
  - now destruct s.
  - rewrite M3U8_Segments_set, E. exact H.
Qed.

Lemma same_settings_of_Frame (s s' : TSFragmenter) : Frame s s' -> same_settings s s'.
Proof. intros []. repeat split; congruence. Qed.

Lemma Evolves_trans_nil (c : Callback) (s1 s2 s3 : TSFragmenter) (f : list Callback) :
  Evolves c s1 s2 f -> Evolves c s2 s3 [] -> Evolves c s1 s3 f.
Proof.
  intros H1 H2. rewrite <- (app_nil_r f). eapply Evolves_trans; eauto.
Qed.

Lemma Evolves_refl (c : Callback) (s : TSFragmenter) : Evolves c s s [].
Proof. apply Evolves_same_window. repeat split. Qed.

Lemma byte_at_forall (P : Z -> bool) :
  P 0 = true -> (forall x : byte, P (Z.of_N (Byte.to_N x)) = true) ->
  forall (b : Buffer) (i : Z), P (byte_at b i) = true.
Proof.
  intros H0 Hx b i. unfold byte_at.
  destruct (i <? 0); [exact H0|].
  destruct (nth_error b (Z.to_nat i)); [apply Hx | exact H0].
Qed.

Lemma bits_bound (mask shift bound : Z) :
  (forall x : byte,
      let v := Z.shiftr (Z.land (Z.of_N (Byte.to_N x)) mask) shift in
      (0 <=? v) && (v <? bound) = true) ->
  (let v := Z.shiftr (Z.land 0 mask) shift in (0 <=? v) && (v <? bound) = true) ->
  forall (b : Buffer) (i : Z),
    0 <= Z.shiftr (Z.land (byte_at b i) mask) shift < bound.
Proof.
  intros Hx H0 b i.
  pose proof (byte_at_forall
                (fun u => let v := Z.shiftr (Z.land u mask) shift in
                          (0 <=? v) && (v <? bound)) H0 Hx b i) as H.
  simpl in H. apply andb_true_iff in H. destruct H as [H1 H2].
  apply Z.leb_le in H1. apply Z.ltb_lt in H2. lia.
Qed.

Lemma same_settings_refl (s : TSFragmenter) : same_settings s s.
Proof. repeat split; auto. Qed.

Lemma same_settings_trans (s1 s2 s3 : TSFragmenter) :
  same_settings s1 s2 -> same_settings s2 s3 -> same_settings s1 s3.
Proof.
  intros (A1 & B1 & C1 & D1) (A2 & B2 & C2 & D2). repeat split; try congruence. auto.
Qed.

Lemma Advances_refl (s : TSFragmenter) : WF s -> Advances s s [].
Proof.
  intros W. constructor; [exact W | apply same_settings_refl | intros c; apply Evolves_refl].
Qed.

Lemma Advances_trans (s1 s2 s3 : TSFragmenter) (f1 f2 : list Callback) :
  Advances s1 s2 f1 -> Advances s2 s3 f2 -> Advances s1 s3 (f1 ++ f2).
Proof.
  intros [W1 S1 E1] [W2 S2 E2]. constructor.
  - exact W2.
  - eapply same_settings_trans; eauto.
  - intros c. eapply Evolves_trans; eauto.
Qed.

Lemma Advances_trans_nil (s1 s2 s3 : TSFragmenter) (f : list Callback) :
  Advances s1 s2 f -> Advances s2 s3 [] -> Advances s1 s3 f.
Proof.
  intros H1 H2. rewrite <- (app_nil_r f). eapply Advances_trans; eauto.
Qed.

Lemma Advances_nil_trans (s1 s2 s3 : TSFragmenter) (f : list Callback) :
  Advances s1 s2 [] -> Advances s2 s3 f -> Advances s1 s3 f.
Proof.
  intros H1 H2. change f with ([] ++ f). eapply Advances_trans; eauto.
Qed.

Lemma Advances_of_Appends (s s' : TSFragmenter) (fired : list Callback) :
  WF s' -> Appends s s' -> (forall c, Evolves c s s' fired) -> Advances s s' fired.
Proof.
  intros W [F _ _] E. constructor; auto using same_settings_of_Frame.
Qed.

(** A step that leaves the window alone. *)
Lemma Advances_same_window (s s' : TSFragmenter) :
  WF s -> same_window s s' -> same_settings s s' -> Advances s s' [].
Proof.
  intros W Hw Hs. constructor.
  - eapply WF_same_window; eauto.
  - exact Hs.
  - intros c. apply Evolves_same_window, Hw.
Qed.

Lemma Forall_last_get {A : Type} (P Q : A -> Prop) (l : list A) (i : Z) (x : A) :
  Forall_last P Q l -> array_get l i = Some x -> P x \/ Q x.
Proof.
  intros H E. destruct (array_get_split _ _ _ E) as (init & rest & -> & _ & _).
  clear E. induction init as [|y init IH]; simpl in H.
  - destruct rest; [right; exact H | left; apply H].
  - destruct (init ++ x :: rest) eqn:El; [destruct init; discriminate|].
    rewrite <- El in *. apply IH, H.
Qed.

Lemma Segment_parts_inv (seg : Segment.t) (part : Z) (p : PartialSegment.t) :
  Segment_sealed seg \/ Segment_open seg ->
  Segment.getPartial seg part = Some p -> Partial_inv p.
Proof.
  intros [(_ & _ & H)|(_ & _ & H)] E.
  - apply (array_get_Forall _ _ _ _ H E).
  - destruct (Forall_last_get _ _ _ _ _ H E) as [K|K]; apply K.
Qed.

Lemma Segment_base_inv (seg : Segment.t) :
  Segment_sealed seg \/ Segment_open seg -> Partial_inv (Segment.base seg).
Proof. intros [(H & _)|(H & _)]; apply H. Qed.

Lemma WF_Get_Segment (s : TSFragmenter) (msn : Z) :
  WF s -> inRangeSegment s msn = true ->
  exists seg, M3U8_Get_Segment s msn = Some seg
              /\ (Segment_sealed seg \/ Segment_open seg).
Proof.
  intros W R. unfold M3U8_Get_Segment. rewrite R. simpl.
  unfold inRangeSegment in R.
  destruct (Z.ltb_spec msn (M3U8_Begin_Sequence_Number s)); [discriminate|].
  destruct (Z.leb_spec (M3U8_End_Sequence_Number s) msn); [discriminate|].
  destruct (array_get_in_range (M3U8_Segments s) (msn - M3U8_Begin_Sequence_Number s))
    as (seg & E).
  { rewrite (WF_size s W). lia. }
  exists seg. split; [exact E|].
  eapply Forall_last_get; [apply (WF_window s W) | exact E].
Qed.

Lemma WF_lookup_inv (s : TSFragmenter) (msn part : Z) (p : PartialSegment.t) :
  WF s -> lookup_partial s msn part = Some p -> Partial_inv p.
Proof.
  intros W E. unfold lookup_partial in E.
  destruct (M3U8_Get_Segment s msn) as [seg|] eqn:Es; [|discriminate].
  assert (R : inRangeSegment s msn = true).
  { unfold M3U8_Get_Segment in Es. destruct (inRangeSegment s msn); [auto|discriminate]. }
  destruct (WF_Get_Segment s msn W R) as (seg' & Es' & H).
  rewrite Es in Es'. inversion Es'; subst seg'.
  eapply Segment_parts_inv; eauto.
Qed.

(** ** Registering a callback *)

Lemma Partial_count_addCallback (c cb : Callback) (p : PartialSegment.t) :
  Partial_count c (PartialSegment.addCallback p cb)
  = (Partial_count c p + if Nat.eqb cb c then 1 else 0)%nat.
Proof.
  unfold Partial_count. simpl. rewrite fired_count_app. unfold fired_count at 2. simpl.
  destruct (Nat.eq_dec cb c) as [->|Hne].
  - now rewrite Nat.eqb_refl.
  - apply Nat.eqb_neq in Hne. now rewrite Hne.
Qed.

Lemma lookup_in_middle (init rest : list Segment.t) (x : Segment.t) (i part : Z)
    (p : PartialSegment.t) :
  lookup_in (init ++ x :: rest) i part = Some p ->
  (i <> array_length init /\ forall y, lookup_in (init ++ y :: rest) i part = Some p)
  \/ (i = array_length init /\ Segment.getPartial x part = Some p).
Proof.
  intros H. pose proof (lookup_in_bounds _ _ _ _ H) as B.
  destruct (Z.lt_ge_cases i (array_length init)) as [L|G].
  - left. split; [lia|]. intros y. rewrite lookup_in_app_l in * by assumption. exact H.
  - destruct (Z.eq_dec i (array_length init)) as [->|Hne].
    + right. split; [reflexivity|]. unfold lookup_in in H.
      rewrite array_get_app_r, Z.sub_diag in H by lia. exact H.
    + left. split; [exact Hne|]. intros y. unfold lookup_in in *.
      rewrite array_get_app_r in * by lia.
      unfold array_get in *. destruct (i - array_length init <? 0); [discriminate|].
      destruct (Z.to_nat (i - array_length init)) eqn:En; [lia|]. exact H.
Qed.

Lemma lookup_in_middle_eq (init rest : list Segment.t) (x : Segment.t) (part : Z) :
  lookup_in (init ++ x :: rest) (array_length init) part = Segment.getPartial x part.
Proof.
  unfold lookup_in. rewrite array_get_app_r, Z.sub_diag by lia. reflexivity.
Qed.

(** One segment is replaced by a copy that differs in registrations
    only. *)
Lemma Array_evolves_replace_at (c : Callback) (init rest : list Segment.t)
    (seg seg' : Segment.t) :
  (forall part p,
      Segment.getPartial seg part = Some p ->
      exists p', Segment.getPartial seg' part = Some p'
                 /\ PartialSegment.isCompleted p' = PartialSegment.isCompleted p
                 /\ Partial_count c p' = Partial_count c p) ->
  Segment_count c seg' = Segment_count c seg ->
  Array_evolves c (init ++ seg :: rest) (init ++ seg' :: rest) [].
Proof.
  intros Hp Hc. constructor.
  - rewrite !Segments_count_app. unfold Segments_count at 2 4. simpl. lia.
  - intros i part p H1 H2. destruct (lookup_in_middle _ _ _ _ _ _ H1) as [[_ H]|[-> H]].
    + eauto.
    + destruct (Hp _ _ H) as (p' & E' & C' & _). exists p'.
      rewrite lookup_in_middle_eq. split; congruence.
  - intros i part p H1 H2. destruct (lookup_in_middle _ _ _ _ _ _ H1) as [[_ H]|[-> H]].
    + exists p. split; [apply H|]. left. auto.
    + destruct (Hp _ _ H) as (p' & E' & C' & K'). exists p'.
      rewrite lookup_in_middle_eq. split; [exact E'|]. left. split; congruence.
Qed.

Lemma WF_replace_at (s : TSFragmenter) (init rest : list Segment.t) (seg seg' : Segment.t) :
  WF s -> M3U8_Segments s = init ++ seg :: rest ->
  (Segment_sealed seg -> Segment_sealed seg') ->
  (Segment_open seg -> Segment_open seg') ->
  WF (set_M3U8_Segments s (init ++ seg' :: rest)).
Proof.
  intros [W1 W2 W3 W4 W5 W6 W7] E Hs Ho. rewrite E in *.
  destruct s; simpl in *. constructor; simpl; auto.
  - rewrite array_length_app in *. exact W2.
  - eapply Forall_last_set; eauto.
Qed.

Section Facts.

Context {lib : Collaborators}.

(** *** The analyzer yields a 33-bit PTS *)

Lemma PES_pts_domain (VideoPES : Buffer) : PTS_domain (PES_pts VideoPES).
Proof.
unfold PES_pts, PTS_domain.
pose proof (bits_bound 0x0E 1 8 ltac:(intros x; destruct x; reflexivity) eq_refl
              VideoPES (TSPES_PES_HEADER_SIZE + 3 + 0)) as H0.
pose proof (bits_bound 0xFF 0 256 ltac:(intros x; destruct x; reflexivity) eq_refl
              VideoPES (TSPES_PES_HEADER_SIZE + 3 + 1)) as H1.
pose proof (bits_bound 0xFE 1 128 ltac:(intros x; destruct x; reflexivity) eq_refl
              VideoPES (TSPES_PES_HEADER_SIZE + 3 + 2)) as H2.
pose proof (bits_bound 0xFF 0 256 ltac:(intros x; destruct x; reflexivity) eq_refl
              VideoPES (TSPES_PES_HEADER_SIZE + 3 + 3)) as H3.
pose proof (bits_bound 0xFE 1 128 ltac:(intros x; destruct x; reflexivity) eq_refl
              VideoPES (TSPES_PES_HEADER_SIZE + 3 + 4)) as H4.
change (Z.shiftl 1 3) with 8. change (Z.shiftl 1 8) with 256.
change (Z.shiftl 1 7) with 128. change (2 ^ 33) with 8589934592.
lia.
Qed.

(** *** Appending a packet *)

Lemma M3U8_Add_Packet_empty (s : TSFragmenter) (pkt : Buffer) :
M3U8_End_Sequence_Number s - M3U8_Begin_Sequence_Number s <= 0 ->
M3U8_Add_Packet s pkt = Some s.
Proof.
intros H. unfold M3U8_Add_Packet.
destruct (Z.leb_spec (M3U8_End_Sequence_Number s - M3U8_Begin_Sequence_Number s) 0);
  [reflexivity | lia].
Qed.

Lemma M3U8_Add_Packet_last (s : TSFragmenter) (pkt : Buffer) (init : list Segment.t)
  (lastS : Segment.t) (pinit : list PartialSegment.t) (lastP : PartialSegment.t) :
M3U8_Segments s = init ++ [lastS] ->
Segment.parts lastS = pinit ++ [lastP] ->
array_length init
= M3U8_End_Sequence_Number s - M3U8_Begin_Sequence_Number s - 1 ->
M3U8_Add_Packet s pkt
= Some (set_M3U8_Segments s
          (init ++ [Segment.mk (PartialSegment.addPacket (Segment.base lastS) pkt)
                      (pinit ++ [PartialSegment.addPacket lastP pkt])
                      (Segment.programDateTime lastS)])).
Proof.
intros E Ep Hl. unfold M3U8_Add_Packet.
assert (Hsz : M3U8_End_Sequence_Number s - M3U8_Begin_Sequence_Number s - 1
              = array_length (init ++ [lastS]) - 1).
{ rewrite array_length_app. unfold array_length at 2. simpl. lia. }
destruct (Z.leb_spec (M3U8_End_Sequence_Number s - M3U8_Begin_Sequence_Number s) 0).
{ unfold array_length in Hl. lia. }
rewrite E, Hsz, array_get_last, (Segment_addPacket_open _ pinit lastP) by exact Ep.
now rewrite array_set_last.
Qed.

Lemma M3U8_Add_Packet_spec (s : TSFragmenter) (pkt : Buffer) :
WF s ->
exists s', M3U8_Add_Packet s pkt = Some s'
           /\ WF s' /\ Appends s s' /\ forall c, Evolves c s s' [].
Proof.
intros W.
destruct (Z.le_gt_cases
            (M3U8_End_Sequence_Number s - M3U8_Begin_Sequence_Number s) 0) as [Hz|Hz].
- exists s. rewrite M3U8_Add_Packet_empty by exact Hz.
  split; [reflexivity|]. split; [exact W|]. split; [apply Appends_refl|].
  intros c. apply Evolves_same_window. repeat split.
- destruct (WF_view s W) as (init & lastS & pinit & lastP & E & Ep & Hi & Hb & Hpi & Hpl & Hl);
    [lia|].
  rewrite (M3U8_Add_Packet_last s pkt init lastS pinit lastP) by assumption.
  eexists. split; [reflexivity|]. split; [|split].
  + eapply WF_replace_last; eauto.
    apply Segment_open_intro; auto.
  + apply Appends_set_M3U8_Segments.
  + intros c. eapply Evolves_replace_last; [exact E|].
    apply (Array_evolves_replace_last c init lastS _ pinit [] lastP
             (PartialSegment.addPacket lastP pkt) []).
    * exact Ep.
    * reflexivity.
    * apply Hpl.
    * left. split; [apply Hpl | reflexivity].
    * unfold Segment_count. simpl. rewrite Ep, !Parts_count_app. simpl.
      rewrite !Partial_count_addPacket. lia.
Qed.

Lemma forEach_Add_Packet_spec (packets : list Buffer) (s : TSFragmenter) :
WF s ->
exists s', forEach M3U8_Add_Packet packets s = Some s'
           /\ WF s' /\ Appends s s' /\ forall c, Evolves c s s' [].
Proof.
revert s. induction packets as [|pkt packets IH]; intros s W; simpl.
- exists s. split; [reflexivity|]. split; [exact W|]. split; [apply Appends_refl|].
  intros c. apply Evolves_same_window. repeat split.
- destruct (M3U8_Add_Packet_spec s pkt W) as (s1 & -> & W1 & A1 & E1).
  destruct (IH s1 W1) as (s2 & -> & W2 & A2 & E2).
  exists s2. split; [reflexivity|]. split; [exact W2|].
  split; [eapply Appends_trans; eauto|].
  intros c. exact (Evolves_trans c _ _ _ [] [] (E1 c) (E2 c)).
Qed.

Lemma set_M3U8_Segments_twice (s : TSFragmenter) (a b : list Segment.t) :
set_M3U8_Segments (set_M3U8_Segments s a) b = set_M3U8_Segments s b.
Proof. reflexivity. Qed.




Lemma M3U8_Add_PAT_spec (s : TSFragmenter) (PAT : Buffer) :
WF s ->
exists s', M3U8_Add_PAT s PAT = Some s'
           /\ WF s' /\ Appends s s' /\ forall c, Evolves c s s' [].
Proof.
intros W. unfold M3U8_Add_PAT.
set (cc := Z.land _ _). set (packets := TSSectionPacketizer_packetize _ _ _ _ _ _).
pose proof (Appends_set_PAT_cc s cc) as A0.
assert (W0 : WF (set_PAT s (PAT_lastPAT s) cc (PAT_TargetPMTPid s))).
{ apply (WF_same_window s); [exact W| |]; now destruct s. }
destruct (forEach_Add_Packet_spec packets _ W0) as (s' & -> & W' & A' & E').
exists s'. split; [reflexivity|]. split; [exact W'|].
split; [eapply Appends_trans; eauto|].
intros c. refine (Evolves_trans c _ _ _ [] [] _ (E' c)).
apply Evolves_same_window. now destruct s.
Qed.

Lemma M3U8_Add_PMT_spec (s : TSFragmenter) (PMT : Buffer) :
WF s ->
exists s', M3U8_Add_PMT s PMT = Some s'
           /\ WF s' /\ Appends s s' /\ forall c, Evolves c s s' [].
Proof.
intros W. unfold M3U8_Add_PMT.
assert (Hid : exists s', Some s = Some s'
                         /\ WF s' /\ Appends s s' /\ forall c, Evolves c s s' []).
{ exists s. split; [reflexivity|]. split; [exact W|]. split; [apply Appends_refl|].
  intros c. apply Evolves_same_window. repeat split. }
destruct (PAT_TargetPMTPid s) as [pmtPid|] eqn:Epid; [|exact Hid].
destruct (pmtPid =? 0); [exact Hid|].
set (cc := Z.land _ _). set (packets := TSSectionPacketizer_packetize _ _ _ _ _ _).
pose proof (Appends_set_PMT_cc s cc) as A0.
assert (W0 : WF (set_PMT s (PMT_lastPMT s) cc (PMT_VideoPid s) (PMT_PCRPid s))).
{ apply (WF_same_window s); [exact W| |]; now destruct s. }
destruct (forEach_Add_Packet_spec packets _ W0) as (s' & -> & W' & A' & E').
exists s'. split; [reflexivity|]. split; [exact W'|].
split; [eapply Appends_trans; eauto|].
intros c. refine (Evolves_trans c _ _ _ [] [] _ (E' c)).
apply Evolves_same_window. now destruct s.
Qed.

(** *** Cutting a part *)

Lemma M3U8_New_Partial_last (s : TSFragmenter) (pts : Z) (init : list Segment.t)
  (lastS : Segment.t) (pinit : list PartialSegment.t) (lastP : PartialSegment.t) :
M3U8_Segments s = init ++ [lastS] ->
Segment.parts lastS = pinit ++ [lastP] ->
array_length init
= M3U8_End_Sequence_Number s - M3U8_Begin_Sequence_Number s - 1 ->
M3U8_New_Partial s pts
= Some (set_M3U8_Segments s
          (init ++ [Segment.mk (Segment.base lastS)
                      (pinit ++ [fst (PartialSegment.complete lastP pts);
                                 PartialSegment.new pts None])
                      (Segment.programDateTime lastS)]),
        PartialSegment.complete_callbacks lastP).
Proof.
intros E Ep Hl. unfold M3U8_New_Partial.
assert (Hsz : M3U8_End_Sequence_Number s - M3U8_Begin_Sequence_Number s - 1
              = array_length (init ++ [lastS]) - 1).
{ rewrite array_length_app. unfold array_length at 2. simpl. lia. }
destruct (Z.leb_spec (M3U8_End_Sequence_Number s - M3U8_Begin_Sequence_Number s) 0).
{ unfold array_length in Hl. lia. }
rewrite E, Hsz, array_get_last, (Segment_completePartial_open _ pinit lastP) by exact Ep.
rewrite array_set_last. unfold Segment.newPartial. simpl.
now rewrite <- app_assoc.
Qed.

Lemma M3U8_New_Partial_spec (s : TSFragmenter) (pts : Z) :
WF s -> PTS_domain pts ->
exists s' fired, M3U8_New_Partial s pts = Some (s', fired)
           /\ WF s' /\ Appends s s' /\ forall c, Evolves c s s' fired.
Proof.
intros W D.
destruct (Z.le_gt_cases
            (M3U8_End_Sequence_Number s - M3U8_Begin_Sequence_Number s) 0) as [Hz|Hz].
- exists s, []. unfold M3U8_New_Partial.
  destruct (Z.leb_spec (M3U8_End_Sequence_Number s - M3U8_Begin_Sequence_Number s) 0);
    [|lia].
  split; [reflexivity|]. split; [exact W|]. split; [apply Appends_refl|].
  intros c. apply Evolves_same_window. repeat split.
- destruct (WF_view s W) as (init & lastS & pinit & lastP & E & Ep & Hi & Hb & Hpi & Hpl & Hl);
    [lia|].
  rewrite (M3U8_New_Partial_last s pts init lastS pinit lastP) by assumption.
  eexists _, _. split; [reflexivity|]. split; [|split].
  + eapply WF_replace_last; eauto.
    replace (pinit ++ [fst (PartialSegment.complete lastP pts); PartialSegment.new pts None])
      with ((pinit ++ [fst (PartialSegment.complete lastP pts)])
              ++ [PartialSegment.new pts None]) by now rewrite <- app_assoc.
    apply Segment_open_intro; auto using Partial_open_new.
    apply Forall_app. split; [exact Hpi|]. constructor; [|constructor].
    apply Partial_sealed_complete, Hpl.
  + apply Appends_set_M3U8_Segments.
  + intros c. eapply Evolves_replace_last; [exact E|].
    apply (Array_evolves_replace_last c init lastS _ pinit [PartialSegment.new pts None]
             lastP (fst (PartialSegment.complete lastP pts))).
    * exact Ep.
    * reflexivity.
    * apply Hpl.
    * right. split; [reflexivity|]. unfold Partial_count. lia.
    * unfold Segment_count. simpl. rewrite Ep, !Parts_count_app. simpl.
      unfold Partial_count. simpl. lia.
Qed.

(** *** Opening a segment *)

Lemma sealed_lookup (L : list Segment.t) (i part : Z) (p : PartialSegment.t) :
Forall Segment_sealed L -> lookup_in L i part = Some p ->
PartialSegment.isCompleted p = true.
Proof.
intros HL H. unfold lookup_in in H.
destruct (array_get L i) as [seg|] eqn:E; [|discriminate].
pose proof (array_get_Forall _ _ _ _ HL E) as (_ & _ & Hp).
apply (array_get_Forall _ _ _ _ Hp H).
Qed.

Lemma M3U8_Complete_Last_spec (s : TSFragmenter) (pts : Z) :
WF s ->
exists L fired,
  M3U8_Complete_Last s pts = Some (set_M3U8_Segments s L, fired)
  /\ Forall Segment_sealed L
  /\ array_length L = M3U8_End_Sequence_Number s - M3U8_Begin_Sequence_Number s
  /\ forall c, Array_evolves c (M3U8_Segments s) L fired.
Proof.
intros W. unfold M3U8_Complete_Last.
destruct (Z.ltb_spec 0 (M3U8_End_Sequence_Number s - M3U8_Begin_Sequence_Number s))
  as [Hz|Hz].
- destruct (WF_view s W Hz)
    as (init & lastS & pinit & lastP & E & Ep & Hi & Hb & Hpi & Hpl & Hl).
  assert (Hsz : M3U8_End_Sequence_Number s - M3U8_Begin_Sequence_Number s - 1
                = array_length (init ++ [lastS]) - 1).
  { rewrite array_length_app. unfold array_length at 2. simpl. lia. }
  rewrite E, Hsz, array_get_last, (Segment_complete_open _ pinit lastP) by exact Ep.
  rewrite array_set_last.
  eexists _, _. split; [reflexivity|]. split; [|split].
  + apply Forall_app. split; [exact Hi|]. constructor; [|constructor].
    pose proof (Segment_sealed_complete lastS pts) as Hs.
    rewrite (Segment_complete_open _ pinit lastP) in Hs by exact Ep.
    apply Hs. apply WF_window in W. rewrite E in W.
    apply Forall_last_app in W. tauto.
  + rewrite array_length_app. unfold array_length at 2. simpl. lia.
  + intros c.
    apply (Array_evolves_replace_last c init lastS _ pinit [] lastP
             (fst (PartialSegment.complete lastP pts))).
    * exact Ep.
    * reflexivity.
    * apply Hpl.
    * right. split; [reflexivity|]. rewrite fired_count_app.
      unfold Partial_count. lia.
    * unfold Segment_count. simpl. rewrite Ep, !Parts_count_app, fired_count_app.
      simpl. unfold Partial_count. simpl. lia.
- exists (M3U8_Segments s), []. rewrite set_M3U8_Segments_same.
  split; [reflexivity|].
  pose proof (WF_size s W) as Hs.
  assert (E : M3U8_Segments s = []).
  { destruct (M3U8_Segments s); [reflexivity|].
    unfold array_length in Hs. simpl in Hs. lia. }
  rewrite E. split; [constructor|]. split.
  + rewrite <- Hs, E. reflexivity.
  + intros c. apply Array_evolves_refl.
Qed.

Lemma M3U8_push_evict_spec (s : TSFragmenter) (pts : Z) (now : string) :
0 <= M3U8_Begin_Sequence_Number s ->
array_length (M3U8_Segments s)
= M3U8_End_Sequence_Number s - M3U8_Begin_Sequence_Number s ->
M3U8_Begin_Sequence_Number s
= Z.max 0 (M3U8_End_Sequence_Number s - Z.max 0 (M3U8_Segments_Length s)) ->
Forall Segment_sealed (M3U8_Segments s) ->
PAT_TargetSID s = None ->
M3U8_Initial_IDR_Detected s = true ->
PTS_domain pts ->
let s' :=
  M3U8_Evict
    (set_M3U8 s (M3U8_Begin_Sequence_Number s) (M3U8_End_Sequence_Number s + 1)
       (M3U8_Segments s ++ [Segment.new pts (Some true) now])) in
WF s' /\ Frame s s' /\ (forall c, Evolves c s s' [])
/\ M3U8_End_Sequence_Number s' = M3U8_End_Sequence_Number s + 1.
Proof.
intros H1 H2 H3 H4 H5 H6 D. unfold M3U8_Evict.
pose proof (Segment_open_new pts (Some true) now D) as Hnew.
destruct s as [f1 f2 f3 f4 f5 f6 f7 f8 f9 f10 f11 f12 N T B E L g1 g2 g3].
simpl in *. subst f6 g3.
assert (HL : 0 <= array_length L) by (unfold array_length; lia).
destruct (Z.ltb_spec N (E + 1 - B)) as [Hev|Hev]; simpl.
- (* the oldest segment is evicted *)
  split; [|split; [|split]].
  + constructor; simpl; try lia; try discriminate; try reflexivity.
    * destruct L; simpl; [|rewrite array_length_app];
        unfold array_length in *; simpl in *; lia.
    * destruct L as [|x L]; simpl; [exact I|].
      apply Forall_last_app. inversion H4; subst. tauto.
  + repeat constructor.
  + intros c. constructor.
    * simpl. unfold Window_count. simpl.
      fold (Segments_count c (tl (L ++ [Segment.new pts (Some true) now]))).
      fold (Segments_count c L).
      etransitivity; [apply Segments_count_tl|].
      rewrite Segments_count_app. unfold Segments_count at 2. simpl.
      unfold Segment_count. simpl. unfold Partial_count. simpl. lia.
    * intros msn part [Hm|(p & Hp & Hc)]; [left; simpl in *; lia|].
      apply lookup_partial_in in Hp. simpl in Hp. destruct Hp as [R Hp].
      destruct (Z.eq_dec msn B) as [->|Hne]; [left; simpl; lia|].
      right. exists p. split; [|exact Hc].
      rewrite lookup_partial_out by (simpl; lia). simpl.
      unfold lookup_in. rewrite array_get_tl by lia.
      replace (msn - (B + 1) + 1) with (msn - B) by lia.
      fold (lookup_in (L ++ [Segment.new pts (Some true) now]) (msn - B) part).
      rewrite lookup_in_app_l by lia. exact Hp.
    * intros msn part k (p & Hp & Ho & _).
      apply lookup_partial_in in Hp. simpl in Hp. destruct Hp as [_ Hp].
      rewrite (sealed_lookup _ _ _ _ H4 Hp) in Ho. discriminate.
  + reflexivity.
- split; [|split; [|split]].
  + constructor; simpl; try lia; try discriminate; try reflexivity.
    * rewrite array_length_app. unfold array_length at 2. simpl. lia.
    * apply Forall_last_app. tauto.
  + repeat constructor.
  + intros c. constructor.
    * simpl. unfold Window_count. simpl.
      fold (Segments_count c (L ++ [Segment.new pts (Some true) now])).
      fold (Segments_count c L).
      rewrite Segments_count_app. unfold Segments_count at 2. simpl.
      unfold Segment_count. simpl. unfold Partial_count. simpl. lia.
    * intros msn part [Hm|(p & Hp & Hc)]; [left; simpl in *; lia|].
      apply lookup_partial_in in Hp. simpl in Hp. destruct Hp as [R Hp].
      right. exists p. split; [|exact Hc].
      rewrite lookup_partial_out by (simpl; lia). simpl.
      rewrite lookup_in_app_l by lia. exact Hp.
    * intros msn part k (p & Hp & Ho & _).
      apply lookup_partial_in in Hp. simpl in Hp. destruct Hp as [_ Hp].
      rewrite (sealed_lookup _ _ _ _ H4 Hp) in Ho. discriminate.
  + reflexivity.
Qed.

Lemma M3U8_New_Segment_spec (s : TSFragmenter) (pts : Z) (now : string) :
WF s -> M3U8_Initial_IDR_Detected s = true -> PTS_domain pts ->
exists s' fired,
  M3U8_New_Segment s pts now = Some (s', fired)
  /\ WF s' /\ Frame s s' /\ (forall c, Evolves c s s' fired)
  /\ M3U8_End_Sequence_Number s'
     = M3U8_End_Sequence_Number s
       + match PAT_lastPAT s, PMT_lastPMT s with
         | Some _, Some _ => 1
         | _, _ => 0
         end.
Proof.
intros W Hidr D. unfold M3U8_New_Segment.
assert (Hid : exists s' fired,
           ret s = Some (s', fired)
           /\ WF s' /\ Frame s s' /\ (forall c, Evolves c s s' fired)
           /\ M3U8_End_Sequence_Number s' = M3U8_End_Sequence_Number s + 0).
{ exists s, []. split; [reflexivity|]. split; [exact W|].
  split; [apply Frame_refl|]. split; [intros c; apply Evolves_refl | lia]. }
destruct (PAT_lastPAT s) as [lastPAT|] eqn:EPAT; [|exact Hid].
destruct (PMT_lastPMT s) as [lastPMT|] eqn:EPMT; [|exact Hid].
clear Hid.
destruct (M3U8_Complete_Last_spec s pts W) as (L & fired & -> & HL & Hlen & HA).
unfold bind at 1.
set (s1 := set_M3U8_Segments s L).
assert (A1 : Appends s s1) by apply Appends_set_M3U8_Segments.
assert (S1 : M3U8_Segments s1 = L) by apply M3U8_Segments_set.
destruct A1 as [F1 B1 E1].
destruct (M3U8_push_evict_spec s1 pts now) as (W3 & F3 & Ev3 & End3).
{ rewrite B1. apply W. }
{ rewrite S1, B1, E1. exact Hlen. }
{ rewrite B1, E1, (Fr_length _ _ F1). apply W. }
{ rewrite S1. exact HL. }
{ rewrite (Fr_sid _ _ F1). apply W. }
{ rewrite (Fr_idr _ _ F1). exact Hidr. }
{ exact D. }
set (s3 := M3U8_Evict _) in *.
destruct (M3U8_Add_PAT_spec s3 lastPAT W3) as (s4 & -> & W4 & [F4 B4 E4] & Ev4).
simpl. destruct (M3U8_Add_PMT_spec s4 lastPMT W4) as (s5 & -> & W5 & [F5 B5 E5] & Ev5).
simpl. eexists _, _. split; [reflexivity|]. split; [exact W5|].
split; [eauto using Frame_trans|]. split.
- intros c. rewrite app_nil_r.
  apply (Evolves_trans_nil c s s4); [|apply Ev5].
  apply (Evolves_trans_nil c s s3); [|apply Ev4].
  apply (Evolves_trans_nil c s s1); [|apply Ev3].
  apply Evolves_of_array; [exact B1 | exact E1 | rewrite S1; apply HA].
- rewrite E5, E4, End3, E1. reflexivity.
Qed.

(** *** Video access units *)

Lemma M3U8_Get_Last_Partial_last (s : TSFragmenter) (init : list Segment.t)
  (lastS : Segment.t) (pinit : list PartialSegment.t) (lastP : PartialSegment.t) :
M3U8_Segments s = init ++ [lastS] ->
Segment.parts lastS = pinit ++ [lastP] ->
array_length init
= M3U8_End_Sequence_Number s - M3U8_Begin_Sequence_Number s - 1 ->
M3U8_Get_Last_Partial s = Some (Some lastP).
Proof.
intros E Ep Hl. unfold M3U8_Get_Last_Partial.
assert (Hsz : M3U8_End_Sequence_Number s - M3U8_Begin_Sequence_Number s - 1
              = array_length (init ++ [lastS]) - 1).
{ rewrite array_length_app. unfold array_length at 2. simpl. lia. }
destruct (Z.leb_spec (M3U8_End_Sequence_Number s - M3U8_Begin_Sequence_Number s) 0).
{ unfold array_length in Hl. lia. }
rewrite E, Hsz, array_get_last. unfold Segment.getPartial, Segment.getLength.
now rewrite Ep, array_get_last.
Qed.

Lemma Video_part_cut_spec (s : TSFragmenter) (pts : Z) :
WF s -> PTS_domain pts ->
exists s' fired, Video_part_cut s pts = Some (s', fired)
           /\ WF s' /\ Appends s s' /\ forall c, Evolves c s s' fired.
Proof.
intros W D. unfold Video_part_cut.
assert (Hid : exists s' fired, ret s = Some (s', fired)
           /\ WF s' /\ Appends s s' /\ forall c, Evolves c s s' fired).
{ exists s, []. split; [reflexivity|]. split; [exact W|]. split; [apply Appends_refl|].
  intros c. apply Evolves_refl. }
destruct (Z.le_gt_cases
            (M3U8_End_Sequence_Number s - M3U8_Begin_Sequence_Number s) 0) as [Hz|Hz].
- unfold M3U8_Get_Last_Partial.
  destruct (Z.leb_spec (M3U8_End_Sequence_Number s - M3U8_Begin_Sequence_Number s) 0);
    [exact Hid | lia].
- destruct (WF_view s W) as (init & lastS & pinit & lastP & E & Ep & _ & _ & _ & _ & Hl);
    [lia|].
  rewrite (M3U8_Get_Last_Partial_last s init lastS pinit lastP) by assumption.
  destruct (_ && _); [|exact Hid].
  apply M3U8_New_Partial_spec; assumption.
Qed.

Lemma Video_flush_spec (s : TSFragmenter) :
WF s ->
exists s',
  forEach M3U8_Add_Packet (Video_Packets s) s = Some s'
  /\ Advances s (set_Video_Packets s' []) []
  /\ M3U8_End_Sequence_Number (set_Video_Packets s' []) = M3U8_End_Sequence_Number s
  /\ PAT_lastPAT (set_Video_Packets s' []) = PAT_lastPAT s
  /\ PMT_lastPMT (set_Video_Packets s' []) = PMT_lastPMT s.
Proof.
intros W.
destruct (forEach_Add_Packet_spec (Video_Packets s) s W) as (s' & E & W' & [F B En] & Ev).
exists s'. split; [exact E|].
assert (A : Advances s' (set_Video_Packets s' []) []).
{ apply Advances_same_window; [exact W'| |]; now destruct s'. }
split; [|split; [|split]].
- eapply Advances_trans_nil; [|exact A].
  apply Advances_of_Appends; [exact W' | constructor; assumption | exact Ev].
- rewrite <- En. now destruct s'.
- rewrite <- (Fr_pat _ _ F). now destruct s'.
- rewrite <- (Fr_pmt _ _ F). now destruct s'.
Qed.

Lemma Video_PES_spec (s : TSFragmenter) (VideoPES : Buffer) (now : string) :
WF s ->
exists s' fired,
  Video_PES s (VideoPES, now) = Some (s', fired)
  /\ Advances s s' fired
  /\ M3U8_End_Sequence_Number s' = M3U8_End_Sequence_Number s + creates s VideoPES
  /\ PAT_lastPAT s' = PAT_lastPAT s
  /\ PMT_lastPMT s' = PMT_lastPMT s.
Proof.
intros W. unfold Video_PES, creates.
pose proof (PES_pts_domain VideoPES) as D.
destruct (PES_hasIDR VideoPES) eqn:Hidr.
- set (s0 := if negb (M3U8_Initial_IDR_Detected s) then _ else s).
  assert (A0 : Advances s s0 []).
  { unfold s0. destruct (M3U8_Initial_IDR_Detected s) eqn:Ei; simpl.
    - apply Advances_refl, W.
    - apply Advances_same_window; [exact W| |]; destruct s; simpl in *;
        repeat split; auto. }
  assert (I0 : M3U8_Initial_IDR_Detected s0 = true).
  { unfold s0. destruct (M3U8_Initial_IDR_Detected s) eqn:Ei; simpl; [exact Ei|].
    now destruct s. }
  assert (P0 : PAT_lastPAT s0 = PAT_lastPAT s /\ PMT_lastPMT s0 = PMT_lastPMT s
               /\ M3U8_End_Sequence_Number s0 = M3U8_End_Sequence_Number s).
  { unfold s0. destruct (M3U8_Initial_IDR_Detected s); simpl; [auto|].
    now destruct s. }
  destruct P0 as (P0 & P0' & P0'').
  destruct (M3U8_New_Segment_spec s0 (PES_pts VideoPES) now (Adv_WF _ _ _ A0) I0 D)
    as (s1 & fired & -> & W1 & F1 & Ev1 & End1).
  unfold bind at 1.
  rewrite (Fr_idr _ _ F1), I0. simpl negb. cbv iota.
  destruct (Video_flush_spec s1 W1) as (s2 & E2 & A2 & End2 & PAT2 & PMT2).
  rewrite bind_ret_l, E2, bind_lift_Some. unfold ret.
  eexists _, _. split; [reflexivity|].
  split; [|split; [|split]].
  + rewrite app_nil_r.
    eapply Advances_trans_nil; [|exact A2].
    eapply Advances_nil_trans; [exact A0|].
    constructor; [exact W1 | apply same_settings_of_Frame, F1 | exact Ev1].
  + rewrite End2, End1, P0, P0', P0''. reflexivity.
  + rewrite PAT2, (Fr_pat _ _ F1). exact P0.
  + rewrite PMT2, (Fr_pmt _ _ F1). exact P0'.
- rewrite bind_ret_l.
  destruct (M3U8_Initial_IDR_Detected s) eqn:Ei.
  + simpl negb. cbv iota.
    destruct (Video_part_cut_spec s (PES_pts VideoPES) W D)
      as (s1 & fired & -> & W1 & [F1 B1 En1] & Ev1).
    unfold bind at 1.
    destruct (Video_flush_spec s1 W1) as (s2 & E2 & A2 & End2 & PAT2 & PMT2).
    rewrite E2, bind_lift_Some. unfold ret.
    eexists _, _. split; [reflexivity|].
    split; [|split; [|split]].
    * rewrite app_nil_r.
      eapply Advances_trans_nil; [|exact A2].
      apply Advances_of_Appends; [exact W1 | constructor; assumption | exact Ev1].
    * rewrite End2, En1. lia.
    * rewrite PAT2. apply F1.
    * rewrite PMT2. apply F1.
  + exists s, []. split; [reflexivity|]. split; [apply Advances_refl, W|].
    split; [lia|]. split; reflexivity.
Qed.

(** *** PSI sections *)

Lemma PAT_section_spec (s : TSFragmenter) (PAT : Buffer) :
WF s ->
exists s', PAT_section s PAT = Some s'
           /\ Advances s s' []
           /\ M3U8_End_Sequence_Number s' = M3U8_End_Sequence_Number s.
Proof.
intros W. unfold PAT_section.
destruct (negb (TSSection_CRC32 PAT =? 0)).
{ exists s. split; [reflexivity|]. split; [apply Advances_refl, W | reflexivity]. }
set (pmtPid := PAT_loop _ _ _ _ _ _).
set (s1 := set_PAT (set_PAT s (Some PAT) (PAT_Continuous_Counter s) None) _ _ pmtPid).
set (s2 := if negb (M3U8_Initial_PAT_Detected s1) then _ else s1).
assert (A2 : Advances s s2 []
             /\ M3U8_End_Sequence_Number s2 = M3U8_End_Sequence_Number s).
{ split.
  - apply Advances_same_window; [exact W| |]; unfold s2, s1;
      simpl; destruct (M3U8_Initial_PAT_Detected s); simpl;
      repeat split; auto.
  - unfold s2, s1. simpl. now destruct (M3U8_Initial_PAT_Detected s). }
destruct A2 as [A2 End2].
destruct (M3U8_Initial_IDR_Detected s2).
- destruct (M3U8_Add_PAT_spec s2 PAT (Adv_WF _ _ _ A2)) as (s3 & -> & W3 & A3 & Ev3).
  exists s3. split; [reflexivity|]. split.
  + eapply Advances_trans_nil; [exact A2|]. now apply Advances_of_Appends.
  + rewrite (Ap_end _ _ A3). exact End2.
- exists s2. auto.
Qed.

Lemma PAT_section_binding (s : TSFragmenter) (PAT : Buffer) :
WF s -> TSSection_CRC32 PAT = 0 ->
exists s', PAT_section s PAT = Some s'
           /\ PAT_lastPAT s' = Some PAT
           /\ PAT_TargetPMTPid s'
              = PAT_loop (Z.to_nat (section_end PAT - TSSection_EXTENDED_HEADER_SIZE))
                  PAT (PAT_TargetSID s) (section_end PAT)
                  TSSection_EXTENDED_HEADER_SIZE None.
Proof.
intros W Hcrc. unfold PAT_section. rewrite Hcrc. cbn [Z.eqb negb]. cbv iota.
set (pmtPid := PAT_loop _ _ _ _ _ _).
set (s1 := set_PAT (set_PAT s (Some PAT) (PAT_Continuous_Counter s) None) _ _ pmtPid).
set (s2 := if negb (M3U8_Initial_PAT_Detected s1) then _ else s1).
assert (A2 : Advances s s2 []).
{ apply Advances_same_window; [exact W| |]; unfold s2, s1;
    simpl; destruct (M3U8_Initial_PAT_Detected s); simpl;
    repeat split; auto. }
assert (P2 : PAT_lastPAT s2 = Some PAT).
{ unfold s2, s1. simpl. now destruct (M3U8_Initial_PAT_Detected s). }
assert (B2 : PAT_TargetPMTPid s2 = pmtPid).
{ unfold s2, s1. simpl. now destruct (M3U8_Initial_PAT_Detected s). }
assert (Hp : pmtPid
             = PAT_loop (Z.to_nat (section_end PAT - TSSection_EXTENDED_HEADER_SIZE))
                 PAT (PAT_TargetSID s) (section_end PAT)
                 TSSection_EXTENDED_HEADER_SIZE None).
{ unfold pmtPid. now destruct s. }
destruct (M3U8_Initial_IDR_Detected s2).
- destruct (M3U8_Add_PAT_spec s2 PAT (Adv_WF _ _ _ A2)) as (s3 & -> & W3 & A3 & Ev3).
  exists s3. split; [reflexivity|].
  rewrite (Fr_pat _ _ (Ap_frame _ _ A3)), (Fr_pmtpid _ _ (Ap_frame _ _ A3)).
  split; congruence.
- exists s2. split; [reflexivity|]. split; congruence.
Qed.

Lemma PMT_section_spec (s : TSFragmenter) (PMT : Buffer) :
WF s ->
exists s', PMT_section s PMT = Some s'
           /\ Advances s s' []
           /\ M3U8_End_Sequence_Number s' = M3U8_End_Sequence_Number s.
Proof.
intros W. unfold PMT_section.
destruct (negb (TSSection_CRC32 PMT =? 0)).
{ exists s. split; [reflexivity|]. split; [apply Advances_refl, W | reflexivity]. }
set (videoPid := PMT_loop _ _ _ _ _).
set (s1 := set_PMT s (Some PMT) (PMT_Continuous_Counter s) videoPid _).
set (s2 := if negb (M3U8_Initial_PMT_Detected s1) then _ else s1).
assert (A2 : Advances s s2 []
             /\ M3U8_End_Sequence_Number s2 = M3U8_End_Sequence_Number s).
{ split.
  - apply Advances_same_window; [exact W| |]; unfold s2, s1;
      simpl; destruct (M3U8_Initial_PMT_Detected s); simpl;
      repeat split; auto.
  - unfold s2, s1. simpl. now destruct (M3U8_Initial_PMT_Detected s). }
destruct A2 as [A2 End2].
destruct (M3U8_Initial_IDR_Detected s2).
- destruct (M3U8_Add_PMT_spec s2 PMT (Adv_WF _ _ _ A2)) as (s3 & -> & W3 & A3 & Ev3).
  exists s3. split; [reflexivity|]. split.
  + eapply Advances_trans_nil; [exact A2|]. now apply Advances_of_Appends.
  + rewrite (Ap_end _ _ A3). exact End2.
- exists s2. auto.
Qed.

Lemma forEach_section_spec (f : TSFragmenter -> Buffer -> option TSFragmenter)
  (sections : list Buffer) :
(forall s x, WF s ->
             exists s', f s x = Some s' /\ Advances s s' []
                        /\ M3U8_End_Sequence_Number s' = M3U8_End_Sequence_Number s) ->
forall s, WF s ->
  exists s', forEach f sections s = Some s' /\ Advances s s' []
             /\ M3U8_End_Sequence_Number s' = M3U8_End_Sequence_Number s.
Proof.
intros Hf. induction sections as [|x sections IH]; intros s W; simpl.
- exists s. split; [reflexivity|]. split; [apply Advances_refl, W | reflexivity].
- destruct (Hf s x W) as (s1 & -> & A1 & E1).
  destruct (IH s1 (Adv_WF _ _ _ A1)) as (s2 & -> & A2 & E2).
  exists s2. split; [reflexivity|]. split.
  + eapply Advances_trans_nil; eauto.
  + congruence.
Qed.

Lemma forEachEff_Video_PES_spec (popped : list (Buffer * string)) (s : TSFragmenter) :
WF s ->
exists s' fired,
  forEachEff Video_PES popped s = Some (s', fired)
  /\ Advances s s' fired
  /\ M3U8_End_Sequence_Number s'
     = M3U8_End_Sequence_Number s + created_by_PES s popped
  /\ PAT_lastPAT s' = PAT_lastPAT s
  /\ PMT_lastPMT s' = PMT_lastPMT s.
Proof.
revert s. induction popped as [|[V now] popped IH]; intros s W; simpl.
- exists s, []. split; [reflexivity|]. split; [apply Advances_refl, W|].
  split; [lia|]. split; reflexivity.
- destruct (Video_PES_spec s V now W) as (s1 & f1 & E1 & A1 & End1 & P1 & M1).
  destruct (IH s1 (Adv_WF _ _ _ A1)) as (s2 & f2 & E2 & A2 & End2 & P2 & M2).
  exists s2, (f1 ++ f2). split; [exact (bind_Some _ _ _ _ _ _ E1 E2)|].
  split; [eapply Advances_trans; eauto|].
  split; [|split; congruence].
  rewrite End2, End1.
  assert (created_by_PES s1 popped = created_by_PES s popped).
  { clear -P1 M1. induction popped as [|x popped IH]; simpl; [reflexivity|].
    rewrite IH. unfold creates. now rewrite P1, M1. }
  lia.
Qed.

Lemma created_by_PES_count (s : TSFragmenter) (popped : list (Buffer * string)) :
created_by_PES s popped
= match PAT_lastPAT s, PMT_lastPMT s with
  | Some _, Some _ =>
      array_length (filter (fun x => PES_hasIDR (fst x)) popped)
  | _, _ => 0
  end.
Proof.
induction popped as [|x popped IH]; simpl.
- now destruct (PAT_lastPAT s), (PMT_lastPMT s).
- rewrite IH. unfold creates.
  destruct (PES_hasIDR (fst x)); destruct (PAT_lastPAT s), (PMT_lastPMT s);
    unfold array_length; cbn [List.length]; rewrite ?Nat2Z.inj_succ; lia.
Qed.

(** *** Packets, chunks, calls and runs *)

Lemma lift_forEach_section (f : TSFragmenter -> Buffer -> option TSFragmenter)
  (sections : list Buffer) (s : TSFragmenter) (n : Z) :
(exists s', forEach f sections s = Some s' /\ Advances s s' []
            /\ M3U8_End_Sequence_Number s' = M3U8_End_Sequence_Number s) ->
n = 0 ->
exists s' fired, lift (forEach f sections s) = Some (s', fired)
                 /\ Advances s s' fired
                 /\ M3U8_End_Sequence_Number s' = M3U8_End_Sequence_Number s + n.
Proof.
intros (s' & -> & A & E) ->. exists s', []. split; [reflexivity|].
split; [exact A | lia].
Qed.

Lemma other_packet_spec (s : TSFragmenter) (pkt : Buffer) :
WF s ->
exists s' fired,
  (if M3U8_Initial_IDR_Detected s then lift (M3U8_Add_Packet s pkt) else ret s)
  = Some (s', fired)
  /\ Advances s s' fired
  /\ M3U8_End_Sequence_Number s' = M3U8_End_Sequence_Number s + 0.
Proof.
intros W. destruct (M3U8_Initial_IDR_Detected s).
- destruct (M3U8_Add_Packet_spec s pkt W) as (s' & -> & W' & A & Ev).
  exists s', []. split; [reflexivity|].
  split; [now apply Advances_of_Appends | rewrite (Ap_end _ _ A); lia].
- exists s, []. split; [reflexivity|]. split; [apply Advances_refl, W | lia].
Qed.

Lemma write_packet_spec (s : TSFragmenter) (a : Arrival) :
WF s ->
exists s' fired,
  write_packet s a = Some (s', fired)
  /\ Advances s s' fired
  /\ M3U8_End_Sequence_Number s'
     = M3U8_End_Sequence_Number s + created_by_packet s a.
Proof.
intros W. unfold write_packet, created_by_packet, video_branch. cbv zeta.
set (pid := TSPacket_pid (packet a)).
set (s0 := set_Packet_header s _ _ _).
assert (A0 : Advances s s0 []).
{ apply Advances_same_window; [exact W| |]; now destruct s. }
assert (E0 : M3U8_End_Sequence_Number s0 = M3U8_End_Sequence_Number s)
  by now destruct s.
replace (PAT_TargetPMTPid s0) with (PAT_TargetPMTPid s) by now destruct s.
replace (PMT_VideoPid s0) with (PMT_VideoPid s) by now destruct s.
replace (PMT_PCRPid s0) with (PMT_PCRPid s) by now destruct s.
assert (Hwrap : forall (c : Eff TSFragmenter) (n : Z),
           (exists s' fired, c = Some (s', fired) /\ Advances s0 s' fired
                             /\ M3U8_End_Sequence_Number s'
                                = M3U8_End_Sequence_Number s0 + n) ->
           exists s' fired, c = Some (s', fired) /\ Advances s s' fired
                            /\ M3U8_End_Sequence_Number s'
                               = M3U8_End_Sequence_Number s + n).
{ intros c n (s' & fired & Ec & A & En). exists s', fired.
  split; [exact Ec|]. split; [eapply Advances_nil_trans; eauto | congruence]. }
apply Hwrap. clear Hwrap.
pose proof (Adv_WF _ _ _ A0) as W0.
destruct (pid =? 0); cbn [negb andb]; cbv iota.
{ apply lift_forEach_section; [|reflexivity].
  apply forEach_section_spec; [apply PAT_section_spec | exact W0]. }
destruct (pid_is pid (PAT_TargetPMTPid s)); cbn [negb andb]; cbv iota.
{ apply lift_forEach_section; [|reflexivity].
  apply forEach_section_spec; [apply PMT_section_spec | exact W0]. }
destruct (pid_is pid (PMT_VideoPid s)); cbn [negb andb]; cbv iota.
{ set (s1 := set_Video_Packets s0 _).
  assert (A1 : Advances s0 s1 []).
  { apply Advances_same_window; [exact W0| |]; now destruct s. }
  destruct (forEachEff_Video_PES_spec (popped_PES a) s1 (Adv_WF _ _ _ A1))
    as (s2 & fired & -> & A2 & End2 & _ & _).
  exists s2, fired. split; [reflexivity|].
  split; [eapply Advances_nil_trans; eauto|].
  rewrite End2, created_by_PES_count.
  replace (PAT_lastPAT s1) with (PAT_lastPAT s) by now destruct s.
  replace (PMT_lastPMT s1) with (PMT_lastPMT s) by now destruct s.
  replace (M3U8_End_Sequence_Number s1) with (M3U8_End_Sequence_Number s0)
    by now destruct s.
  reflexivity. }
replace (M3U8_Initial_IDR_Detected s0) with (M3U8_Initial_IDR_Detected s)
  by now destruct s.
assert (Hother : exists s' fired,
           (if M3U8_Initial_IDR_Detected s0
            then lift (M3U8_Add_Packet s0 (packet a)) else ret s0) = Some (s', fired)
           /\ Advances s0 s' fired
           /\ M3U8_End_Sequence_Number s' = M3U8_End_Sequence_Number s0 + 0)
  by (apply other_packet_spec, W0).
replace (M3U8_Initial_IDR_Detected s0) with (M3U8_Initial_IDR_Detected s) in Hother
  by now destruct s.
destruct (pid_is pid (PMT_PCRPid s)); exact Hother.
Qed.

Lemma _write_spec (chunk : list Arrival) (s : TSFragmenter) :
WF s ->
exists s' fired,
  _write s chunk = Some (s', fired)
  /\ Advances s s' fired
  /\ M3U8_End_Sequence_Number s'
     = M3U8_End_Sequence_Number s + created_by_chunk s chunk.
Proof.
unfold _write. revert s. induction chunk as [|a chunk IH]; intros s W; simpl.
- exists s, []. split; [reflexivity|]. split; [apply Advances_refl, W | lia].
- destruct (write_packet_spec s a W) as (s1 & f1 & E1 & A1 & End1).
  destruct (IH s1 (Adv_WF _ _ _ A1)) as (s2 & f2 & E2 & A2 & End2).
  exists s2, (f1 ++ f2). split; [exact (bind_Some _ _ _ _ _ _ E1 E2)|].
  split; [eapply Advances_trans; eauto|].
  rewrite E1, End2, End1. lia.
Qed.

Lemma addSegmentCallback_spec (s : TSFragmenter) (msn : Z) (cb : Callback) :
WF s ->
WF (fst (addSegmentCallback s msn cb))
/\ Appends s (fst (addSegmentCallback s msn cb))
/\ forall c, Nat.eqb cb c = false -> Evolves c s (fst (addSegmentCallback s msn cb)) [].
Proof.
intros W. unfold addSegmentCallback.
destruct (M3U8_Get_Segment s msn) as [seg|] eqn:E; simpl.
- unfold M3U8_Get_Segment in E. destruct (negb (inRangeSegment s msn)); [discriminate|].
  destruct (array_get_split _ _ _ E) as (init & rest & Es & -> & _).
  rewrite Es, array_set_app.
  split; [|split].
  + eapply WF_replace_at; eauto.
  + apply Appends_set_M3U8_Segments.
  + intros c Hc. apply Evolves_of_array; try now destruct s.
    rewrite M3U8_Segments_set, Es. apply Array_evolves_replace_at.
    * intros part p H. exists p. auto.
    * unfold Segment_count. simpl. rewrite Partial_count_addCallback, Hc. lia.
- split; [exact W|]. split; [apply Appends_refl|]. intros c _. apply Evolves_refl.
Qed.

Lemma lookup_partial_split (s : TSFragmenter) (msn part : Z) (p : PartialSegment.t) :
lookup_partial s msn part = Some p ->
exists init seg rest pinit prest,
  M3U8_Segments s = init ++ seg :: rest
  /\ Segment.parts seg = pinit ++ p :: prest
  /\ Z.to_nat (msn - M3U8_Begin_Sequence_Number s) = List.length init
  /\ Z.to_nat part = List.length pinit
  /\ 0 <= part
  /\ M3U8_Begin_Sequence_Number s <= msn < M3U8_End_Sequence_Number s.
Proof.
intros H. apply lookup_partial_in in H. destruct H as [R H].
unfold lookup_in in H.
destruct (array_get (M3U8_Segments s) (msn - M3U8_Begin_Sequence_Number s))
  as [seg|] eqn:E; [|discriminate].
destruct (array_get_split _ _ _ E) as (init & rest & Es & Ei & _).
destruct (array_get_split _ _ _ H) as (pinit & prest & Ep & Epi & Hp).
exists init, seg, rest, pinit, prest. auto 10.
Qed.

Lemma array_get_middle {A : Type} (init rest : list A) (x : A) (i : Z) :
0 <= i -> Z.to_nat i = List.length init -> array_get (init ++ x :: rest) i = Some x.
Proof.
intros H0 H. unfold array_get. destruct (Z.ltb_spec i 0); [lia|].
rewrite H, nth_error_app2, Nat.sub_diag by lia. reflexivity.
Qed.

Lemma addPartialCallback_exact (s : TSFragmenter) (msn part : Z) (cb : Callback)
  (init rest : list Segment.t) (seg : Segment.t)
  (pinit prest : list PartialSegment.t) (p : PartialSegment.t) :
M3U8_Segments s = init ++ seg :: rest ->
Segment.parts seg = pinit ++ p :: prest ->
Z.to_nat (msn - M3U8_Begin_Sequence_Number s) = List.length init ->
Z.to_nat part = List.length pinit ->
0 <= part ->
M3U8_Begin_Sequence_Number s <= msn < M3U8_End_Sequence_Number s ->
addPartialCallback s msn part cb
= Some (set_M3U8_Segments s
          (init ++ Segment.mk (Segment.base seg)
                     (pinit ++ PartialSegment.addCallback p cb :: prest)
                     (Segment.programDateTime seg) :: rest),
        true).
Proof.
intros Es Ep Ei Epi Hp R.
unfold addPartialCallback, M3U8_Get_Partial, inRangePartial, inRangeSegment.
destruct (Z.ltb_spec msn (M3U8_Begin_Sequence_Number s)); [lia|].
destruct (Z.leb_spec (M3U8_End_Sequence_Number s) msn); [lia|]. simpl.
rewrite Es, (array_get_middle init rest seg) by (auto; lia).
unfold Segment.getPartial.
rewrite Ep, (array_get_middle pinit prest p) by auto.
rewrite Ei, Epi, !array_set_app. reflexivity.
Qed.

Lemma M3U8_Get_Partial_WF (s : TSFragmenter) (msn part : Z) :
WF s -> M3U8_Get_Partial s msn part = Some (lookup_partial s msn part).
Proof.
intros W. unfold M3U8_Get_Partial, inRangePartial, lookup_partial, M3U8_Get_Segment.
destruct (inRangeSegment s msn) eqn:R; simpl; [|reflexivity].
unfold inRangeSegment in R.
destruct (Z.ltb_spec msn (M3U8_Begin_Sequence_Number s)); [discriminate|].
destruct (Z.leb_spec (M3U8_End_Sequence_Number s) msn); [discriminate|].
destruct (array_get_in_range (M3U8_Segments s) (msn - M3U8_Begin_Sequence_Number s))
  as (seg & E).
{ rewrite (WF_size s W). lia. }
rewrite E. destruct (Segment.getPartial seg part) eqn:Ep; reflexivity.
Qed.

Lemma Segment_replace_part_sealed (seg : Segment.t) (pinit prest : list PartialSegment.t)
  (p p' : PartialSegment.t) :
Segment.parts seg = pinit ++ p :: prest ->
(Partial_sealed p -> Partial_sealed p') ->
Segment_sealed seg ->
Segment_sealed (Segment.mk (Segment.base seg) (pinit ++ p' :: prest)
                  (Segment.programDateTime seg)).
Proof.
intros Ep Hp (Hb & Hne & Hf). split; [exact Hb|]. simpl. split.
- destruct pinit; discriminate.
- rewrite Ep in Hf. apply Forall_app in Hf. destruct Hf as [H1 H2].
  inversion H2; subst. apply Forall_app. split; [exact H1|]. constructor; auto.
Qed.

Lemma Segment_replace_part_open (seg : Segment.t) (pinit prest : list PartialSegment.t)
  (p p' : PartialSegment.t) :
Segment.parts seg = pinit ++ p :: prest ->
(Partial_sealed p -> Partial_sealed p') ->
(Partial_open p -> Partial_open p') ->
Segment_open seg ->
Segment_open (Segment.mk (Segment.base seg) (pinit ++ p' :: prest)
                (Segment.programDateTime seg)).
Proof.
intros Ep Hs Ho (Hb & Hne & Hf). split; [exact Hb|]. simpl. split.
- destruct pinit; discriminate.
- rewrite Ep in Hf. eapply Forall_last_set; eauto.
Qed.

Lemma addPartialCallback_spec (s : TSFragmenter) (msn part : Z) (cb : Callback) :
WF s ->
exists s' ok,
  addPartialCallback s msn part cb = Some (s', ok)
  /\ WF s' /\ Appends s s'
  /\ (lookup_partial s msn part = None -> s' = s /\ ok = false)
  /\ forall c, Nat.eqb cb c = false -> Evolves c s s' [].
Proof.
intros W. destruct (lookup_partial s msn part) as [p|] eqn:E.
- destruct (lookup_partial_split _ _ _ _ E)
    as (init & seg & rest & pinit & prest & Es & Ep & Ei & Epi & Hp & R).
  rewrite (addPartialCallback_exact s msn part cb init rest seg pinit prest p)
    by assumption.
  eexists _, _. split; [reflexivity|]. split; [|split; [|split]].
  + eapply WF_replace_at; eauto.
    * apply (Segment_replace_part_sealed seg pinit prest p); auto.
    * apply (Segment_replace_part_open seg pinit prest p); auto.
  + apply Appends_set_M3U8_Segments.
  + discriminate.
  + intros c Hc. apply Evolves_of_array; try now destruct s.
    rewrite M3U8_Segments_set, Es. apply Array_evolves_replace_at.
    * intros part' q H. unfold Segment.getPartial in *. simpl. rewrite Ep in H.
      destruct (Z.eq_dec part' part) as [->|Hne].
      -- rewrite array_get_middle in * by auto. inversion H; subst q.
         exists (PartialSegment.addCallback p cb). split; [reflexivity|].
         split; [reflexivity|]. rewrite Partial_count_addCallback, Hc. lia.
      -- exists q. split; [|auto].
         pose proof (array_get_bounds _ _ _ H) as B.
         unfold array_get in *. destruct (part' <? 0); [discriminate|].
         destruct (Nat.lt_ge_cases (Z.to_nat part') (List.length pinit)) as [L|G].
         ++ rewrite nth_error_app1 in * by assumption. exact H.
         ++ rewrite nth_error_app2 in * by assumption.
            destruct (Z.to_nat part' - List.length pinit)%nat eqn:En; [lia|].
            exact H.
    * unfold Segment_count. simpl. rewrite Ep, !Parts_count_app. simpl.
      rewrite Partial_count_addCallback, Hc. lia.
- unfold addPartialCallback. rewrite (M3U8_Get_Partial_WF s msn part W), E.
  exists s, false. split; [reflexivity|]. split; [exact W|].
  split; [apply Appends_refl|]. split; [auto|]. intros c _. apply Evolves_refl.
Qed.

Lemma call_spec (s : TSFragmenter) (k : Call) :
WF s ->
exists s' fired,
  call s k = Some (s', fired)
  /\ WF s' /\ same_settings s s'
  /\ M3U8_End_Sequence_Number s' = M3U8_End_Sequence_Number s + created_by_call s k
  /\ forall c, registers c k = false -> Evolves c s s' fired.
Proof.
intros W. destruct k as [chunk|msn cb|msn part cb]; simpl.
- destruct (_write_spec chunk s W) as (s' & fired & -> & [W' S' Ev] & End').
  exists s', fired. auto.
- destruct (addSegmentCallback_spec s msn cb W) as (W' & A & Ev).
  eexists _, _. split; [reflexivity|]. split; [exact W'|].
  split; [apply same_settings_of_Frame, A|]. split; [rewrite (Ap_end _ _ A); lia|].
  exact Ev.
- destruct (addPartialCallback_spec s msn part cb W) as (s' & ok & -> & W' & A & _ & Ev).
  exists s', []. split; [reflexivity|]. split; [exact W'|].
  split; [apply same_settings_of_Frame, A|]. split; [rewrite (Ap_end _ _ A); lia|].
  exact Ev.
Qed.

Lemma run_spec (calls : list Call) (s : TSFragmenter) :
WF s ->
exists s' fired,
  run s calls = Some (s', fired)
  /\ WF s' /\ same_settings s s'
  /\ M3U8_End_Sequence_Number s' = M3U8_End_Sequence_Number s + created_by_run s calls
  /\ forall c, forallb (fun k => negb (registers c k)) calls = true ->
               Evolves c s s' fired.
Proof.
unfold run. revert s. induction calls as [|k calls IH]; intros s W; simpl.
- exists s, []. split; [reflexivity|]. split; [exact W|].
  split; [apply same_settings_refl|]. split; [lia|]. intros c _. apply Evolves_refl.
- destruct (call_spec s k W) as (s1 & f1 & E1 & W1 & S1 & End1 & Ev1).
  destruct (IH s1 W1) as (s2 & f2 & E2 & W2 & S2 & End2 & Ev2).
  exists s2, (f1 ++ f2). split; [exact (bind_Some _ _ _ _ _ _ E1 E2)|].
  split; [exact W2|]. split; [eapply same_settings_trans; eauto|]. split.
  + rewrite E1, End2, End1. lia.
  + intros c H. apply andb_true_iff in H. destruct H as [H1 H2].
    apply negb_true_iff in H1. eapply Evolves_trans; eauto.
Qed.

Lemma Reachable_WF (s : TSFragmenter) : Reachable s -> WF s.
Proof.
induction 1 as [options|s k s' fired _ IH E].
- apply WF_new.
- destruct (call_spec s k IH) as (s1 & f1 & E1 & W1 & _).
  rewrite E in E1. now inversion E1.
Qed.

Lemma Reachable_run (s : TSFragmenter) (calls : list Call) (s' : TSFragmenter)
  (fired : list Callback) :
Reachable s -> run s calls = Some (s', fired) -> Reachable s'.
Proof.
unfold run. revert s fired. induction calls as [|k calls IH]; intros s fired R; simpl.
- intros E. inversion E; subst. exact R.
- unfold bind. destruct (call s k) as [[s1 f1]|] eqn:E1; [|discriminate].
  destruct (forEachEff call calls s1) as [[s2 f2]|] eqn:E2; [|discriminate].
  intros E. inversion E; subst. eapply IH; [|exact E2].
  eapply Reachable_call; eauto.
Qed.

End Facts.


(** ** The model on concrete streams *)

Example test_sections_have_valid_checksums :
  crc32 test_PAT = 0 /\ crc32 test_PAT_two_programs = 0 /\ crc32 test_PMT = 0.
Proof. repeat split; vm_compute; reflexivity. Qed.

Example test_packets_have_188_bytes :
  List.length (test_packet 0x101 3) = 188%nat
  /\ map (@List.length byte)
       (TSSectionPacketizer_packetize (Collaborators := plain_lib) test_PMT false false 0x100 0 0)
     = [188%nat].
Proof. split; vm_compute; reflexivity. Qed.

Example analyzer_reads_PTS_and_IDR :
  PES_pts (lib := plain_lib) (test_PES 90000 false) = 90000
  /\ PES_pts (lib := plain_lib) (test_PES (2 ^ 33 - 1) true) = 2 ^ 33 - 1
  /\ PES_hasIDR (lib := plain_lib) (test_PES 90000 false) = false
  /\ PES_hasIDR (lib := plain_lib) (test_PES 0 true) = true.
Proof. repeat split; vm_compute; reflexivity. Qed.

Example toFixed3_rounds_to_thousandths :
  toFixed3 (81036 # 90000) = "0.900"%string
  /\ toFixed3 (243108 # 90000) = "2.701"%string
  /\ toFixed3 (27000 # 90000) = "0.300"%string
  /\ toFixed3 (3 # 1) = "3.000"%string.
Proof. repeat split; vm_compute; reflexivity. Qed.

(** The end-to-end scenario: segment 0 is sealed with two parts of one
    second and EXTINF 2.000, segment 1 is open with one preload hint. *)
Example end_to_end_playlist :
  option_map fst
    (bind (run (lib := plain_lib) (new_TSFragmenter None) test_end_to_end)
          (fun this => lift (getManifest this)))
  = Some ("#EXTM3U" ++ newline
          ++ "#EXT-X-VERSION:6" ++ newline
          ++ "#EXT-X-TARGETDURATION:2" ++ newline
          ++ "#EXT-X-PART-INF:PART-TARGET=1.000" ++ newline
          ++ "#EXT-X-SERVER-CONTROL:CAN-BLOCK-RELOAD=YES,PART-HOLD-BACK=3.000" ++ newline
          ++ "#EXT-X-MEDIA-SEQUENCE:0" ++ newline
          ++ newline
          ++ "#EXT-X-PROGRAM-DATE-TIME:2026-01-01T00:00:00.000Z" ++ newline
          ++ "#EXT-X-PART:DURATION=1.000,URI=" ++ dquote ++ "part?msn=0&part=0" ++ dquote
          ++ ",INDEPENDENT=YES" ++ newline
          ++ "#EXT-X-PART:DURATION=1.000,URI=" ++ dquote ++ "part?msn=0&part=1" ++ dquote
          ++ newline
          ++ "#EXTINF:2.000" ++ newline
          ++ "segment?msn=0" ++ newline
          ++ newline
          ++ "#EXT-X-PROGRAM-DATE-TIME:2026-01-01T00:00:00.000Z" ++ newline
          ++ "#EXT-X-PRELOAD-HINT:TYPE=PART,URI=" ++ dquote ++ "part?msn=1&part.ts=0"
          ++ dquote ++ ",INDEPENDENT=YES" ++ newline)%string.
Proof. vm_compute. reflexivity. Qed.


Section Claims.

Context {lib : Collaborators}.

(** C1. In every run with a window length N >= 0, the window holds
    end MSN - begin MSN segments, at most N, with begin MSN <= end MSN;
    the end MSN is the number K of segments created by IDR access units
    that found a cached PAT and PMT, and once K > N the window holds
    exactly N segments and its begin MSN is K - N. *)
Theorem window_holds_last_N_segments :
  forall (options : option TSFragmenterOptions.t) (calls : list Call),
    let s0 := new_TSFragmenter options in
    let N := M3U8_Segments_Length s0 in
    let K := created_by_run s0 calls in
    0 <= N ->
    exists this fired,
      run s0 calls = Some (this, fired)
      /\ M3U8_Segments_Length this = N
      /\ M3U8_End_Sequence_Number this = K
      /\ M3U8_Begin_Sequence_Number this <= M3U8_End_Sequence_Number this
      /\ array_length (M3U8_Segments this)
         = M3U8_End_Sequence_Number this - M3U8_Begin_Sequence_Number this
      /\ array_length (M3U8_Segments this) <= N
      /\ (N < K ->
          array_length (M3U8_Segments this) = N
          /\ M3U8_Begin_Sequence_Number this = K - N).
Proof.
  intros options calls s0 N K HN.
  destruct (run_spec calls s0 (WF_new options)) as (this & fired & E & W & S & End & _).
  exists this, fired. split; [exact E|].
  destruct S as (SL & _). fold N in SL.
  destruct W as [W1 W2 W3 W4 W5 W6 W7]. rewrite SL in *.
  change (M3U8_End_Sequence_Number s0) with 0 in End. fold K in End.
  assert (0 <= array_length (M3U8_Segments this)) by (unfold array_length; lia).
  repeat split; try lia.
Qed.

End Claims.

Lemma window_holds_last_N_segments_witness :
  exists this fired,
    run (lib := plain_lib) (new_TSFragmenter None) test_five_segments = Some (this, fired)
    /\ array_length (M3U8_Segments this) = 3
    /\ M3U8_Begin_Sequence_Number this = 2
    /\ M3U8_End_Sequence_Number this = 5.
Proof.
  destruct (window_holds_last_N_segments (lib := plain_lib) None test_five_segments)
    as (this & fired & E & _ & HK & _ & _ & _ & H).
  - vm_compute. discriminate.
  - exists this, fired. split; [exact E|].
    change (created_by_run (new_TSFragmenter None) test_five_segments) with 5 in *.
    change (M3U8_Segments_Length (new_TSFragmenter None)) with 3 in *.
    destruct H as [H1 H2]; [lia|]. repeat split; lia.
Defined.


Section Part_cut.

Context {lib : Collaborators}.


End Part_cut.



Section Before_live.

Context {lib : Collaborators}.



End Before_live.




(** C6 (the code departs from it). After an IDR access unit at PTS 0 and
    a part cut one second later, the playlist renders the sealed partial
    0 with the query key [part=] and the open partial 1 with the query
    key [part.ts=]. *)
Theorem preload_hint_query_key :
  getManifest test_state_one_part_cut
  = Some ("#EXTM3U" ++ newline
          ++ "#EXT-X-VERSION:6" ++ newline
          ++ "#EXT-X-TARGETDURATION:1" ++ newline
          ++ "#EXT-X-PART-INF:PART-TARGET=1.000" ++ newline
          ++ "#EXT-X-SERVER-CONTROL:CAN-BLOCK-RELOAD=YES,PART-HOLD-BACK=3.000" ++ newline
          ++ "#EXT-X-MEDIA-SEQUENCE:0" ++ newline
          ++ newline
          ++ "#EXT-X-PROGRAM-DATE-TIME:2026-01-01T00:00:00.000Z" ++ newline
          ++ "#EXT-X-PART:DURATION=1.000,URI=" ++ dquote ++ "part?msn=0&part=0" ++ dquote
          ++ ",INDEPENDENT=YES" ++ newline
          ++ "#EXT-X-PRELOAD-HINT:TYPE=PART,URI=" ++ dquote ++ "part?msn=0&part.ts=1"
          ++ dquote ++ newline)%string.
Proof. vm_compute. reflexivity. Qed.


Section Availability.

Context {lib : Collaborators}.

(** C7. In every reachable state the availability queries never fail.
    For a segment out of range, fetch returns the empty buffer,
    fulfilled is true and registering a callback returns false and
    changes nothing; for a segment in range, fulfilled tells whether it
    is sealed and fetch on an unsealed one returns the empty buffer.
    The same holds for a partial addressed by MSN and index. *)
Theorem queries_are_total :
  forall (this : TSFragmenter) (msn part : Z) (cb : Callback),
    Reachable this ->
    (inRangeSegment this msn = false ->
     getSegment this msn = []
     /\ isFulfilledSegment this msn = true
     /\ addSegmentCallback this msn cb = (this, false))
    /\ (inRangeSegment this msn = true ->
        exists segment,
          M3U8_Get_Segment this msn = Some segment
          /\ isFulfilledSegment this msn = Segment.isCompleted segment
          /\ (Segment.isCompleted segment = false -> getSegment this msn = [])
          /\ snd (addSegmentCallback this msn cb) = true)
    /\ exists inRange,
        inRangePartial this msn part = Some inRange
        /\ (inRange = false ->
            getPartial this msn part = Some []
            /\ isFulfilledPartial this msn part = Some true
            /\ addPartialCallback this msn part cb = Some (this, false))
        /\ (inRange = true ->
            exists partial,
              M3U8_Get_Partial this msn part = Some (Some partial)
              /\ isFulfilledPartial this msn part
                 = Some (PartialSegment.isCompleted partial)
              /\ (PartialSegment.isCompleted partial = false ->
                  getPartial this msn part = Some [])
              /\ exists this', addPartialCallback this msn part cb = Some (this', true)).
Proof.
  intros this msn part cb R. pose proof (Reachable_WF this R) as W.
  split; [|split].
  - intros Hr. unfold getSegment, isFulfilledSegment, addSegmentCallback, M3U8_Get_Segment.
    rewrite Hr. simpl. auto.
  - intros Hr. destruct (WF_Get_Segment this msn W Hr) as (seg & E & Hs).
    exists seg. unfold getSegment, isFulfilledSegment, addSegmentCallback. rewrite E.
    repeat split.
    intros Ho. apply (Segment_base_inv seg Hs). exact Ho.
  - pose proof (M3U8_Get_Partial_WF this msn part W) as G.
    assert (I : inRangePartial this msn part
                = Some (match lookup_partial this msn part with
                        | Some _ => true
                        | None => false
                        end)).
    { unfold M3U8_Get_Partial in G. unfold lookup_partial, M3U8_Get_Segment in *.
      destruct (inRangePartial this msn part) as [[|]|] eqn:Ei; [| |discriminate].
      - unfold inRangePartial in Ei.
        destruct (negb (inRangeSegment this msn)); [discriminate|].
        destruct (array_get (M3U8_Segments this) _) as [seg|]; [|discriminate].
        destruct (Segment.getPartial seg part); [reflexivity|discriminate].
      - unfold inRangePartial in Ei.
        destruct (negb (inRangeSegment this msn)); [reflexivity|].
        destruct (array_get (M3U8_Segments this) _) as [seg|]; [|discriminate].
        destruct (Segment.getPartial seg part); [discriminate|reflexivity]. }
    eexists. split; [exact I|].
    unfold getPartial, isFulfilledPartial. rewrite G.
    destruct (lookup_partial this msn part) as [p|] eqn:E; split; try discriminate.
    + intros _. exists p. repeat split.
      * intros Ho. f_equal. apply (WF_lookup_inv this msn part p W E). exact Ho.
      * destruct (lookup_partial_split _ _ _ _ E)
          as (init & seg & rest & pinit & prest & Es & Ep & Ei & Epi & Hp & Rg).
        eexists. eapply addPartialCallback_exact; eauto.
    + intros _. repeat split.
      destruct (addPartialCallback_spec this msn part cb W) as (s' & ok & Ea & _ & _ & H & _).
      destruct (H E) as [-> ->]. exact Ea.
Qed.

End Availability.

(** The queries on the state reached after the first IDR, for a segment
    out of range and for the open partial 0 of segment 0. *)
Lemma queries_are_total_witness :
  getSegment test_state_first_segment 7 = []
  /\ isFulfilledSegment test_state_first_segment 7 = true
  /\ inRangePartial test_state_first_segment 0 0 = Some true
  /\ isFulfilledPartial test_state_first_segment 0 0 = Some false
  /\ getPartial test_state_first_segment 0 0 = Some [].
Proof.
  assert (R : Reachable (lib := plain_lib) test_state_first_segment).
  { apply (Reachable_run (lib := plain_lib) (new_TSFragmenter None) test_first_segment
             test_state_first_segment []); [apply Reachable_new | reflexivity]. }
  destruct (queries_are_total (lib := plain_lib) test_state_first_segment 7 0 0%nat R)
    as (H1 & _ & _).
  destruct (H1 eq_refl) as (G1 & G2 & _).
  destruct (queries_are_total (lib := plain_lib) test_state_first_segment 0 0 0%nat R)
    as (_ & _ & inRange & H3 & _ & H5).
  assert (Ei : inRange = true) by (vm_compute in H3; congruence).
  destruct (H5 Ei) as (partial & G3 & G4 & G5 & _).
  assert (Ep : PartialSegment.isCompleted partial = false).
  { vm_compute in G3. inversion G3. reflexivity. }
  rewrite Ei in H3. rewrite Ep in G4. auto.
Defined.


Section Program_selection.

Context {lib : Collaborators}.

Lemma entries_from_done (PAT : Buffer) (bound begin : Z) :
  bound <= begin -> PAT_entries_from PAT bound begin = [].
Proof.
  intros H. unfold PAT_entries_from.
  replace (Z.to_nat ((bound - begin + 3) / 4)) with 0%nat; [reflexivity|].
  assert ((bound - begin + 3) / 4 <= 0); [|lia].
  apply Z.lt_succ_r. apply Z.div_lt_upper_bound; lia.
Qed.

Lemma entries_from_step (PAT : Buffer) (bound begin : Z) :
  begin < bound ->
  PAT_entries_from PAT bound begin
  = (Z.lor (Z.shiftl (byte_at PAT (begin + 0)) 8) (byte_at PAT (begin + 1)),
     Z.lor (Z.shiftl (Z.land (byte_at PAT (begin + 2)) 0x1F) 8) (byte_at PAT (begin + 3)))
      :: PAT_entries_from PAT bound (begin + 4).
Proof.
  intros H. unfold PAT_entries_from.
  replace (Z.to_nat ((bound - begin + 3) / 4))
    with (S (Z.to_nat ((bound - (begin + 4) + 3) / 4))).
  - simpl seq. rewrite <- seq_shift. cbn [map]. rewrite map_map.
    replace (begin + 4 * Z.of_nat 0 + 0) with (begin + 0) by lia.
    replace (begin + 4 * Z.of_nat 0 + 1) with (begin + 1) by lia.
    replace (begin + 4 * Z.of_nat 0 + 2) with (begin + 2) by lia.
    replace (begin + 4 * Z.of_nat 0 + 3) with (begin + 3) by lia.
    f_equal. apply map_ext. intros k.
    replace (begin + 4 * Z.of_nat (S k)) with (begin + 4 + 4 * Z.of_nat k) by lia.
    reflexivity.
  - replace (bound - begin + 3) with (bound - (begin + 4) + 3 + 1 * 4) by lia.
    rewrite Z.div_add by lia.
    assert (0 <= (bound - (begin + 4) + 3) / 4) by (apply Z.div_pos; lia).
    lia.
Qed.

(** With enough fuel the loop visits every entry, in order. *)
Lemma PAT_loop_visits (PAT : Buffer) (TargetSID : option Z) (bound : Z) :
  forall (fuel : nat) (begin : Z) (TargetPMTPid : option Z),
    (Z.to_nat (bound - begin) <= fuel)%nat ->
    PAT_loop fuel PAT TargetSID bound begin TargetPMTPid
    = fold_left (PAT_visit TargetSID) (PAT_entries_from PAT bound begin) TargetPMTPid.
Proof.
  induction fuel as [|fuel IH]; intros begin acc Hf; simpl.
  - rewrite entries_from_done by lia. reflexivity.
  - destruct (Z.ltb_spec begin bound) as [Hlt|Hge].
    + rewrite entries_from_step by exact Hlt. simpl fold_left. unfold PAT_visit at 2.
      simpl fst. simpl snd.
      destruct (_ =? 16); apply IH; lia.
    + rewrite entries_from_done by lia. reflexivity.
Qed.

Lemma visit_first (entries : list (Z * Z)) (acc : option Z) :
  fold_left (PAT_visit None) entries acc
  = match acc with
    | Some _ => acc
    | None => option_map snd (hd_error (qualifying entries))
    end.
Proof.
  revert acc. induction entries as [|e entries IH]; intros acc; simpl.
  - now destruct acc.
  - rewrite IH. unfold PAT_visit, qualifying. simpl.
    destruct (snd e =? 16); simpl; [reflexivity|].
    now destruct acc.
Qed.

Lemma find_snoc {A : Type} (f : A -> bool) (l : list A) (x : A) :
  find f (l ++ [x])
  = match find f l with
    | Some y => Some y
    | None => if f x then Some x else None
    end.
Proof.
  induction l as [|y l IH]; simpl; [reflexivity|].
  destruct (f y); [reflexivity | exact IH].
Qed.

Lemma visit_target (sid : Z) (entries : list (Z * Z)) (acc : option Z) :
  fold_left (PAT_visit (Some sid)) entries acc
  = match find (fun e => sid =? fst e) (rev (qualifying entries)) with
    | Some e => Some (snd e)
    | None => acc
    end.
Proof.
  revert acc. induction entries as [|e entries IH]; intros acc; simpl.
  - reflexivity.
  - rewrite IH. unfold PAT_visit, qualifying. simpl.
    destruct (snd e =? 16); simpl; [reflexivity|].
    rewrite find_snoc.
    destruct (find _ (rev _)); [reflexivity|].
    now destruct (sid =? fst e).
Qed.

Lemma entries_from_PAT_entries (PAT : Buffer) :
  PAT_entries_from PAT (section_end PAT) TSSection_EXTENDED_HEADER_SIZE = PAT_entries PAT.
Proof.
  unfold PAT_entries_from, PAT_entries. apply map_ext. intros k. unfold PAT_entry.
  repeat f_equal; lia.
Qed.

Lemma PAT_loop_selects (PAT : Buffer) (TargetSID : option Z) :
  PAT_loop (Z.to_nat (section_end PAT - TSSection_EXTENDED_HEADER_SIZE)) PAT TargetSID
    (section_end PAT) TSSection_EXTENDED_HEADER_SIZE None
  = select_program TargetSID (PAT_entries PAT).
Proof.
  rewrite PAT_loop_visits by lia. rewrite entries_from_PAT_entries.
  unfold select_program. destruct TargetSID as [sid|].
  - rewrite visit_target. now destruct (find _ _).
  - now rewrite visit_first.
Qed.

(** C8 (amended). A checksum-valid PAT is cached and rebinds the PMT
    PID from scratch: the scan of its 4-byte entries, which skips the
    entries with PID 0x10, yields the entry that carries the target
    service id when the field [PAT_TargetSID] holds one, wherever the
    entry stands, and the first qualifying entry when the field is
    unset.  No constructor option sets the field: in every reachable
    state it is unset, and the PMT PID bound is that of the first
    qualifying entry. *)
Theorem PAT_binds_first_qualifying_program :
  forall (this : TSFragmenter) (PAT : Buffer),
    Reachable this ->
    TSSection_CRC32 PAT = 0 ->
    (forall TargetSID,
        PAT_loop (Z.to_nat (section_end PAT - TSSection_EXTENDED_HEADER_SIZE)) PAT
          TargetSID (section_end PAT) TSSection_EXTENDED_HEADER_SIZE None
        = select_program TargetSID (PAT_entries PAT))
    /\ PAT_TargetSID this = None
    /\ exists this',
        PAT_section this PAT = Some this'
        /\ PAT_lastPAT this' = Some PAT
        /\ PAT_TargetSID this' = None
        /\ PAT_TargetPMTPid this'
           = option_map snd (hd_error (qualifying (PAT_entries PAT))).
Proof.
  intros this PAT R Hcrc. pose proof (Reachable_WF this R) as W.
  split; [intros sid; apply PAT_loop_selects|].
  split; [apply W|].
  destruct (PAT_section_binding this PAT W Hcrc) as (this' & E & HP & HB).
  exists this'. split; [exact E|]. split; [exact HP|].
  destruct (PAT_section_spec this PAT W) as (this'' & E' & A & _).
  rewrite E in E'. inversion E'; subst this''.
  split.
  - destruct A as [_ (_ & _ & Hs & _) _]. rewrite Hs. apply W.
  - rewrite HB, PAT_loop_selects, (WF_sid this W). reflexivity.
Qed.

End Program_selection.

(** On a fresh fragmenter the PAT with the network entry, program 1 and
    program 2 binds the PMT PID of program 1. *)
Lemma PAT_binds_first_qualifying_program_witness :
  exists this',
    PAT_section (lib := plain_lib) (new_TSFragmenter None) test_PAT_two_programs = Some this'
    /\ PAT_TargetPMTPid this' = Some 0x100.
Proof.
  destruct (PAT_binds_first_qualifying_program (lib := plain_lib)
              (new_TSFragmenter None) test_PAT_two_programs)
    as (_ & _ & this' & E & _ & _ & H).
  - apply Reachable_new.
  - reflexivity.
  - exists this'. split; [exact E | exact H].
Defined.

(** C8 as stated fails: whatever options the constructor is given, the
    PAT that lists program 1 before program 2 never binds the PMT PID
    0x200 of program 2, so no option establishes a target service. *)
Lemma no_option_targets_a_service :
  ~ exists options this',
      PAT_section (lib := plain_lib) (new_TSFragmenter options) test_PAT_two_programs
      = Some this'
      /\ PAT_TargetPMTPid this' = Some 0x200.
Proof.
  intros (options & this' & E & H).
  destruct options as [[[l|] [p|]]|]; vm_compute in E; inversion E; subst this';
    discriminate H.
Qed.


Section Aggregate_duration.

Context {lib : Collaborators}.







End Aggregate_duration.




Section Registration.

Context {lib : Collaborators}.

Lemma Segments_count_middle (c : Callback) (init rest : list Segment.t) (seg : Segment.t) :
Segments_count c (init ++ seg :: rest)
= (Segments_count c init + Segment_count c seg + Segments_count c rest)%nat.
Proof.
rewrite Segments_count_app. unfold Segments_count at 2. simpl.
fold (Segments_count c rest). lia.
Qed.

Lemma Parts_count_middle (c : Callback) (pinit prest : list PartialSegment.t)
  (p : PartialSegment.t) :
list_sum (map (Partial_count c) (pinit ++ p :: prest))
= (list_sum (map (Partial_count c) pinit) + Partial_count c p
   + list_sum (map (Partial_count c) prest))%nat.
Proof. rewrite Parts_count_app. simpl. lia. Qed.

(** A registration on a partial of the window counts in the window. *)
Lemma open_at_counted (c : Callback) (s : TSFragmenter) (msn part : Z) (k : nat) :
open_at c s msn part k -> (k <= Window_count c s)%nat.
Proof.
intros (p & E & _ & <-).
destruct (lookup_partial_split _ _ _ _ E)
  as (init & seg & rest & pinit & prest & Es & Ep & _).
unfold Window_count. fold (Segments_count c (M3U8_Segments s)).
rewrite Es, Segments_count_middle. unfold Segment_count at 1.
rewrite Ep, Parts_count_middle. lia.
Qed.

Lemma isFulfilledPartial_WF (s : TSFragmenter) (msn part : Z) :
WF s ->
isFulfilledPartial s msn part
= Some (match lookup_partial s msn part with
        | Some p => PartialSegment.isCompleted p
        | None => true
        end).
Proof.
intros W. unfold isFulfilledPartial. rewrite (M3U8_Get_Partial_WF s msn part W).
now destruct (lookup_partial s msn part).
Qed.

Lemma open_at_unfulfilled (c : Callback) (s : TSFragmenter) (msn part : Z) (k : nat) :
WF s -> open_at c s msn part k -> isFulfilledPartial s msn part = Some false.
Proof.
intros W (p & E & Ho & _). rewrite (isFulfilledPartial_WF s msn part W), E.
now rewrite Ho.
Qed.

Lemma closed_at_fulfilled (s : TSFragmenter) (msn part : Z) :
WF s -> closed_at s msn part -> isFulfilledPartial s msn part = Some true.
Proof.
intros W [H|(p & E & Hc)]; rewrite (isFulfilledPartial_WF s msn part W).
- destruct (lookup_partial s msn part) as [p|] eqn:E; [|reflexivity].
  apply lookup_partial_in in E. lia.
- rewrite E. now rewrite Hc.
Qed.

(** What a step that does not register [c] does to its registration. *)
Lemma Pending_step (c : Callback) (s s' : TSFragmenter) (msn part : Z)
  (fired : list Callback) :
Evolves c s s' fired ->
Pending c s msn part ->
(Pending c s' msn part /\ fired_count c fired = 0%nat)
\/ (Done c s' msn part /\ fired_count c fired = 1%nat).
Proof.
intros [Hc Hs Ho] [Hopen Hw]. rewrite Hw in Hc.
destruct (Ho _ _ _ Hopen) as [H|[H K]].
- left. pose proof (open_at_counted _ _ _ _ _ H). split; [split; [exact H|]|]; lia.
- right. split; [split; [exact H|]|]; lia.
Qed.

Lemma Done_step (c : Callback) (s s' : TSFragmenter) (msn part : Z)
  (fired : list Callback) :
Evolves c s s' fired ->
Done c s msn part ->
Done c s' msn part /\ fired_count c fired = 0%nat.
Proof.
intros [Hc Hs Ho] [Hclosed Hw]. rewrite Hw in Hc.
split; [split; [auto|]|]; lia.
Qed.

(** Registering a new callback on an open partial. *)
Lemma addPartialCallback_Pending (c : Callback) (s : TSFragmenter) (msn part : Z) :
WF s ->
isFulfilledPartial s msn part = Some false ->
Window_count c s = 0%nat ->
exists s', addPartialCallback s msn part c = Some (s', true)
           /\ WF s' /\ Pending c s' msn part.
Proof.
intros W Hf Hw. rewrite (isFulfilledPartial_WF s msn part W) in Hf.
destruct (lookup_partial s msn part) as [p|] eqn:E; [|discriminate].
inversion Hf as [Hp]. clear Hf.
destruct (lookup_partial_split _ _ _ _ E)
  as (init & seg & rest & pinit & prest & Es & Ep & Ei & Epi & H0 & Rg).
rewrite (addPartialCallback_exact s msn part c init rest seg pinit prest p)
  by assumption.
set (seg' := Segment.mk (Segment.base seg)
               (pinit ++ PartialSegment.addCallback p c :: prest)
               (Segment.programDateTime seg)).
eexists. split; [reflexivity|].
assert (Hcount : Segments_count c (init ++ seg :: rest) = 0%nat).
{ rewrite <- Es. exact Hw. }
rewrite Segments_count_middle in Hcount. unfold Segment_count in Hcount at 1.
rewrite Ep, Parts_count_middle in Hcount.
split; [|split].
- eapply WF_replace_at; eauto.
  + apply (Segment_replace_part_sealed seg pinit prest p); auto.
  + apply (Segment_replace_part_open seg pinit prest p); auto.
- exists (PartialSegment.addCallback p c).
  split; [|split; [exact Hp|]].
  + rewrite lookup_partial_out by exact Rg.
    unfold lookup_in.
    cbn [M3U8_Segments M3U8_Begin_Sequence_Number set_M3U8_Segments set_M3U8].
    rewrite (array_get_middle init rest seg') by (auto; lia).
    unfold Segment.getPartial. simpl.
    apply array_get_middle; auto.
  + rewrite Partial_count_addCallback, Nat.eqb_refl. lia.
- unfold Window_count. cbn [M3U8_Segments set_M3U8_Segments set_M3U8].
  fold (Segments_count c (init ++ seg' :: rest)).
  rewrite Segments_count_middle. unfold Segment_count at 1. simpl.
  rewrite Parts_count_middle, Partial_count_addCallback, Nat.eqb_refl. lia.
Qed.

Lemma run_app (a b : list Call) (s : TSFragmenter) :
run s (a ++ b) = bind (run s a) (fun s' => run s' b).
Proof.
unfold run. revert s. induction a as [|k a IH]; intros s; cbn [app forEachEff].
- now rewrite bind_ret_l.
- rewrite bind_assoc. apply bind_ext. exact IH.
Qed.

(** C10. A new callback registered on an in-range partial that is
  still open is invoked exactly once, by the call during which that
  partial is sealed: in every run that follows the registration
  (without registering the same callback again), no call fires it
  while the partial stays open, the call after which the partial is
  no longer open fires it once, and no later call fires it. *)
Theorem callback_fires_once_at_sealing :
forall (this : TSFragmenter) (msn part : Z) (c : Callback) (calls : list Call),
  Reachable this ->
  isFulfilledPartial this msn part = Some false ->
  Window_count c this = 0%nat ->
  forallb (fun k => negb (registers c k)) calls = true ->
  exists registered,
    addPartialCallback this msn part c = Some (registered, true)
    /\ forall before k after,
        calls = before ++ k :: after ->
        exists sa fa sb fk sc fc,
          run registered before = Some (sa, fa)
          /\ call sa k = Some (sb, fk)
          /\ run sb after = Some (sc, fc)
          /\ run registered calls = Some (sc, fa ++ fk ++ fc)
          /\ (isFulfilledPartial sb msn part = Some false ->
              isFulfilledPartial sa msn part = Some false
              /\ fired_count c fa = 0%nat
              /\ fired_count c fk = 0%nat)
          /\ (isFulfilledPartial sa msn part = Some false ->
              isFulfilledPartial sb msn part = Some true ->
              fired_count c fa = 0%nat
              /\ fired_count c fk = 1%nat
              /\ fired_count c fc = 0%nat)
          /\ (isFulfilledPartial sa msn part = Some true ->
              isFulfilledPartial sb msn part = Some true
              /\ fired_count c fk = 0%nat
              /\ fired_count c fc = 0%nat)
          /\ (fired_count c (fa ++ fk ++ fc) <= 1)%nat.
Proof.
intros this msn part c calls R Hopen Hnew Hreg.
pose proof (Reachable_WF this R) as W.
destruct (addPartialCallback_Pending c this msn part W Hopen Hnew)
  as (registered & Ereg & W0 & P0).
exists registered. split; [exact Ereg|].
intros before k after ->.
rewrite forallb_app in Hreg. apply andb_true_iff in Hreg. destruct Hreg as [Hb Hka].
cbn [forallb] in Hka. apply andb_true_iff in Hka. destruct Hka as [Hk Ha].
apply negb_true_iff in Hk.
destruct (run_spec before registered W0) as (sa & fa & Ea & Wa & _ & _ & Eva).
destruct (call_spec sa k Wa) as (sb & fk & Ek & Wb & _ & _ & Evk).
destruct (run_spec after sb Wb) as (sc & fc & Ec & Wc & _ & _ & Evc).
specialize (Eva c Hb). specialize (Evk c Hk). specialize (Evc c Ha).
exists sa, fa, sb, fk, sc, fc.
split; [exact Ea|]. split; [exact Ek|]. split; [exact Ec|]. split.
{ rewrite run_app. apply (bind_Some _ _ _ _ _ _ Ea).
  change (run sa (k :: after)) with (bind (call sa k) (fun s' => run s' after)).
  apply (bind_Some _ _ _ _ _ _ Ek Ec). }
rewrite !fired_count_app.
destruct (Pending_step c _ _ msn part _ Eva P0) as [[Pa Fa]|[Da Fa]].
- (* still pending before the call *)
  pose proof (open_at_unfulfilled c sa msn part 1 Wa (proj1 Pa)) as Ia.
  destruct (Pending_step c _ _ msn part _ Evk Pa) as [[Pb Fk]|[Db Fk]].
  + pose proof (open_at_unfulfilled c sb msn part 1 Wb (proj1 Pb)) as Ib.
    destruct (Pending_step c _ _ msn part _ Evc Pb) as [[_ Fc]|[_ Fc]];
      (split; [auto|]; split; [congruence|]; split; [congruence|]; lia).
  + pose proof (closed_at_fulfilled sb msn part Wb (proj1 Db)) as Ib.
    destruct (Done_step c _ _ msn part _ Evc Db) as [_ Fc].
    split; [congruence|]. split; [auto|]. split; [congruence|]. lia.
- (* sealed before the call *)
  pose proof (closed_at_fulfilled sa msn part Wa (proj1 Da)) as Ia.
  destruct (Done_step c _ _ msn part _ Evk Da) as [Db Fk].
  pose proof (closed_at_fulfilled sb msn part Wb (proj1 Db)) as Ib.
  destruct (Done_step c _ _ msn part _ Evc Db) as [_ Fc].
  split; [congruence|]. split; [congruence|]. split; [auto|]. lia.
Qed.

End Registration.

(** The callback 7 registered on the open partial 0 of segment 0 is
    fired by the part cut that seals that partial, not by the next
    segment. *)
Lemma callback_fires_once_at_sealing_witness :
  exists registered sb fk sc fc,
    addPartialCallback test_state_first_segment 0 0 7%nat = Some (registered, true)
    /\ call (lib := plain_lib) registered (Call_write [test_video_arrival 4 90000 false])
       = Some (sb, fk)
    /\ run (lib := plain_lib) sb [Call_write [test_video_arrival 5 180000 true]]
       = Some (sc, fc)
    /\ fired_count 7%nat fk = 1%nat
    /\ fired_count 7%nat fc = 0%nat.
Proof.
  assert (R : Reachable (lib := plain_lib) test_state_first_segment).
  { apply (Reachable_run (lib := plain_lib) (new_TSFragmenter None) test_first_segment
             test_state_first_segment []); [apply Reachable_new | reflexivity]. }
  destruct (callback_fires_once_at_sealing (lib := plain_lib) test_state_first_segment
              0 0 7%nat test_seal_then_go_on R eq_refl eq_refl eq_refl)
    as (registered & Ereg & H).
  destruct (H [] (Call_write [test_video_arrival 4 90000 false])
              [Call_write [test_video_arrival 5 180000 true]] eq_refl)
    as (sa & fa & sb & fk & sc & fc & Ea & Ek & Ec & _ & _ & Hseal & _).
  cbn in Ea. inversion Ea; subst sa fa. clear Ea.
  exists registered, sb, fk, sc, fc.
  split; [exact Ereg|]. split; [exact Ek|]. split; [exact Ec|].
  assert (Ia : isFulfilledPartial registered 0 0 = Some false).
  { vm_compute in Ereg. inversion Ereg. reflexivity. }
  assert (Ib : isFulfilledPartial sb 0 0 = Some true).
  { vm_compute in Ereg. inversion Ereg; subst registered.
    vm_compute in Ek. inversion Ek. reflexivity. }
  destruct (Hseal Ia Ib) as (_ & Fk & Fc). split; assumption.
Defined.


(** * Further properties *)

(** ** The timestamp and access-unit analyzer *)

Lemma byte_at_masks (b : Buffer) (i : Z) :
  let v := byte_at b i in
  Z.shiftr (Z.land v 0x0E) 1 = (v / 2) mod 8
  /\ Z.shiftr (Z.land v 0xFF) 0 = v
  /\ Z.shiftr (Z.land v 0xFE) 1 = v / 2
  /\ 0 <= v < 256.
Proof.
  pose proof (byte_at_forall
    (fun v => (Z.shiftr (Z.land v 0x0E) 1 =? (v / 2) mod 8)
              && (Z.shiftr (Z.land v 0xFF) 0 =? v)
              && (Z.shiftr (Z.land v 0xFE) 1 =? v / 2)
              && (0 <=? v) && (v <? 256))
    eq_refl ltac:(intros x; destruct x; reflexivity) b i) as H.
  cbv beta in H. repeat (apply andb_true_iff in H; destruct H as [H ?]).
  cbv zeta. rewrite Z.eqb_eq in *. rewrite Z.leb_le, Z.ltb_lt in *. auto.
Qed.

Lemma byte_differs_false (b : Buffer) (i v : Z) :
  byte_differs b i v = false ->
  0 <= i < Buffer_length b /\ byte_at b i = v.
Proof.
  unfold byte_differs, byte_at, Buffer_length.
  destruct (Z.ltb_spec i 0); [discriminate|].
  destruct (nth_error b (Z.to_nat i)) eqn:E; [|discriminate].
  intros Hv. apply negb_false_iff, Z.eqb_eq in Hv.
  assert (Hn : nth_error b (Z.to_nat i) <> None) by congruence.
  apply nth_error_Some in Hn. split; [lia | exact Hv].
Qed.

Lemma byte_differs_in_range (b : Buffer) (i v : Z) :
  0 <= i < Buffer_length b ->
  byte_differs b i v = negb (byte_at b i =? v).
Proof.
  unfold byte_differs, byte_at, Buffer_length. intros Hi.
  destruct (Z.ltb_spec i 0); [lia|].
  destruct (nth_error b (Z.to_nat i)) eqn:E; [reflexivity|].
  apply nth_error_None in E. lia.
Qed.

Section Analyzer.

Context {lib : Collaborators}.

(** X1. The analyzer recovers the timestamp from its five-byte field:
    whatever the prefix and the marker bits are, a payload that carries
    the 33-bit value [pts] in the PTS field yields [pts]. *)
Theorem PES_pts_reads_the_PTS_field (VideoPES : Buffer) (prefix m0 m1 m2 pts : Z) :
  PTS_domain pts ->
  0 <= m0 <= 1 -> 0 <= m1 <= 1 -> 0 <= m2 <= 1 ->
  (forall k, (k < 5)%nat ->
             byte_at VideoPES (TSPES_PES_HEADER_SIZE + 3 + Z.of_nat k)
             = nth k (PTS_field prefix m0 m1 m2 pts) 0) ->
  PES_pts VideoPES = pts.
Proof.
  intros D M0 M1 M2 H. unfold PES_pts.
  pose proof (H 0%nat ltac:(lia)) as H0. pose proof (H 1%nat ltac:(lia)) as H1.
  pose proof (H 2%nat ltac:(lia)) as H2. pose proof (H 3%nat ltac:(lia)) as H3.
  pose proof (H 4%nat ltac:(lia)) as H4. clear H.
  cbn [nth PTS_field Z.of_nat Pos.of_succ_nat Pos.succ] in *.
  destruct (byte_at_masks VideoPES (TSPES_PES_HEADER_SIZE + 3 + 0)) as (-> & _ & _ & _).
  destruct (byte_at_masks VideoPES (TSPES_PES_HEADER_SIZE + 3 + 1)) as (_ & -> & _ & _).
  destruct (byte_at_masks VideoPES (TSPES_PES_HEADER_SIZE + 3 + 2)) as (_ & _ & -> & _).
  destruct (byte_at_masks VideoPES (TSPES_PES_HEADER_SIZE + 3 + 3)) as (_ & -> & _ & _).
  destruct (byte_at_masks VideoPES (TSPES_PES_HEADER_SIZE + 3 + 4)) as (_ & _ & -> & _).
  rewrite H0, H1, H2, H3, H4.
  change (Z.shiftl 1 3) with 8. change (Z.shiftl 1 8) with 256.
  change (Z.shiftl 1 7) with 128.
  unfold PTS_domain in D.
  change (2 ^ 33) with 8589934592 in D. change (2 ^ 30) with 1073741824.
  change (2 ^ 22) with 4194304. change (2 ^ 15) with 32768. change (2 ^ 7) with 128.
  Z.div_mod_to_equations. lia.
Qed.

(** The scan answers [true] only on an IDR NAL unit at or behind its
    position. *)
Lemma IDR_loop_sound (VideoPES : Buffer) (fuel : nat) :
  forall begin, IDR_loop fuel VideoPES begin = true ->
                exists i, begin <= i /\ NAL_at VideoPES i 5.
Proof.
  induction fuel as [|fuel IH]; intros begin; simpl; [discriminate|].
  destruct (begin <? Buffer_length VideoPES); [|discriminate].
  destruct (Buffer_length VideoPES <=? begin + 2); [discriminate|].
  assert (Hnext : IDR_loop fuel VideoPES (begin + 1) = true ->
                  exists i, begin <= i /\ NAL_at VideoPES i 5).
  { intros H. destruct (IH _ H) as (i & Hi & N). exists i. split; [lia | exact N]. }
  destruct (byte_differs VideoPES (begin + 0) 0) eqn:E0; [exact Hnext|].
  destruct (byte_differs VideoPES (begin + 1) 0) eqn:E1; [exact Hnext|].
  destruct (byte_differs VideoPES (begin + 2) 1) eqn:E2; [exact Hnext|].
  destruct (Z.leb_spec (Buffer_length VideoPES) (begin + 3)); [discriminate|].
  destruct (Z.eqb_spec (Z.land (byte_at VideoPES (begin + 3)) 31) 5) as [E5|_].
  - intros _. exists begin. split; [lia|].
    apply byte_differs_false in E0, E1, E2.
    rewrite Z.add_0_r in E0. unfold NAL_at. intuition lia.
  - intros Hrec. destruct (IH _ Hrec) as (i & Hi & N). exists i. split; [lia | exact N].
Qed.

(** The scan finds the IDR NAL unit at [i] from any position [begin]
    at or before it, when no NAL unit in between has a zero header
    byte. *)
Lemma IDR_loop_complete (VideoPES : Buffer) (start i : Z) :
  NAL_at VideoPES i 5 ->
  (forall j t, start <= j < i -> NAL_at VideoPES j t -> byte_at VideoPES (j + 3) <> 0) ->
  forall fuel begin,
    0 <= begin -> start <= begin <= i -> (Z.to_nat (i - begin) < fuel)%nat ->
    IDR_loop fuel VideoPES begin = true.
Proof.
  intros N Hclean. pose proof N as (Hi0 & Hi3 & Ni0 & Ni1 & Ni2 & Ni5).
  induction fuel as [|fuel IH]; intros begin H0 Hb Hf; [lia|]. simpl.
  destruct (Z.ltb_spec begin (Buffer_length VideoPES)); [|lia].
  destruct (Z.leb_spec (Buffer_length VideoPES) (begin + 2)); [lia|].
  rewrite !byte_differs_in_range by lia. rewrite Z.add_0_r.
  destruct (Z.eq_dec begin i) as [->|Hne].
  - rewrite Ni0, Ni1, Ni2. simpl.
    destruct (Z.leb_spec (Buffer_length VideoPES) (i + 3)); [lia|].
    rewrite Ni5. reflexivity.
  - assert (Hstep : IDR_loop fuel VideoPES (begin + 1) = true) by (apply IH; lia).
    destruct (Z.eqb_spec (byte_at VideoPES begin) 0) as [B0|_]; [|exact Hstep].
    destruct (Z.eqb_spec (byte_at VideoPES (begin + 1)) 0) as [B1|_]; [|exact Hstep].
    destruct (Z.eqb_spec (byte_at VideoPES (begin + 2)) 1) as [B2|_]; [|exact Hstep].
    simpl. destruct (Z.leb_spec (Buffer_length VideoPES) (begin + 3)); [lia|].
    destruct (Z.land (byte_at VideoPES (begin + 3)) 31 =? 5); [reflexivity|].
    assert (B3 : byte_at VideoPES (begin + 3) <> 0).
    { apply (Hclean begin (Z.land (byte_at VideoPES (begin + 3)) 31)); [lia|].
      unfold NAL_at. intuition lia. }
    assert (i <> begin + 1).
    { intros ->. replace (begin + 1 + 1) with (begin + 2) in Ni1 by lia. lia. }
    assert (i <> begin + 2) by (intros ->; lia).
    assert (i <> begin + 3) by (intros ->; lia).
    apply IH; lia.
Qed.

(** X2. IDR detection is sound: an access unit is taken for an IDR
    access unit only if its payload holds, at or behind the position
    where the scan begins, a start code 00 00 01 followed by a NAL
    header of type 5. *)
Theorem hasIDR_only_on_an_IDR_NAL_unit (VideoPES : Buffer) :
  PES_hasIDR VideoPES = true ->
  exists i, scan_begin VideoPES <= i /\ NAL_at VideoPES i 5.
Proof.
  unfold PES_hasIDR, scan_begin. cbv zeta.
  destruct (_ || _); [discriminate|]. apply IDR_loop_sound.
Qed.

(** X3. IDR detection is complete up to NAL units with a zero header
    byte: an IDR NAL unit behind the scan position is found when every
    NAL unit before it has a non-zero header byte.  (After a start
    code the scan skips four bytes, so that a start code beginning in
    the header byte of the NAL unit before is stepped over.) *)
Theorem hasIDR_finds_the_IDR_NAL_unit (VideoPES : Buffer) (i : Z) :
  0 <= TSPES_PES_HEADER_SIZE + 2 ->
  scan_begin VideoPES <= i ->
  NAL_at VideoPES i 5 ->
  (forall j t, scan_begin VideoPES <= j < i -> NAL_at VideoPES j t ->
               byte_at VideoPES (j + 3) <> 0) ->
  PES_hasIDR VideoPES = true.
Proof.
  intros H0 Hi N Hclean. unfold PES_hasIDR. cbv zeta.
  pose proof N as (_ & Hi3 & _).
  destruct (byte_at_masks VideoPES (TSPES_PES_HEADER_SIZE + 2)) as (_ & _ & _ & Hb).
  cbv zeta in Hb. unfold scan_begin in *.
  destruct (Z.ltb_spec (TSPES_PES_HEADER_SIZE + 2) 0); [lia|].
  destruct (Z.leb_spec (Buffer_length VideoPES) (TSPES_PES_HEADER_SIZE + 2)); [lia|].
  simpl. apply (IDR_loop_complete VideoPES _ i N Hclean); lia.
Qed.

End Analyzer.

Lemma PES_pts_reads_the_PTS_field_witness :
  PES_pts (lib := plain_lib) (test_PES 243108 true) = 243108.
Proof.
  apply (PES_pts_reads_the_PTS_field (lib := plain_lib) (test_PES 243108 true)
           2 1 1 1 243108).
  - unfold PTS_domain. lia.
  - lia.
  - lia.
  - lia.
  - intros k Hk. do 5 (destruct k as [|k]; [reflexivity|]). lia.
Defined.

Lemma hasIDR_only_on_an_IDR_NAL_unit_witness :
  exists i, scan_begin (lib := plain_lib) (test_PES 243108 true) <= i
            /\ NAL_at (test_PES 243108 true) i 5.
Proof.
  apply (hasIDR_only_on_an_IDR_NAL_unit (lib := plain_lib) (test_PES 243108 true)).
  reflexivity.
Defined.

Lemma hasIDR_finds_the_IDR_NAL_unit_witness :
  PES_hasIDR (lib := plain_lib) (test_PES 243108 true) = true.
Proof.
  apply (hasIDR_finds_the_IDR_NAL_unit (lib := plain_lib) (test_PES 243108 true) 14).
  - simpl. lia.
  - vm_compute. discriminate.
  - unfold NAL_at. vm_compute. intuition (try discriminate; try reflexivity).
  - intros j t Hj (_ & _ & B & _).
    assert (E : scan_begin (lib := plain_lib) (test_PES 243108 true) = 13) by reflexivity.
    rewrite E in Hj. assert (j = 13) by lia. subst j. vm_compute in B. discriminate.
Defined.

(** A start code that begins in the zero header byte of the NAL unit
    before it is stepped over. *)
Example IDR_behind_a_zero_header_is_missed :
  PES_hasIDR (lib := plain_lib)
    (bytes [0; 0; 1; 0xE0; 0; 0; 0x80; 0x00; 0; 0; 0; 1; 0; 0; 1; 0x65; 0xAA]) = false.
Proof. reflexivity. Qed.


(** ** The stream map demuxer *)

Lemma PMT_ES_info_length_nonneg (PMT : Buffer) (b : Z) : 0 <= PMT_ES_info_length PMT b.
Proof.
  unfold PMT_ES_info_length.
  destruct (byte_at_masks PMT (b + 3)) as (_ & _ & _ & H3).
  destruct (byte_at_masks PMT (b + 4)) as (_ & _ & _ & H4).
  cbv zeta in *. apply Z.lor_nonneg. split; [|lia].
  apply Z.shiftl_nonneg, Z.land_nonneg. lia.
Qed.

Lemma PMT_stream_bounds (PMT : Buffer) (bound start b : Z) :
  PMT_stream PMT bound start b -> start <= b < bound.
Proof.
  induction 1 as [Hs|b Hb IH Hn]; [lia|].
  pose proof (PMT_ES_info_length_nonneg PMT b). lia.
Qed.

Lemma PMT_stream_inv (PMT : Buffer) (bound start b : Z) :
  PMT_stream PMT bound start b ->
  b = start
  \/ PMT_stream PMT bound (start + (5 + PMT_ES_info_length PMT start)) b.
Proof.
  induction 1 as [Hs|b Hb IH Hn]; [now left|]. right.
  destruct IH as [->|IH].
  - now apply PMT_stream_first.
  - now apply PMT_stream_next.
Qed.

Lemma PMT_stream_shift (PMT : Buffer) (bound start b : Z) :
  start < bound ->
  PMT_stream PMT bound (start + (5 + PMT_ES_info_length PMT start)) b ->
  PMT_stream PMT bound start b.
Proof.
  intros Hs. induction 1 as [Hn|b Hb IH Hn].
  - apply PMT_stream_next; [now apply PMT_stream_first | exact Hn].
  - now apply PMT_stream_next.
Qed.

Lemma PMT_loop_bound (PMT : Buffer) (bound : Z) (fuel : nat) :
  forall begin v, PMT_loop fuel PMT bound begin (Some v) = Some v.
Proof.
  induction fuel as [|fuel IH]; intros begin v; simpl; [reflexivity|].
  destruct (begin <? bound); [apply IH | reflexivity].
Qed.

(** With enough fuel the loop over the stream entries returns the PID
    of the first AVC stream. *)
Lemma PMT_loop_first_AVC (PMT : Buffer) (bound : Z) (fuel : nat) :
  forall begin,
    (Z.to_nat (bound - begin) <= fuel)%nat ->
    match PMT_loop fuel PMT bound begin None with
    | Some v => exists b, first_AVC_stream PMT bound begin b
                          /\ PMT_elementary_PID PMT b = v
    | None => no_AVC_stream PMT bound begin
    end.
Proof.
  induction fuel as [|fuel IH]; intros begin Hf.
  - simpl. intros b Hb. apply PMT_stream_bounds in Hb. lia.
  - cbn [PMT_loop]. destruct (Z.ltb_spec begin bound) as [Hlt|Hge].
    + cbv zeta. pose proof (PMT_ES_info_length_nonneg PMT begin) as Hlen.
      fold (PMT_ES_info_length PMT begin).
      destruct (Z.eqb_spec (byte_at PMT (begin + 0)) 27) as [Eavc|Eavc].
      * rewrite PMT_loop_bound. exists begin. split; [|reflexivity].
        split; [now apply PMT_stream_first|]. split; [exact Eavc|].
        intros b' Hb' Hlt'. apply PMT_stream_bounds in Hb'. lia.
      * specialize (IH (begin + (5 + PMT_ES_info_length PMT begin)) ltac:(lia)).
        destruct (PMT_loop fuel PMT bound _ None) as [v|].
        -- destruct IH as (b & (Hb & Ht & Hfirst) & Hv). exists b. split; [|exact Hv].
           split; [apply PMT_stream_shift; assumption|]. split; [exact Ht|].
           intros b' Hb' Hlt'. destruct (PMT_stream_inv _ _ _ _ Hb') as [->|Hb''].
           ++ exact Eavc.
           ++ now apply Hfirst.
        -- intros b Hb. destruct (PMT_stream_inv _ _ _ _ Hb) as [->|Hb'].
           ++ exact Eavc.
           ++ now apply IH.
    + intros b Hb. apply PMT_stream_bounds in Hb. lia.
Qed.

Section Stream_map.

Context {lib : Collaborators}.

(** X4. A checksum-valid PMT is cached, the PCR PID is read from its
    header, and the video PID is bound to the elementary PID of the
    first stream entry of type 0x1b (AVC video), whatever the other
    entries and their descriptors are; without such an entry the video
    PID is unset. *)
Theorem PMT_binds_the_first_AVC_stream (s : TSFragmenter) (PMT : Buffer) :
  WF s -> TSSection_CRC32 PMT = 0 ->
  exists s', PMT_section s PMT = Some s'
             /\ PMT_lastPMT s' = Some PMT
             /\ PMT_PCRPid s' = Some (PMT_PCR_PID PMT)
             /\ match PMT_VideoPid s' with
                | Some v =>
                    exists b, first_AVC_stream PMT (section_end PMT)
                                (PMT_streams_begin PMT) b
                              /\ PMT_elementary_PID PMT b = v
                | None => no_AVC_stream PMT (section_end PMT) (PMT_streams_begin PMT)
                end.
Proof.
  intros W Hcrc. unfold PMT_section. rewrite Hcrc. cbn [Z.eqb negb]. cbv iota.
  fold (PMT_PCR_PID PMT). fold (PMT_streams_begin PMT).
  set (videoPid := PMT_loop _ _ _ _ _).
  pose proof (PMT_loop_first_AVC PMT (section_end PMT)
                (Z.to_nat (section_end PMT - PMT_streams_begin PMT))
                (PMT_streams_begin PMT) (Nat.le_refl _)) as Hv.
  fold videoPid in Hv.
  set (s1 := set_PMT s (Some PMT) (PMT_Continuous_Counter s) videoPid _).
  set (s2 := if negb (M3U8_Initial_PMT_Detected s1) then _ else s1).
  assert (A2 : Advances s s2 []).
  { apply Advances_same_window; [exact W| |]; unfold s2, s1;
      simpl; destruct (M3U8_Initial_PMT_Detected s); simpl;
      repeat split; auto. }
  assert (P2 : PMT_lastPMT s2 = Some PMT /\ PMT_PCRPid s2 = Some (PMT_PCR_PID PMT)
               /\ PMT_VideoPid s2 = videoPid).
  { unfold s2, s1. simpl. now destruct (M3U8_Initial_PMT_Detected s). }
  destruct P2 as (P2 & C2 & V2).
  destruct (M3U8_Initial_IDR_Detected s2).
  - destruct (M3U8_Add_PMT_spec s2 PMT (Adv_WF _ _ _ A2)) as (s3 & -> & W3 & A3 & Ev3).
    exists s3. split; [reflexivity|].
    rewrite (Fr_pmt _ _ (Ap_frame _ _ A3)), (Fr_pcrpid _ _ (Ap_frame _ _ A3)),
      (Fr_videopid _ _ (Ap_frame _ _ A3)), V2.
    auto.
  - exists s2. rewrite V2. auto.
Qed.

End Stream_map.

Lemma PMT_binds_the_first_AVC_stream_witness :
  exists s', PMT_section (lib := plain_lib) (new_TSFragmenter None) test_PMT = Some s'
             /\ PMT_lastPMT s' = Some test_PMT
             /\ PMT_PCRPid s' = Some (PMT_PCR_PID (lib := plain_lib) test_PMT)
             /\ match PMT_VideoPid s' with
                | Some v =>
                    exists b, first_AVC_stream test_PMT
                                (section_end (lib := plain_lib) test_PMT)
                                (PMT_streams_begin (lib := plain_lib) test_PMT) b
                              /\ PMT_elementary_PID test_PMT b = v
                | None => no_AVC_stream test_PMT (section_end (lib := plain_lib) test_PMT)
                            (PMT_streams_begin (lib := plain_lib) test_PMT)
                end.
Proof.
  apply (PMT_binds_the_first_AVC_stream (lib := plain_lib) (new_TSFragmenter None) test_PMT).
  - apply WF_new.
  - reflexivity.
Defined.


(** ** The playlist renderer *)

Lemma Qmax_l (x y : Q) : (x <= Qmax x y)%Q.
Proof.
  unfold Qmax. destruct (Qle_bool x y) eqn:E; [now apply Qle_bool_iff | apply Qle_refl].
Qed.

Lemma Qmax_r (x y : Q) : (y <= Qmax x y)%Q.
Proof.
  unfold Qmax. destruct (Qle_bool x y) eqn:E; [apply Qle_refl|].
  apply Qlt_le_weak, Qnot_le_lt. intros H. apply Qle_bool_iff in H. congruence.
Qed.

Lemma Qmax_lub (x y u : Q) : (x <= u)%Q -> (y <= u)%Q -> (Qmax x y <= u)%Q.
Proof. intros Hx Hy. unfold Qmax. now destruct (Qle_bool x y). Qed.

(** What a segment adds to the maximum: [segment.getSeconds() ?? 0]. *)
Lemma fold_Qmax_bounds (f : Segment.t -> Q) (segments : list Segment.t) :
  forall max,
    let result := fold_left (fun m seg => Qmax m (f seg)) segments max in
    (max <= result)%Q
    /\ (forall seg, In seg segments -> (f seg <= result)%Q)
    /\ (forall u, (max <= u)%Q -> (forall seg, In seg segments -> (f seg <= u)%Q) ->
                  (result <= u)%Q).
Proof.
  induction segments as [|x segments IH]; intros max; simpl.
  - split; [apply Qle_refl|]. split; [intros seg []|]. intros u Hu _. exact Hu.
  - destruct (IH (Qmax max (f x))) as (H1 & H2 & H3). split; [|split].
    + eapply Qle_trans; [apply Qmax_l | exact H1].
    + intros seg [<-|Hin]; [|now apply H2].
      eapply Qle_trans; [apply Qmax_r | exact H1].
    + intros u Hu Hall. apply H3.
      * apply Qmax_lub; [exact Hu | apply Hall; now left].
      * intros seg Hin. apply Hall. now right.
Qed.

Section Renderer.

Context {lib : Collaborators}.

(** The loop of [getTargetDuration] visits the segments of the window
    in order. *)
Lemma TargetDuration_loop_fold (this : TSFragmenter) :
  forall (rest done : list Segment.t) (fuel : nat) (max : Q),
    M3U8_Segments this = done ++ rest ->
    M3U8_End_Sequence_Number this
    = M3U8_Begin_Sequence_Number this + array_length (done ++ rest) ->
    (List.length rest <= fuel)%nat ->
    TargetDuration_loop fuel this
      (M3U8_Begin_Sequence_Number this + array_length done) max
    = Some (fold_left
              (fun m seg => Qmax m (match Segment.getSeconds seg with
                                    | Some s => s
                                    | None => 0%Q
                                    end)) rest max).
Proof.
  induction rest as [|x rest IH]; intros done fuel max E End Hf.
  - destruct fuel; simpl; [reflexivity|]. rewrite app_nil_r in End.
    destruct (Z.ltb_spec (M3U8_Begin_Sequence_Number this + array_length done)
                (M3U8_End_Sequence_Number this)); [lia | reflexivity].
  - destruct fuel as [|fuel]; [simpl in Hf; lia|]. cbn [TargetDuration_loop fold_left].
    assert (Hlen : array_length (done ++ x :: rest)
                   = array_length done + 1 + array_length rest).
    { rewrite array_length_app. unfold array_length. cbn [List.length].
      rewrite Nat2Z.inj_succ. lia. }
    assert (0 <= array_length rest) by (unfold array_length; lia).
    destruct (Z.ltb_spec (M3U8_Begin_Sequence_Number this + array_length done)
                (M3U8_End_Sequence_Number this)); [|lia].
    replace (M3U8_Begin_Sequence_Number this + array_length done
             - M3U8_Begin_Sequence_Number this) with (array_length done) by lia.
    rewrite E, array_get_app_r, Z.sub_diag by lia.
    cbn [array_get Z.ltb Z.compare Z.to_nat nth_error].
    replace (M3U8_Begin_Sequence_Number this + array_length done + 1)
      with (M3U8_Begin_Sequence_Number this + array_length (done ++ [x])).
    2:{ rewrite array_length_app. change (array_length [x]) with 1. lia. }
    apply IH.
    + rewrite E, <- app_assoc. reflexivity.
    + rewrite <- app_assoc. exact End.
    + simpl in Hf. lia.
Qed.

Lemma Get_Segment_In (this : TSFragmenter) (msn : Z) (seg : Segment.t) :
  M3U8_Get_Segment this msn = Some seg -> In seg (M3U8_Segments this).
Proof.
  unfold M3U8_Get_Segment, array_get.
  destruct (negb (inRangeSegment this msn)); [discriminate|].
  destruct (_ <? 0); [discriminate|]. apply nth_error_In.
Qed.

Lemma In_Get_Segment (this : TSFragmenter) (seg : Segment.t) :
  WF this -> In seg (M3U8_Segments this) ->
  exists msn, M3U8_Get_Segment this msn = Some seg.
Proof.
  intros W Hin. apply In_nth_error in Hin. destruct Hin as (n & Hn).
  assert (Hlt : (n < List.length (M3U8_Segments this))%nat).
  { apply nth_error_Some. congruence. }
  pose proof (WF_size this W) as Hs. unfold array_length in Hs.
  exists (M3U8_Begin_Sequence_Number this + Z.of_nat n).
  unfold M3U8_Get_Segment, inRangeSegment, array_get.
  destruct (Z.ltb_spec (M3U8_Begin_Sequence_Number this + Z.of_nat n)
              (M3U8_Begin_Sequence_Number this)); [lia|].
  destruct (Z.leb_spec (M3U8_End_Sequence_Number this)
              (M3U8_Begin_Sequence_Number this + Z.of_nat n)); [lia|].
  simpl.
  destruct (Z.ltb_spec (M3U8_Begin_Sequence_Number this + Z.of_nat n
                        - M3U8_Begin_Sequence_Number this) 0); [lia|].
  replace (Z.to_nat (M3U8_Begin_Sequence_Number this + Z.of_nat n
                     - M3U8_Begin_Sequence_Number this)) with n by lia.
  exact Hn.
Qed.

(** X5. The target duration of the playlist is the least integer that
    is at least 1 and at least the duration of every sealed segment of
    the window; computing it never fails. *)
Theorem target_duration_is_the_least_bound (this : TSFragmenter) :
  Reachable this ->
  exists d,
    getTargetDuration this = Some d
    /\ 1 <= d
    /\ (forall msn seg seconds,
           M3U8_Get_Segment this msn = Some seg ->
           Segment.getSeconds seg = Some seconds ->
           (seconds <= inject_Z d)%Q)
    /\ (forall d',
           1 <= d' ->
           (forall msn seg seconds,
               M3U8_Get_Segment this msn = Some seg ->
               Segment.getSeconds seg = Some seconds ->
               (seconds <= inject_Z d')%Q) ->
           d <= d').
Proof.
  intros R. pose proof (Reachable_WF this R) as W.
  pose proof (WF_size this W) as Hs.
  unfold getTargetDuration, window_size.
  pose proof (TargetDuration_loop_fold this (M3U8_Segments this) []
                (Z.to_nat (M3U8_End_Sequence_Number this - M3U8_Begin_Sequence_Number this))
                1%Q eq_refl) as Hloop.
  change (array_length []) with 0 in Hloop. rewrite Z.add_0_r in Hloop.
  rewrite Hloop; [|simpl; lia | unfold array_length in Hs; lia]. clear Hloop.
  set (f := fun seg => match Segment.getSeconds seg with Some s => s | None => 0%Q end).
  destruct (fold_Qmax_bounds f (M3U8_Segments this) 1%Q) as (H1 & H2 & H3).
  cbv zeta in H1, H2, H3. fold f.
  set (result := fold_left (fun m seg => Qmax m (f seg)) (M3U8_Segments this) 1%Q) in *.
  exists (Qceiling result). split; [reflexivity|]. split; [|split].
  - change 1 with (Qceiling 1). now apply Qceiling_resp_le.
  - intros msn seg seconds E Es.
    eapply Qle_trans; [|apply Qle_ceiling].
    specialize (H2 seg (Get_Segment_In _ _ _ E)). unfold f in H2. now rewrite Es in H2.
  - intros d' Hd' Hall. rewrite <- (Qceiling_Z d'). apply Qceiling_resp_le.
    apply H3.
    + rewrite Zle_Qle in Hd'. exact Hd'.
    + intros seg Hin. destruct (In_Get_Segment this seg W Hin) as (msn & E).
      unfold f. destruct (Segment.getSeconds seg) as [seconds|] eqn:Es.
      * exact (Hall msn seg seconds E Es).
      * assert (H0 : 0 <= d') by lia. rewrite Zle_Qle in H0. exact H0.
Qed.

End Renderer.

(** The window after [test_three_parts]: segment 0 lasts 2.7012 s. *)
Lemma target_duration_is_the_least_bound_witness :
  exists d, getTargetDuration test_state_three_parts = Some d /\ 1 <= d.
Proof.
  assert (R : Reachable (lib := plain_lib) test_state_three_parts).
  { apply (Reachable_run (lib := plain_lib) (new_TSFragmenter None) test_three_parts
             test_state_three_parts []); [apply Reachable_new | reflexivity]. }
  destruct (target_duration_is_the_least_bound (lib := plain_lib)
              test_state_three_parts R) as (d & E & H1 & _).
  exists d. split; assumption.
Defined.


Lemma string_app_assoc (a b c : string) : ((a ++ b) ++ c = a ++ (b ++ c))%string.
Proof. induction a as [|x a IH]; simpl; [reflexivity | now rewrite IH]. Qed.

Lemma string_app_nil_r (a : string) : (a ++ EmptyString = a)%string.
Proof. induction a as [|x a IH]; simpl; [reflexivity | now rewrite IH]. Qed.



(** The loop over the partials of a segment never fails: a duration is
    asked of sealed partials only. *)
Lemma Manifest_parts_text (segment : Segment.t) (media_sequence : Z) :
  forall (rest done : list PartialSegment.t) (fuel : nat) (m3u8 : string) (extinf : Q),
    Segment.parts segment = done ++ rest ->
    (List.length rest <= fuel)%nat ->
    Manifest_parts fuel segment media_sequence (array_length done) m3u8 extinf
    = Some ((m3u8 ++ Playlist_parts media_sequence (array_length done) rest)%string,
            fold_left (fun e p => (e + rounded_seconds p)%Q)
              (filter PartialSegment.isCompleted rest) extinf).
Proof.
  induction rest as [|x rest IH]; intros done fuel m3u8 extinf E Hf.
  - cbn [Playlist_parts filter fold_left]. rewrite string_app_nil_r.
    destruct fuel; simpl; [reflexivity|].
    unfold Segment.getLength. rewrite E, app_nil_r.
    destruct (Z.ltb_spec (array_length done) (array_length done)); [lia|reflexivity].
  - destruct fuel as [|fuel]; [simpl in Hf; lia|].
    cbn [Manifest_parts]. unfold Segment.getLength, Segment.getPartial. rewrite E.
    destruct (Z.ltb_spec (array_length done) (array_length (done ++ x :: rest))) as [_|H].
    2:{ rewrite array_length_app in H. unfold array_length in H at 2. simpl in H. lia. }
    rewrite array_get_app_r, Z.sub_diag by lia.
    cbn [array_get Z.ltb Z.compare Z.to_nat nth_error].
    assert (Hnext : array_length (done ++ [x]) = array_length done + 1).
    { rewrite array_length_app. reflexivity. }
    assert (E' : Segment.parts segment = (done ++ [x]) ++ rest).
    { rewrite E, <- app_assoc. reflexivity. }
    assert (Hf' : (List.length rest <= fuel)%nat) by (simpl in Hf; lia).
    cbn [Playlist_parts filter]. unfold Playlist_part.
    assert (Hx : (PartialSegment.isCompleted x = false
                  /\ PartialSegment.getSeconds x = None)
                 \/ (exists seconds,
                        PartialSegment.isCompleted x = true
                        /\ PartialSegment.getSeconds x = Some seconds
                        /\ rounded_seconds x = parseFloat_toFixed3 seconds)).
    { unfold rounded_seconds, PartialSegment.isCompleted, PartialSegment.getSeconds.
      destruct (PartialSegment.endPTS x); [right; eauto | left; auto]. }
    destruct Hx as [(Hc & Hs)|(seconds & Hc & Hs & Hr)]; rewrite Hc, Hs;
      cbn [negb]; cbv iota; cbn [fold_left];
      rewrite <- Hnext, (IH (done ++ [x]) fuel _ _ E' Hf'), string_app_assoc, ?Hr;
      reflexivity.
Qed.

Lemma Manifest_segment_text (segment : Segment.t) (media_sequence : Z) (m3u8 : string) :
  Manifest_segment segment media_sequence m3u8
  = Some (m3u8 ++ Playlist_segment media_sequence segment)%string.
Proof.
  unfold Manifest_segment. cbv zeta.
  rewrite (Manifest_parts_text segment media_sequence (Segment.parts segment) []
             (Z.to_nat (Segment.getLength segment)) _ 0%Q eq_refl).
  2:{ unfold Segment.getLength, array_length. lia. }
  change (array_length []) with 0. unfold Playlist_segment, sum_rounded_seconds.
  destruct (Segment.isCompleted segment);
    rewrite ?string_app_assoc, ?string_app_nil_r; reflexivity.
Qed.

Section Playlist.

Context {lib : Collaborators}.

Lemma Manifest_segments_text (this : TSFragmenter) :
  forall (rest done : list Segment.t) (fuel : nat) (m3u8 : string),
    M3U8_Segments this = done ++ rest ->
    M3U8_End_Sequence_Number this
    = M3U8_Begin_Sequence_Number this + array_length (done ++ rest) ->
    (List.length rest <= fuel)%nat ->
    Manifest_segments fuel this
      (M3U8_Begin_Sequence_Number this + array_length done) m3u8
    = Some (m3u8 ++ Playlist_segments
                      (M3U8_Begin_Sequence_Number this + array_length done) rest)%string.
Proof.
  induction rest as [|x rest IH]; intros done fuel m3u8 E End Hf.
  - cbn [Playlist_segments]. rewrite string_app_nil_r.
    destruct fuel; simpl; [reflexivity|]. rewrite app_nil_r in End.
    destruct (Z.ltb_spec (M3U8_Begin_Sequence_Number this + array_length done)
                (M3U8_End_Sequence_Number this)); [lia | reflexivity].
  - destruct fuel as [|fuel]; [simpl in Hf; lia|].
    cbn [Manifest_segments Playlist_segments].
    assert (Hlen : array_length (done ++ x :: rest)
                   = array_length done + 1 + array_length rest).
    { rewrite array_length_app. unfold array_length. cbn [List.length].
      rewrite Nat2Z.inj_succ. lia. }
    assert (0 <= array_length rest) by (unfold array_length; lia).
    destruct (Z.ltb_spec (M3U8_Begin_Sequence_Number this + array_length done)
                (M3U8_End_Sequence_Number this)); [|lia].
    replace (M3U8_Begin_Sequence_Number this + array_length done
             - M3U8_Begin_Sequence_Number this) with (array_length done) by lia.
    rewrite E, array_get_app_r, Z.sub_diag by lia.
    cbn [array_get Z.ltb Z.compare Z.to_nat nth_error].
    rewrite Manifest_segment_text.
    replace (M3U8_Begin_Sequence_Number this + array_length done + 1)
      with (M3U8_Begin_Sequence_Number this + array_length (done ++ [x])).
    2:{ rewrite array_length_app. change (array_length [x]) with 1. lia. }
    rewrite (IH (done ++ [x]) fuel).
    + now rewrite string_app_assoc.
    + rewrite E, <- app_assoc. reflexivity.
    + rewrite <- app_assoc. exact End.
    + simpl in Hf. lia.
Qed.

Lemma getManifest_text (this : TSFragmenter) :
  WF this ->
  exists d,
    getTargetDuration this = Some d
    /\ getManifest this
       = Some (Playlist_header this d
                 ++ Playlist_segments (M3U8_Begin_Sequence_Number this)
                      (M3U8_Segments this))%string.
Proof.
  intros W. pose proof (WF_size this W) as Hs.
  unfold getManifest, getTargetDuration, window_size.
  pose proof (TargetDuration_loop_fold this (M3U8_Segments this) []
                (Z.to_nat (M3U8_End_Sequence_Number this - M3U8_Begin_Sequence_Number this))
                1%Q eq_refl) as Hloop.
  change (array_length []) with 0 in Hloop. rewrite Z.add_0_r in Hloop.
  rewrite Hloop; [|simpl; lia | unfold array_length in Hs; lia]. clear Hloop.
  eexists. split; [reflexivity|]. cbv zeta.
  pose proof (Manifest_segments_text this (M3U8_Segments this) []
                (Z.to_nat (M3U8_End_Sequence_Number this - M3U8_Begin_Sequence_Number this)))
    as Hloop.
  change (array_length []) with 0 in Hloop. rewrite Z.add_0_r in Hloop.
  rewrite Hloop; [|reflexivity | simpl; lia | unfold array_length in Hs; lia].
  unfold Playlist_header. rewrite !string_app_assoc. reflexivity.
Qed.

(** X6. Rendering the playlist never fails in a reachable state, and
    the playlist is the header, with the target duration and the begin
    MSN of the window, followed by one block per segment of the window
    in MSN order; a block holds the date, one line per partial in index
    order (a part line for a sealed partial, a preload hint for an open
    one) and, for a sealed segment, the duration and the URI. *)
Theorem playlist_lists_the_window (this : TSFragmenter) :
  Reachable this ->
  exists d,
    getTargetDuration this = Some d
    /\ getManifest this
       = Some (Playlist_header this d
                 ++ Playlist_segments (M3U8_Begin_Sequence_Number this)
                      (M3U8_Segments this))%string.
Proof. intros R. apply getManifest_text, Reachable_WF, R. Qed.


End Playlist.

Lemma playlist_lists_the_window_witness :
  exists d,
    getTargetDuration test_state_three_parts = Some d
    /\ getManifest test_state_three_parts
       = Some (Playlist_header test_state_three_parts d
                 ++ Playlist_segments (M3U8_Begin_Sequence_Number test_state_three_parts)
                      (M3U8_Segments test_state_three_parts))%string.
Proof.
  apply (playlist_lists_the_window (lib := plain_lib)).
  apply (Reachable_run (lib := plain_lib) (new_TSFragmenter None) test_three_parts
           test_state_three_parts []); [apply Reachable_new | reflexivity].
Defined.



(** ** Every call is a sequence of mutations *)

Lemma Mutations_WF_l (s s' : TSFragmenter) (f r : list Callback) :
  Mutations s s' f r -> WF s.
Proof. now destruct 1. Qed.

Lemma Mutations_WF_r (s s' : TSFragmenter) (f r : list Callback) :
  Mutations s s' f r -> WF s'.
Proof. induction 1; assumption. Qed.

Lemma Mutations_one (s s' : TSFragmenter) (f r : list Callback) :
  WF s -> Mutation s s' f r -> WF s' -> Mutations s s' f r.
Proof.
  intros W M W'. rewrite <- (app_nil_r f), <- (app_nil_r r).
  eapply Mutations_cons; [exact W | exact M | now apply Mutations_nil].
Qed.

Lemma Mutations_app (s1 s2 s3 : TSFragmenter) (f1 f2 r1 r2 : list Callback) :
  Mutations s1 s2 f1 r1 -> Mutations s2 s3 f2 r2 ->
  Mutations s1 s3 (f1 ++ f2) (r1 ++ r2).
Proof.
  induction 1 as [s W|s sa sb fa fb ra rb W M Ms IH]; intros H; [exact H|].
  rewrite <- !app_assoc. eapply Mutations_cons; eauto.
Qed.

Lemma Mutations_app_nil (s1 s2 s3 : TSFragmenter) (f r : list Callback) :
  Mutations s1 s2 [] [] -> Mutations s2 s3 f r -> Mutations s1 s3 f r.
Proof. intros H1 H2. exact (Mutations_app _ _ _ _ _ _ _ H1 H2). Qed.

Lemma Mutations_nil_app (s1 s2 s3 : TSFragmenter) (f r : list Callback) :
  Mutations s1 s2 f r -> Mutations s2 s3 [] [] -> Mutations s1 s3 f r.
Proof.
  intros H1 H2. rewrite <- (app_nil_r f), <- (app_nil_r r).
  exact (Mutations_app _ _ _ _ _ _ _ H1 H2).
Qed.

(** A change of fields outside the window that keeps the state
    well-formed. *)
Lemma Mutations_fields (s s' : TSFragmenter) :
  WF s -> WF s' -> same_window s s' ->
  M3U8_Segments_Length s' = M3U8_Segments_Length s ->
  M3U8_Part_Target s' = M3U8_Part_Target s ->
  Mutations s s' [] [].
Proof. intros W W' H1 H2 H3. apply Mutations_one; auto. now apply Mut_fields. Qed.

Lemma Mutations_of_Advances_fields (s s' : TSFragmenter) :
  WF s -> Advances s s' [] -> same_window s s' -> Mutations s s' [] [].
Proof.
  intros W [W' (S1 & S2 & _) _] Hw. apply Mutations_fields; auto.
Qed.

Section Traces.

Context {lib : Collaborators}.

Lemma M3U8_Add_Packet_trace (s : TSFragmenter) (pkt : Buffer) :
  WF s -> exists s', M3U8_Add_Packet s pkt = Some s' /\ Mutations s s' [] [].
Proof.
  intros W. destruct (M3U8_Add_Packet_spec s pkt W) as (s' & E & W' & _).
  exists s'. split; [exact E|].
  destruct (Z.le_gt_cases
              (M3U8_End_Sequence_Number s - M3U8_Begin_Sequence_Number s) 0) as [Hz|Hz].
  - rewrite M3U8_Add_Packet_empty in E by exact Hz. inversion E; subst.
    now apply Mutations_nil.
  - destruct (WF_view s W) as (init & lastS & pinit & lastP & Es & Ep & _ & _ & _ & _ & Hl);
      [lia|].
    rewrite (M3U8_Add_Packet_last s pkt init lastS pinit lastP) in E by assumption.
    inversion E; subst s'. apply Mutations_one; [exact W | | exact W'].
    now apply Mut_packet.
Qed.

Lemma forEach_Add_Packet_trace (packets : list Buffer) (s : TSFragmenter) :
  WF s -> exists s', forEach M3U8_Add_Packet packets s = Some s' /\ Mutations s s' [] [].
Proof.
  revert s. induction packets as [|pkt packets IH]; intros s W; simpl.
  - exists s. split; [reflexivity | now apply Mutations_nil].
  - destruct (M3U8_Add_Packet_trace s pkt W) as (s1 & -> & M1).
    destruct (IH s1 (Mutations_WF_r _ _ _ _ M1)) as (s2 & -> & M2).
    exists s2. split; [reflexivity|]. exact (Mutations_app_nil _ _ _ _ _ M1 M2).
Qed.

Lemma M3U8_Add_PAT_trace (s : TSFragmenter) (PAT : Buffer) :
  WF s -> exists s', M3U8_Add_PAT s PAT = Some s' /\ Mutations s s' [] [].
Proof.
  intros W. unfold M3U8_Add_PAT.
  set (cc := Z.land _ _). set (packets := TSSectionPacketizer_packetize _ _ _ _ _ _).
  assert (W0 : WF (set_PAT s (PAT_lastPAT s) cc (PAT_TargetPMTPid s))).
  { apply (WF_same_window s); [exact W| |]; now destruct s. }
  destruct (forEach_Add_Packet_trace packets _ W0) as (s' & -> & M').
  exists s'. split; [reflexivity|].
  refine (Mutations_app_nil _ _ _ _ _ _ M').
  apply Mutations_fields; auto; now destruct s.
Qed.

Lemma M3U8_Add_PMT_trace (s : TSFragmenter) (PMT : Buffer) :
  WF s -> exists s', M3U8_Add_PMT s PMT = Some s' /\ Mutations s s' [] [].
Proof.
  intros W. unfold M3U8_Add_PMT.
  assert (Hid : exists s', Some s = Some s' /\ Mutations s s' [] []).
  { exists s. split; [reflexivity | now apply Mutations_nil]. }
  destruct (PAT_TargetPMTPid s) as [pmtPid|]; [|exact Hid].
  destruct (pmtPid =? 0); [exact Hid|].
  set (cc := Z.land _ _). set (packets := TSSectionPacketizer_packetize _ _ _ _ _ _).
  assert (W0 : WF (set_PMT s (PMT_lastPMT s) cc (PMT_VideoPid s) (PMT_PCRPid s))).
  { apply (WF_same_window s); [exact W| |]; now destruct s. }
  destruct (forEach_Add_Packet_trace packets _ W0) as (s' & -> & M').
  exists s'. split; [reflexivity|].
  refine (Mutations_app_nil _ _ _ _ _ _ M').
  apply Mutations_fields; auto; now destruct s.
Qed.

Lemma Video_part_cut_trace (s : TSFragmenter) (pts : Z) :
  WF s -> PTS_domain pts ->
  exists s' fired, Video_part_cut s pts = Some (s', fired) /\ Mutations s s' fired [].
Proof.
  intros W D.
  destruct (Video_part_cut_spec s pts W D) as (s' & fired & E & W' & _).
  exists s', fired. split; [exact E|]. unfold Video_part_cut in E.
  destruct (Z.le_gt_cases
              (M3U8_End_Sequence_Number s - M3U8_Begin_Sequence_Number s) 0) as [Hz|Hz].
  - unfold M3U8_Get_Last_Partial in E.
    destruct (Z.leb_spec (M3U8_End_Sequence_Number s - M3U8_Begin_Sequence_Number s) 0);
      [|lia].
    inversion E; subst. now apply Mutations_nil.
  - destruct (WF_view s W) as (init & lastS & pinit & lastP & Es & Ep & _ & _ & _ & _ & Hl);
      [lia|].
    rewrite (M3U8_Get_Last_Partial_last s init lastS pinit lastP) in E by assumption.
    destruct (Qlt_bool _ _) eqn:Hlo; cbn [andb] in E.
    2:{ inversion E; subst. now apply Mutations_nil. }
    destruct (Qle_bool _ _) eqn:Hhi.
    2:{ inversion E; subst. now apply Mutations_nil. }
    rewrite (M3U8_New_Partial_last s pts init lastS pinit lastP) in E by assumption.
    inversion E; subst s' fired. apply Mutations_one; [exact W | | exact W'].
    apply Mut_cut; auto.
    + now apply Qlt_bool_iff.
    + now apply Qle_bool_iff.
Qed.

(** The sealing of the last segment, the new segment and the eviction
    are one mutation. *)
Lemma M3U8_New_Segment_trace (s : TSFragmenter) (pts : Z) (now : string) :
  WF s -> M3U8_Initial_IDR_Detected s = true -> PTS_domain pts ->
  exists s' fired, M3U8_New_Segment s pts now = Some (s', fired)
                   /\ Mutations s s' fired [].
Proof.
  intros W Hidr D. unfold M3U8_New_Segment.
  assert (Hid : exists s' fired, ret s = Some (s', fired) /\ Mutations s s' fired []).
  { exists s, []. split; [reflexivity | now apply Mutations_nil]. }
  destruct (PAT_lastPAT s) as [lastPAT|] eqn:EPAT; [|exact Hid].
  destruct (PMT_lastPMT s) as [lastPMT|] eqn:EPMT; [|exact Hid].
  clear Hid.
  assert (Hmid : exists s3 fired,
             M3U8_Complete_Last s pts = Some (fst (s3, fired), fired)
             /\ forall smid,
                 smid = fst (s3, fired) ->
                 Mutations s
                   (M3U8_Evict
                      (set_M3U8 smid (M3U8_Begin_Sequence_Number smid)
                         (M3U8_End_Sequence_Number smid + 1)
                         (M3U8_Segments smid ++ [Segment.new pts (Some true) now])))
                   fired []).
  { destruct (M3U8_Complete_Last_spec s pts W) as (L & fired & E & HL & Hlen & _).
    exists (set_M3U8_Segments s L), fired. split; [exact E|].
    intros smid ->. cbn [fst].
    assert (W3 : WF (M3U8_Evict
                       (set_M3U8 (set_M3U8_Segments s L)
                          (M3U8_Begin_Sequence_Number (set_M3U8_Segments s L))
                          (M3U8_End_Sequence_Number (set_M3U8_Segments s L) + 1)
                          (M3U8_Segments (set_M3U8_Segments s L)
                             ++ [Segment.new pts (Some true) now])))).
    { apply (M3U8_push_evict_spec (set_M3U8_Segments s L) pts now); try exact D.
      - apply W.
      - rewrite M3U8_Segments_set. exact Hlen.
      - apply W.
      - rewrite M3U8_Segments_set. exact HL.
      - apply W.
      - exact Hidr. }
    apply Mutations_one; [exact W | | exact W3].
    rewrite M3U8_Segments_set.
    change (M3U8_Begin_Sequence_Number (set_M3U8_Segments s L))
      with (M3U8_Begin_Sequence_Number s).
    change (M3U8_End_Sequence_Number (set_M3U8_Segments s L))
      with (M3U8_End_Sequence_Number s).
    change (set_M3U8 (set_M3U8_Segments s L) (M3U8_Begin_Sequence_Number s)
              (M3U8_End_Sequence_Number s + 1) (L ++ [Segment.new pts (Some true) now]))
      with (set_M3U8 s (M3U8_Begin_Sequence_Number s)
              (M3U8_End_Sequence_Number s + 1) (L ++ [Segment.new pts (Some true) now])).
    unfold M3U8_Complete_Last in E.
    destruct (Z.ltb_spec 0 (M3U8_End_Sequence_Number s - M3U8_Begin_Sequence_Number s))
      as [Hz|Hz].
    - destruct (WF_view s W Hz)
        as (init & lastS & pinit & lastP & Es & Ep & _ & _ & _ & _ & Hl).
      assert (Hsz : M3U8_End_Sequence_Number s - M3U8_Begin_Sequence_Number s - 1
                    = array_length (init ++ [lastS]) - 1).
      { rewrite array_length_app. unfold array_length at 2. simpl. lia. }
      rewrite Es, Hsz, array_get_last, (Segment_complete_open _ pinit lastP) in E
        by exact Ep.
      rewrite array_set_last in E.
      set (L0 := init ++ [Segment.mk
                            (fst (PartialSegment.complete (Segment.base lastS) pts))
                            (pinit ++ [fst (PartialSegment.complete lastP pts)])
                            (Segment.programDateTime lastS)]) in E.
      assert (Ef : fired = PartialSegment.complete_callbacks (Segment.base lastS)
                           ++ PartialSegment.complete_callbacks lastP) by congruence.
      assert (EL : set_M3U8_Segments s L0 = set_M3U8_Segments s L) by congruence.
      apply (f_equal M3U8_Segments) in EL. rewrite !M3U8_Segments_set in EL.
      rewrite <- EL, Ef. unfold L0. rewrite <- app_assoc. cbn [app].
      now apply (Mut_next s init lastS pinit lastP pts now).
    - pose proof (WF_size s W) as Hs.
      assert (Es : M3U8_Segments s = []).
      { destruct (M3U8_Segments s); [reflexivity|].
        unfold array_length in Hs. simpl in Hs. lia. }
      unfold ret in E.
      assert (Ef : fired = []) by congruence.
      assert (EL : s = set_M3U8_Segments s L) by congruence.
      apply (f_equal M3U8_Segments) in EL. rewrite M3U8_Segments_set, Es in EL.
      rewrite <- EL, Ef. cbn [app].
      now apply (Mut_first s pts now). }
  destruct Hmid as (s1 & fired & E1 & M1). cbn [fst] in E1. rewrite E1.
  unfold bind at 1. specialize (M1 s1 eq_refl).
  set (s3 := M3U8_Evict _) in *.
  destruct (M3U8_Add_PAT_trace s3 lastPAT (Mutations_WF_r _ _ _ _ M1)) as (s4 & -> & M4).
  simpl.
  destruct (M3U8_Add_PMT_trace s4 lastPMT (Mutations_WF_r _ _ _ _ M4)) as (s5 & -> & M5).
  simpl. eexists _, _. split; [reflexivity|]. rewrite app_nil_r.
  refine (Mutations_nil_app _ _ _ _ _ _ M5).
  exact (Mutations_nil_app _ _ _ _ _ M1 M4).
Qed.

Lemma bind_trace (s : TSFragmenter) (c : Eff TSFragmenter)
    (k : TSFragmenter -> Eff TSFragmenter) :
  (exists s1 f1, c = Some (s1, f1) /\ Mutations s s1 f1 []) ->
  (forall s1, WF s1 -> exists s2 f2, k s1 = Some (s2, f2) /\ Mutations s1 s2 f2 []) ->
  exists s2 f, bind c k = Some (s2, f) /\ Mutations s s2 f [].
Proof.
  intros (s1 & f1 & E1 & M1) Hk.
  destruct (Hk s1 (Mutations_WF_r _ _ _ _ M1)) as (s2 & f2 & E2 & M2).
  exists s2, (f1 ++ f2). split; [exact (bind_Some _ _ _ _ _ _ E1 E2)|].
  exact (Mutations_app _ _ _ _ _ _ _ M1 M2).
Qed.

Lemma lift_trace (s : TSFragmenter) (o : option TSFragmenter) :
  (exists s', o = Some s' /\ Mutations s s' [] []) ->
  exists s' f, lift o = Some (s', f) /\ Mutations s s' f [].
Proof. intros (s' & -> & M). exists s', []. split; [reflexivity | exact M]. Qed.

Lemma ret_trace (s s' : TSFragmenter) :
  Mutations s s' [] [] -> exists s2 f, ret s' = Some (s2, f) /\ Mutations s s2 f [].
Proof. intros M. exists s', []. split; [reflexivity | exact M]. Qed.

Lemma forEach_trace {A : Type} (f : TSFragmenter -> A -> option TSFragmenter)
    (l : list A) :
  (forall s x, WF s -> exists s', f s x = Some s' /\ Mutations s s' [] []) ->
  forall s, WF s -> exists s', forEach f l s = Some s' /\ Mutations s s' [] [].
Proof.
  intros Hf. induction l as [|x l IH]; intros s W; simpl.
  - exists s. split; [reflexivity | now apply Mutations_nil].
  - destruct (Hf s x W) as (s1 & -> & M1).
    destruct (IH s1 (Mutations_WF_r _ _ _ _ M1)) as (s2 & -> & M2).
    exists s2. split; [reflexivity|]. exact (Mutations_app_nil _ _ _ _ _ M1 M2).
Qed.

Lemma forEachEff_trace {A : Type} (f : TSFragmenter -> A -> Eff TSFragmenter)
    (l : list A) :
  (forall s x, WF s -> exists s' fired, f s x = Some (s', fired)
                                        /\ Mutations s s' fired []) ->
  forall s, WF s ->
    exists s' fired, forEachEff f l s = Some (s', fired) /\ Mutations s s' fired [].
Proof.
  intros Hf. induction l as [|x l IH]; intros s W; simpl.
  - exists s, []. split; [reflexivity | now apply Mutations_nil].
  - apply bind_trace; [apply Hf, W | exact IH].
Qed.

(** The flush of the buffered video packets at the end of an access
    unit. *)
Lemma Video_flush_trace (s : TSFragmenter) :
  WF s ->
  exists s' f,
    (this <- lift (forEach M3U8_Add_Packet (Video_Packets s) s) ;;
     ret (set_Video_Packets this [])) = Some (s', f)
    /\ Mutations s s' f [].
Proof.
  intros W. apply bind_trace.
  - apply lift_trace, forEach_Add_Packet_trace, W.
  - intros s1 W1. apply ret_trace. apply Mutations_fields; auto.
    + apply (WF_same_window s1); [exact W1| |]; now destruct s1.
    + now destruct s1.
Qed.

Lemma Video_PES_trace (s : TSFragmenter) (popped : Buffer * string) :
  WF s ->
  exists s' fired, Video_PES s popped = Some (s', fired) /\ Mutations s s' fired [].
Proof.
  intros W. destruct popped as [VideoPES now]. unfold Video_PES.
  pose proof (PES_pts_domain VideoPES) as D.
  apply bind_trace.
  - destruct (PES_hasIDR VideoPES).
    + set (s0 := if negb (M3U8_Initial_IDR_Detected s) then _ else s).
      assert (M0 : Mutations s s0 [] []).
      { unfold s0. destruct (M3U8_Initial_IDR_Detected s) eqn:Ei; simpl.
        - now apply Mutations_nil.
        - apply Mutations_fields; auto; try now destruct s.
          apply (WF_same_window s); [exact W| |]; destruct s; simpl in *;
            repeat split; auto. }
      assert (I0 : M3U8_Initial_IDR_Detected s0 = true).
      { unfold s0. destruct (M3U8_Initial_IDR_Detected s) eqn:Ei; simpl; [exact Ei|].
        now destruct s. }
      destruct (M3U8_New_Segment_trace s0 (PES_pts VideoPES) now
                  (Mutations_WF_r _ _ _ _ M0) I0 D) as (s1 & fired & E1 & M1).
      exists s1, fired. split; [exact E1|]. exact (Mutations_app_nil _ _ _ _ _ M0 M1).
    + apply ret_trace. now apply Mutations_nil.
  - intros s1 W1. destruct (M3U8_Initial_IDR_Detected s1).
    + apply bind_trace.
      * destruct (negb (PES_hasIDR VideoPES)).
        -- apply Video_part_cut_trace; assumption.
        -- apply ret_trace. now apply Mutations_nil.
      * intros s2 W2. apply Video_flush_trace, W2.
    + apply ret_trace. now apply Mutations_nil.
Qed.

Lemma PAT_section_trace (s : TSFragmenter) (PAT : Buffer) :
  WF s -> exists s', PAT_section s PAT = Some s' /\ Mutations s s' [] [].
Proof.
  intros W. unfold PAT_section.
  destruct (negb (TSSection_CRC32 PAT =? 0)).
  { exists s. split; [reflexivity | now apply Mutations_nil]. }
  set (pmtPid := PAT_loop _ _ _ _ _ _).
  set (s1 := set_PAT (set_PAT s (Some PAT) (PAT_Continuous_Counter s) None) _ _ pmtPid).
  set (s2 := if negb (M3U8_Initial_PAT_Detected s1) then _ else s1).
  assert (A2 : Advances s s2 []).
  { apply Advances_same_window; [exact W| |]; unfold s2, s1;
      simpl; destruct (M3U8_Initial_PAT_Detected s); simpl;
      repeat split; auto. }
  assert (M2 : Mutations s s2 [] []).
  { apply Mutations_of_Advances_fields; [exact W | exact A2|].
    unfold s2, s1; simpl; destruct (M3U8_Initial_PAT_Detected s); simpl;
      repeat split; auto. }
  destruct (M3U8_Initial_IDR_Detected s2).
  - destruct (M3U8_Add_PAT_trace s2 PAT (Adv_WF _ _ _ A2)) as (s3 & -> & M3).
    exists s3. split; [reflexivity|]. exact (Mutations_app_nil _ _ _ _ _ M2 M3).
  - exists s2. auto.
Qed.

Lemma PMT_section_trace (s : TSFragmenter) (PMT : Buffer) :
  WF s -> exists s', PMT_section s PMT = Some s' /\ Mutations s s' [] [].
Proof.
  intros W. unfold PMT_section.
  destruct (negb (TSSection_CRC32 PMT =? 0)).
  { exists s. split; [reflexivity | now apply Mutations_nil]. }
  set (videoPid := PMT_loop _ _ _ _ _).
  set (s1 := set_PMT s (Some PMT) (PMT_Continuous_Counter s) videoPid _).
  set (s2 := if negb (M3U8_Initial_PMT_Detected s1) then _ else s1).
  assert (A2 : Advances s s2 []).
  { apply Advances_same_window; [exact W| |]; unfold s2, s1;
      simpl; destruct (M3U8_Initial_PMT_Detected s); simpl;
      repeat split; auto. }
  assert (M2 : Mutations s s2 [] []).
  { apply Mutations_of_Advances_fields; [exact W | exact A2|].
    unfold s2, s1; simpl; destruct (M3U8_Initial_PMT_Detected s); simpl;
      repeat split; auto. }
  destruct (M3U8_Initial_IDR_Detected s2).
  - destruct (M3U8_Add_PMT_trace s2 PMT (Adv_WF _ _ _ A2)) as (s3 & -> & M3).
    exists s3. split; [reflexivity|]. exact (Mutations_app_nil _ _ _ _ _ M2 M3).
  - exists s2. auto.
Qed.

Lemma write_packet_trace (s : TSFragmenter) (a : Arrival) :
  WF s ->
  exists s' fired, write_packet s a = Some (s', fired) /\ Mutations s s' fired [].
Proof.
  intros W. unfold write_packet. cbv zeta.
  set (s0 := set_Packet_header s _ _ _).
  assert (M0 : Mutations s s0 [] []).
  { apply Mutations_fields; auto; try now destruct s.
    apply (WF_same_window s); [exact W| |]; now destruct s. }
  pose proof (Mutations_WF_r _ _ _ _ M0) as W0.
  assert (Hwrap : forall c : Eff TSFragmenter,
             (exists s' fired, c = Some (s', fired) /\ Mutations s0 s' fired []) ->
             exists s' fired, c = Some (s', fired) /\ Mutations s s' fired []).
  { intros c (s' & fired & Ec & M). exists s', fired. split; [exact Ec|].
    exact (Mutations_app_nil _ _ _ _ _ M0 M). }
  apply Hwrap. clear Hwrap.
  assert (Hother : exists s' fired,
             (if M3U8_Initial_IDR_Detected s0
              then lift (M3U8_Add_Packet s0 (packet a)) else ret s0) = Some (s', fired)
             /\ Mutations s0 s' fired []).
  { destruct (M3U8_Initial_IDR_Detected s0).
    - apply lift_trace, M3U8_Add_Packet_trace, W0.
    - apply ret_trace. now apply Mutations_nil. }
  destruct (_ =? 0).
  { apply lift_trace. apply forEach_trace; [apply PAT_section_trace | exact W0]. }
  destruct (pid_is _ (PAT_TargetPMTPid s0)).
  { apply lift_trace. apply forEach_trace; [apply PMT_section_trace | exact W0]. }
  destruct (pid_is _ (PMT_VideoPid s0)).
  { set (s1 := set_Video_Packets s0 _).
    assert (M1 : Mutations s0 s1 [] []).
    { apply Mutations_fields; auto; try now destruct s.
      apply (WF_same_window s0); [exact W0| |]; now destruct s. }
    destruct (forEachEff_trace Video_PES (popped_PES a) Video_PES_trace s1
                (Mutations_WF_r _ _ _ _ M1)) as (s2 & fired & E2 & M2).
    exists s2, fired. split; [exact E2|]. exact (Mutations_app_nil _ _ _ _ _ M1 M2). }
  destruct (pid_is _ (PMT_PCRPid s0)); exact Hother.
Qed.

Lemma _write_trace (chunk : list Arrival) (s : TSFragmenter) :
  WF s ->
  exists s' fired, _write s chunk = Some (s', fired) /\ Mutations s s' fired [].
Proof. apply forEachEff_trace, write_packet_trace. Qed.

Lemma addSegmentCallback_trace (s : TSFragmenter) (msn : Z) (cb : Callback) :
  WF s ->
  exists r, Mutations s (fst (addSegmentCallback s msn cb)) [] r
            /\ forall c, In c r -> c = cb.
Proof.
  intros W. destruct (addSegmentCallback_spec s msn cb W) as (W' & _).
  unfold addSegmentCallback in *.
  destruct (M3U8_Get_Segment s msn) as [seg|] eqn:E; simpl in *.
  - unfold M3U8_Get_Segment in E. destruct (negb (inRangeSegment s msn)); [discriminate|].
    destruct (array_get_split _ _ _ E) as (init & rest & Es & Ei & _).
    rewrite Ei, Es, array_set_app in *.
    exists [cb]. split.
    + apply Mutations_one; [exact W | | exact W']. now apply Mut_segment_callback.
    + intros c [<-|[]]. reflexivity.
  - exists []. split; [now apply Mutations_nil | intros c []].
Qed.

Lemma addPartialCallback_trace (s : TSFragmenter) (msn part : Z) (cb : Callback) :
  WF s ->
  exists s' ok r, addPartialCallback s msn part cb = Some (s', ok)
                  /\ Mutations s s' [] r
                  /\ forall c, In c r -> c = cb.
Proof.
  intros W. destruct (addPartialCallback_spec s msn part cb W)
    as (s' & ok & E & W' & _ & Hnone & _).
  exists s', ok. destruct (lookup_partial s msn part) as [p|] eqn:El.
  - destruct (lookup_partial_split _ _ _ _ El)
      as (init & seg & rest & pinit & prest & Es & Ep & Ei & Epi & Hp & R).
    rewrite (addPartialCallback_exact s msn part cb init rest seg pinit prest p) in E
      by assumption.
    exists [cb]. split; [|split].
    + rewrite (addPartialCallback_exact s msn part cb init rest seg pinit prest p)
        by assumption.
      exact E.
    + assert (Es' : s' = set_M3U8_Segments s
                           (init ++ Segment.mk (Segment.base seg)
                                      (pinit ++ PartialSegment.addCallback p cb :: prest)
                                      (Segment.programDateTime seg) :: rest))
        by congruence.
      rewrite Es' in *. apply Mutations_one; [exact W | | exact W'].
      now apply (Mut_partial_callback s init seg rest pinit p prest cb).
    + intros c [<-|[]]. reflexivity.
  - destruct (Hnone eq_refl) as [-> ->]. exists []. split; [exact E|].
    split; [now apply Mutations_nil | intros c []].
Qed.

Lemma call_trace (s : TSFragmenter) (k : Call) :
  WF s ->
  exists s' fired r,
    call s k = Some (s', fired)
    /\ Mutations s s' fired r
    /\ forall c, registers c k = false -> ~ In c r.
Proof.
  intros W. destruct k as [chunk|msn cb|msn part cb]; simpl.
  - destruct (_write_trace chunk s W) as (s' & fired & E & M).
    exists s', fired, []. split; [exact E|]. split; [exact M|]. intros c _ [].
  - destruct (addSegmentCallback_trace s msn cb W) as (r & M & Hr).
    eexists _, _, r. split; [reflexivity|]. split; [exact M|].
    intros c Hc Hin. apply Hr in Hin. subst c. now rewrite Nat.eqb_refl in Hc.
  - destruct (addPartialCallback_trace s msn part cb W) as (s' & ok & r & -> & M & Hr).
    exists s', [], r. split; [reflexivity|]. split; [exact M|].
    intros c Hc Hin. apply Hr in Hin. subst c. now rewrite Nat.eqb_refl in Hc.
Qed.

Lemma run_trace (calls : list Call) (s : TSFragmenter) :
  WF s ->
  exists s' fired r,
    run s calls = Some (s', fired)
    /\ Mutations s s' fired r
    /\ forall c, forallb (fun k => negb (registers c k)) calls = true -> ~ In c r.
Proof.
  unfold run. revert s. induction calls as [|k calls IH]; intros s W; simpl.
  - exists s, [], []. split; [reflexivity|]. split; [now apply Mutations_nil|].
    intros c _ [].
  - destruct (call_trace s k W) as (s1 & f1 & r1 & E1 & M1 & H1).
    destruct (IH s1 (Mutations_WF_r _ _ _ _ M1)) as (s2 & f2 & r2 & E2 & M2 & H2).
    exists s2, (f1 ++ f2), (r1 ++ r2). split; [exact (bind_Some _ _ _ _ _ _ E1 E2)|].
    split; [exact (Mutations_app _ _ _ _ _ _ _ M1 M2)|].
    intros c Hc Hin. apply andb_true_iff in Hc. destruct Hc as [Hk Hcs].
    apply negb_true_iff in Hk. apply in_app_or in Hin.
    destruct Hin as [Hin|Hin]; [exact (H1 c Hk Hin) | exact (H2 c Hcs Hin)].
Qed.

(** Every reachable state is reached from the initial state by
    mutations. *)
Lemma Reachable_trace (s : TSFragmenter) :
  Reachable s ->
  exists options fired r, Mutations (new_TSFragmenter options) s fired r.
Proof.
  induction 1 as [options|s k s' fired R (options & f0 & r0 & M0) E].
  - exists options, [], []. apply Mutations_nil, WF_new.
  - destruct (call_trace s k (Mutations_WF_r _ _ _ _ M0)) as (s1 & f1 & r1 & E1 & M1 & _).
    rewrite E in E1. inversion E1; subst s1 f1.
    exists options, (f0 ++ fired), (r0 ++ r1). exact (Mutations_app _ _ _ _ _ _ _ M0 M1).
Qed.

End Traces.


(** ** The shape of the segments is an invariant *)

Lemma concat_map_snoc {A : Type} (f : A -> Buffer) (l : list A) (x : A) :
  List.concat (map f (l ++ [x])) = List.concat (map f l) ++ f x.
Proof. rewrite map_app, concat_app. simpl. now rewrite app_nil_r. Qed.

Lemma Chained_set (a b : list PartialSegment.t) (x x' : PartialSegment.t) :
  PartialSegment.beginPTS x' = PartialSegment.beginPTS x ->
  (b <> [] -> PartialSegment.endPTS x' = PartialSegment.endPTS x) ->
  Chained (a ++ x :: b) -> Chained (a ++ x' :: b).
Proof.
  intros Hb He. induction a as [|y a IH]; simpl.
  - destruct b as [|z b]; [auto|]. intros [H1 H2]. split; [|exact H2].
    rewrite He by discriminate. exact H1.
  - destruct (a ++ x :: b) as [|u l] eqn:E1; [destruct a; discriminate|].
    destruct (a ++ x' :: b) as [|u' l'] eqn:E2; [destruct a; discriminate|].
    intros [H1 H2]. split; [|auto].
    destruct a as [|w a]; simpl in E1, E2; inversion E1; inversion E2; subst.
    + now rewrite Hb.
    + exact H1.
Qed.

Lemma Chained_extend (l : list PartialSegment.t) (x y : PartialSegment.t) :
  PartialSegment.endPTS x = Some (PartialSegment.beginPTS y) ->
  Chained (l ++ [x]) -> Chained (l ++ [x; y]).
Proof.
  intros He. induction l as [|z l IH]; simpl.
  - auto.
  - destruct (l ++ [x]) as [|u l1] eqn:E1; [destruct l; discriminate|].
    destruct (l ++ [x; y]) as [|u' l2] eqn:E2; [destruct l; discriminate|].
    intros [H1 H2]. split; [|auto].
    destruct l as [|w l]; simpl in E1, E2; inversion E1; inversion E2; subst; exact H1.
Qed.

Lemma Chained_tl (l : list PartialSegment.t) : Chained l -> Chained (tl l).
Proof.
  destruct l as [|x l]; simpl; [auto|]. destruct l; [auto|]. now intros [_ H].
Qed.

Lemma Chained_get (l : list PartialSegment.t) (i : Z) (p q : PartialSegment.t) :
  Chained l -> array_get l i = Some p -> array_get l (i + 1) = Some q ->
  PartialSegment.endPTS p = Some (PartialSegment.beginPTS q).
Proof.
  unfold array_get. destruct (Z.ltb_spec i 0); [discriminate|].
  destruct (Z.ltb_spec (i + 1) 0); [lia|].
  replace (Z.to_nat (i + 1)) with (S (Z.to_nat i)) by lia.
  generalize (Z.to_nat i). clear. intros n. revert l.
  induction n as [|n IH]; intros l Hc Hp Hq.
  - destruct l as [|x [|y l]]; simpl in *; try discriminate.
    inversion Hp; inversion Hq; subst. apply Hc.
  - destruct l as [|x l]; [discriminate|]. simpl in Hp, Hq.
    apply (IH l); auto. destruct l; [exact I | apply Hc].
Qed.

Lemma Forall_first_set {A : Type} (P R : A -> Prop) (a b : list A) (x x' : A) :
  (P x -> P x') -> (R x -> R x') ->
  Forall_first P R (a ++ x :: b) -> Forall_first P R (a ++ x' :: b).
Proof.
  intros HP HR. destruct a as [|y a]; simpl.
  - intros [H1 H2]. auto.
  - intros [H1 H2]. split; [exact H1|].
    apply Forall_app in H2. destruct H2 as [Ha Hb]. inversion Hb; subst.
    apply Forall_app. split; [exact Ha|]. constructor; auto.
Qed.

Lemma Forall_first_extend {A : Type} (P R : A -> Prop) (l : list A) (x y : A) :
  R y -> Forall_first P R (l ++ [x]) -> Forall_first P R (l ++ [x; y]).
Proof.
  intros Hy. destruct l as [|z l]; simpl.
  - intros [H1 _]. split; [exact H1|]. constructor; [exact Hy | constructor].
  - intros [H1 H2]. split; [exact H1|].
    apply Forall_app in H2. destruct H2 as [Ha Hb]. inversion Hb; subst.
    apply Forall_app. split; [exact Ha|]. repeat constructor; auto.
Qed.

Lemma Forall_first_get {A : Type} (P R : A -> Prop) (l : list A) (i : Z) (x : A) :
  Forall_first P R l -> array_get l i = Some x ->
  (i = 0 -> P x) /\ (i <> 0 -> R x).
Proof.
  unfold array_get. destruct (Z.ltb_spec i 0); [discriminate|].
  destruct l as [|y l]; simpl; [destruct (Z.to_nat i); discriminate|].
  intros [H1 H2] E. split; intros Hi.
  - subst i. simpl in E. now inversion E; subst.
  - destruct (Z.to_nat i) as [|n] eqn:En; [lia|]. simpl in E.
    apply nth_error_In in E. rewrite Forall_forall in H2. auto.
Qed.

Lemma Forall_last_extend {A : Type} (P Q : A -> Prop) (l : list A) (x0 x y : A) :
  P x -> Q y -> Forall_last P Q (l ++ [x0]) -> Forall_last P Q (l ++ [x; y]).
Proof.
  intros Hx Hy H. apply Forall_last_app in H. destruct H as [Hl _].
  replace (l ++ [x; y]) with ((l ++ [x]) ++ [y]) by now rewrite <- app_assoc.
  apply Forall_last_app. split; [|exact Hy].
  apply Forall_app. split; [exact Hl|]. constructor; [exact Hx | constructor].
Qed.

Lemma Partial_bytes_addPacket (p : PartialSegment.t) (pkt : Buffer) :
  Partial_bytes (PartialSegment.addPacket p pkt) = Partial_bytes p ++ pkt.
Proof.
  unfold Partial_bytes. simpl. rewrite concat_app. simpl.
  now rewrite app_nil_r, app_assoc.
Qed.

Lemma Partial_bytes_complete (p : PartialSegment.t) (e : Z) :
  Partial_bytes (fst (PartialSegment.complete p e)) = Partial_bytes p.
Proof. unfold Partial_bytes. simpl. now rewrite app_nil_r. Qed.

Lemma Paced_complete (T : Q) (p : PartialSegment.t) (pts : Z) :
  (T * (85 # 100) < PartialSegment.estimateSeconds p pts)%Q ->
  (PartialSegment.estimateSeconds p pts <= T)%Q ->
  Paced T (fst (PartialSegment.complete p pts)).
Proof.
  intros H1 H2. exists (PartialSegment.estimateSeconds p pts). split; [reflexivity|].
  split; assumption.
Qed.

Lemma Paced_addCallback (T : Q) (p : PartialSegment.t) (cb : Callback) :
  Paced T p -> Paced T (PartialSegment.addCallback p cb).
Proof. intros (x & H). exists x. exact H. Qed.

Section Soundness.

Variable T : Q.

Lemma Segment_sound_addPacket (seg : Segment.t) (pinit : list PartialSegment.t)
    (lastP : PartialSegment.t) (pkt : Buffer) :
  Segment.parts seg = pinit ++ [lastP] ->
  PartialSegment.isCompleted (Segment.base seg) = false ->
  PartialSegment.isCompleted lastP = false ->
  Segment_sound T seg ->
  Segment_sound T
    (Segment.mk (PartialSegment.addPacket (Segment.base seg) pkt)
       (pinit ++ [PartialSegment.addPacket lastP pkt])
       (Segment.programDateTime seg)).
Proof.
  intros E Hb Hl [S1 S2 S3 S4 S5 S6 S7]. rewrite E in *.
  constructor; cbn [Segment.base Segment.parts].
  - rewrite Partial_bytes_addPacket, S1, !concat_map_snoc, Partial_bytes_addPacket.
    now rewrite app_assoc.
  - inversion S2 as [|? ? _ Hp]; subst. apply Forall_app in Hp. destruct Hp as [Hp _].
    constructor; [intros H; simpl in H; unfold PartialSegment.isCompleted in *;
                  simpl in H; congruence|].
    apply Forall_app. split; [exact Hp|]. constructor; [|constructor].
    intros H. unfold PartialSegment.isCompleted in *. simpl in H. congruence.
  - exact S3.
  - revert S4. apply Forall_first_set; auto.
  - revert S5. apply Chained_set; auto.
  - intros H. unfold PartialSegment.isCompleted in *. simpl in H. congruence.
  - revert S7. apply Forall_last_set; auto.
Qed.

Lemma Segment_sound_cut (seg : Segment.t) (pinit : list PartialSegment.t)
    (lastP : PartialSegment.t) (pts : Z) :
  Segment.parts seg = pinit ++ [lastP] ->
  PartialSegment.isCompleted (Segment.base seg) = false ->
  (T * (85 # 100) < PartialSegment.estimateSeconds lastP pts)%Q ->
  (PartialSegment.estimateSeconds lastP pts <= T)%Q ->
  Segment_sound T seg ->
  Segment_sound T
    (Segment.mk (Segment.base seg)
       (pinit ++ [fst (PartialSegment.complete lastP pts); PartialSegment.new pts None])
       (Segment.programDateTime seg)).
Proof.
  intros E Hb Hlo Hhi [S1 S2 S3 S4 S5 S6 S7]. rewrite E in *.
  constructor; cbn [Segment.base Segment.parts].
  - replace (pinit ++ [fst (PartialSegment.complete lastP pts); PartialSegment.new pts None])
      with ((pinit ++ [fst (PartialSegment.complete lastP pts)])
              ++ [PartialSegment.new pts None]) by now rewrite <- app_assoc.
    rewrite S1, !concat_map_snoc, Partial_bytes_complete.
    unfold Partial_bytes at 4. simpl. now rewrite app_nil_r.
  - inversion S2 as [|? ? Hbase Hp]; subst. apply Forall_app in Hp. destruct Hp as [Hp _].
    constructor; [exact Hbase|].
    apply Forall_app. split; [exact Hp|]. repeat constructor; intros _; reflexivity.
  - exact S3.
  - apply Forall_first_extend; [reflexivity|].
    revert S4. apply Forall_first_set; auto.
  - apply Chained_extend; [reflexivity|]. revert S5. apply Chained_set; auto.
    intros H. now contradiction H.
  - intros H. congruence.
  - apply (Forall_last_extend _ _ _ lastP); [now apply Paced_complete | exact I | exact S7].
Qed.

Lemma Segment_sound_seal (seg : Segment.t) (pinit : list PartialSegment.t)
    (lastP : PartialSegment.t) (pts : Z) :
  Segment.parts seg = pinit ++ [lastP] ->
  Segment_sound T seg ->
  Segment_sound T
    (Segment.mk (fst (PartialSegment.complete (Segment.base seg) pts))
       (pinit ++ [fst (PartialSegment.complete lastP pts)])
       (Segment.programDateTime seg)).
Proof.
  intros E [S1 S2 S3 S4 S5 S6 S7]. rewrite E in *.
  constructor; cbn [Segment.base Segment.parts].
  - rewrite Partial_bytes_complete, S1, !concat_map_snoc, Partial_bytes_complete.
    reflexivity.
  - inversion S2 as [|? ? _ Hp]; subst. apply Forall_app in Hp. destruct Hp as [Hp _].
    constructor; [intros _; reflexivity|].
    apply Forall_app. split; [exact Hp|]. repeat constructor.
  - exact S3.
  - revert S4. apply Forall_first_set; auto.
  - revert S5. apply Chained_set; auto. intros H. now contradiction H.
  - intros _. apply Forall_last_app. split; [|reflexivity].
    apply Forall_forall. auto.
  - apply Forall_last_app in S7. apply Forall_last_app. tauto.
Qed.

Lemma Segment_sound_new (pts : Z) (now : string) :
  Segment_sound T (Segment.new pts (Some true) now).
Proof.
  constructor; simpl; auto; try discriminate.
  repeat constructor; intros H; discriminate.
Qed.

Lemma Segment_sound_addCallback (seg : Segment.t) (cb : Callback) :
  Segment_sound T seg -> Segment_sound T (Segment.addCallback seg cb).
Proof.
  intros [S1 S2 S3 S4 S5 S6 S7]. constructor; simpl; auto.
  inversion S2; subst. constructor; auto.
Qed.

Lemma Segment_sound_addPartialCallback (seg : Segment.t)
    (pinit prest : list PartialSegment.t) (p : PartialSegment.t) (cb : Callback) :
  Segment.parts seg = pinit ++ p :: prest ->
  Segment_sound T seg ->
  Segment_sound T
    (Segment.mk (Segment.base seg) (pinit ++ PartialSegment.addCallback p cb :: prest)
       (Segment.programDateTime seg)).
Proof.
  intros E [S1 S2 S3 S4 S5 S6 S7]. rewrite E in *.
  constructor; cbn [Segment.base Segment.parts].
  - rewrite S1, !map_app. reflexivity.
  - inversion S2 as [|? ? Hbase Hp]; subst. constructor; [exact Hbase|].
    apply Forall_app in Hp. destruct Hp as [Ha Hb]. inversion Hb; subst.
    apply Forall_app. split; [exact Ha|]. constructor; auto.
  - exact S3.
  - revert S4. apply Forall_first_set; auto.
  - revert S5. apply Chained_set; auto.
  - intros H. specialize (S6 H). revert S6. apply Forall_last_set; auto.
  - revert S7. apply Forall_last_set; auto.
Qed.

End Soundness.

Lemma WF_last_open (s : TSFragmenter) (init : list Segment.t) (lastS : Segment.t)
    (pinit : list PartialSegment.t) (lastP : PartialSegment.t) :
  WF s ->
  M3U8_Segments s = init ++ [lastS] ->
  Segment.parts lastS = pinit ++ [lastP] ->
  Forall Segment_sealed init
  /\ Partial_open (Segment.base lastS)
  /\ Forall Partial_sealed pinit
  /\ Partial_open lastP.
Proof.
  intros W E Ep. pose proof (WF_window s W) as Hw. rewrite E in Hw.
  apply Forall_last_app in Hw. destruct Hw as [Hi (Hb & _ & Hf)].
  rewrite Ep in Hf. apply Forall_last_app in Hf. tauto.
Qed.

Lemma Sound_intro (s' : TSFragmenter) (T : Q) (segments : list Segment.t) :
  M3U8_Part_Target s' = T -> M3U8_Segments s' = segments ->
  Forall (Segment_sound T) segments -> Chained (map Segment.base segments) ->
  Sound s'.
Proof. intros <- <- H1 H2. now constructor. Qed.

Lemma Sound_Evict (s : TSFragmenter) : Sound s -> Sound (M3U8_Evict s).
Proof.
  intros [H1 H2]. unfold M3U8_Evict. destruct (_ <? _); [|now constructor].
  apply (Sound_intro _ (M3U8_Part_Target s) (tl (M3U8_Segments s)));
    try reflexivity.
  - destruct (M3U8_Segments s); [constructor | now inversion H1].
  - replace (map Segment.base (tl (M3U8_Segments s)))
      with (tl (map Segment.base (M3U8_Segments s)))
      by now destruct (M3U8_Segments s).
    now apply Chained_tl.
Qed.

Lemma Sound_new (options : option TSFragmenterOptions.t) :
  Sound (new_TSFragmenter options).
Proof. constructor; simpl; [constructor | exact I]. Qed.

(** Every mutation keeps the shape of the segments. *)
Lemma Mutation_Sound (s s' : TSFragmenter) (f r : list Callback) :
  WF s -> Mutation s s' f r -> Sound s -> Sound s'.
Proof.
  intros W M [H1 H2].
  destruct M as [s s' (_ & _ & Es) _ ET
                |s init lastS pinit lastP pkt E Ep
                |s init lastS pinit lastP pts E Ep D Hlo Hhi
                |s pts now E D
                |s init lastS pinit lastP pts now E Ep D
                |s init seg rest cb E
                |s init seg rest pinit p prest cb E Ep].
  - constructor; rewrite ?Es, ?ET; assumption.
  - destruct (WF_last_open s init lastS pinit lastP W E Ep) as (_ & Hb & _ & Hl).
    rewrite E in H1, H2. apply Forall_app in H1. destruct H1 as [Hi Hlast].
    inversion Hlast as [|? ? Hs _]; subst.
    eapply Sound_intro; [reflexivity | apply M3U8_Segments_set | |].
    + apply Forall_app. split; [exact Hi|]. constructor; [|constructor].
      apply Segment_sound_addPacket; auto; [apply Hb | apply Hl].
    + rewrite map_app in *. cbn [map Segment.base] in *. revert H2. apply Chained_set; auto.
  - destruct (WF_last_open s init lastS pinit lastP W E Ep) as (_ & Hb & _ & Hl).
    rewrite E in H1, H2. apply Forall_app in H1. destruct H1 as [Hi Hlast].
    inversion Hlast as [|? ? Hs _]; subst.
    eapply Sound_intro; [reflexivity | apply M3U8_Segments_set | |].
    + apply Forall_app. split; [exact Hi|]. constructor; [|constructor].
      apply Segment_sound_cut; auto. apply Hb.
    + rewrite map_app in *. cbn [map Segment.base] in *. exact H2.
  - apply Sound_Evict.
    eapply Sound_intro;
      [reflexivity | cbn [M3U8_Segments set_M3U8]; reflexivity | |].
    + constructor; [apply Segment_sound_new | constructor].
    + exact I.
  - apply Sound_Evict.
    rewrite E in H1, H2. apply Forall_app in H1. destruct H1 as [Hi Hlast].
    inversion Hlast as [|? ? Hs _]; subst.
    eapply Sound_intro;
      [reflexivity | cbn [M3U8_Segments set_M3U8]; reflexivity | |].
    + apply Forall_app. split; [exact Hi|]. constructor; [|constructor; [|constructor]].
      * now apply Segment_sound_seal.
      * apply Segment_sound_new.
    + rewrite map_app in *. cbn [map Segment.base] in *.
      apply Chained_extend; [reflexivity|]. revert H2. apply Chained_set; auto.
      intros H. now contradiction H.
  - rewrite E in H1, H2. apply Forall_app in H1. destruct H1 as [Hi Hrest].
    inversion Hrest as [|? ? Hs Hr]; subst.
    eapply Sound_intro; [reflexivity | apply M3U8_Segments_set | |].
    + apply Forall_app. split; [exact Hi|]. constructor; [|exact Hr].
      now apply Segment_sound_addCallback.
    + rewrite map_app in *. cbn [map Segment.base] in *. revert H2. apply Chained_set; auto.
  - rewrite E in H1, H2. apply Forall_app in H1. destruct H1 as [Hi Hrest].
    inversion Hrest as [|? ? Hs Hr]; subst.
    eapply Sound_intro; [reflexivity | apply M3U8_Segments_set | |].
    + apply Forall_app. split; [exact Hi|]. constructor; [|exact Hr].
      now apply Segment_sound_addPartialCallback.
    + rewrite map_app in *. cbn [map Segment.base] in *. exact H2.
Qed.

Lemma Mutations_Sound (s s' : TSFragmenter) (f r : list Callback) :
  Mutations s s' f r -> Sound s -> Sound s'.
Proof.
  induction 1 as [s W|s s1 s2 f1 f2 r1 r2 W M Ms IH]; [auto|].
  intros H. apply IH. exact (Mutation_Sound _ _ _ _ W M H).
Qed.

Section Shape.

Context {lib : Collaborators}.

Lemma Reachable_Sound (s : TSFragmenter) : Reachable s -> Sound s.
Proof.
  intros R. destruct (Reachable_trace s R) as (options & f & r & M).
  exact (Mutations_Sound _ _ _ _ M (Sound_new options)).
Qed.

Lemma Reachable_Segment_sound (s : TSFragmenter) (msn : Z) (seg : Segment.t) :
  Reachable s -> M3U8_Get_Segment s msn = Some seg ->
  Segment_sound (M3U8_Part_Target s) seg.
Proof.
  intros R E. pose proof (Sound_segments s (Reachable_Sound s R)) as H.
  rewrite Forall_forall in H. apply H. unfold M3U8_Get_Segment, array_get in E.
  destruct (negb _); [discriminate|]. destruct (_ <? 0); [discriminate|].
  eapply nth_error_In, E.
Qed.

End Shape.


(** ** What the shape says about the segments a client fetches *)

Lemma array_get_map {A B : Type} (f : A -> B) (l : list A) (i : Z) (x : A) :
  array_get l i = Some x -> array_get (map f l) i = Some (f x).
Proof.
  unfold array_get. destruct (i <? 0); [discriminate|]. intros E.
  rewrite nth_error_map, E. reflexivity.
Qed.




Section Fetched.

Context {lib : Collaborators}.


Lemma Get_Segment_index (s : TSFragmenter) (msn : Z) (seg : Segment.t) :
  M3U8_Get_Segment s msn = Some seg ->
  array_get (M3U8_Segments s) (msn - M3U8_Begin_Sequence_Number s) = Some seg.
Proof. unfold M3U8_Get_Segment. now destruct (negb _). Qed.



(** X10. The segments of the window tile the stream in time: a
    segment that has a successor in the window ends at the begin PTS of
    that successor. *)
Theorem segments_tile_the_window (s : TSFragmenter) (msn : Z) (seg next : Segment.t) :
  Reachable s ->
  M3U8_Get_Segment s msn = Some seg ->
  M3U8_Get_Segment s (msn + 1) = Some next ->
  PartialSegment.endPTS (Segment.base seg)
  = Some (PartialSegment.beginPTS (Segment.base next)).
Proof.
  intros R E En. pose proof (Sound_chain s (Reachable_Sound s R)) as Hc.
  apply Get_Segment_index in E, En.
  replace (msn + 1 - M3U8_Begin_Sequence_Number s)
    with (msn - M3U8_Begin_Sequence_Number s + 1) in En by lia.
  exact (Chained_get _ _ _ _ Hc (array_get_map Segment.base _ _ _ E)
           (array_get_map Segment.base _ _ _ En)).
Qed.


(** X12. In every segment the first partial, and only the first, is
    marked independent, as is the segment itself. *)
Theorem only_the_first_partial_is_independent
    (s : TSFragmenter) (msn i : Z) (seg : Segment.t) (p : PartialSegment.t) :
  Reachable s ->
  M3U8_Get_Segment s msn = Some seg ->
  Segment.getPartial seg i = Some p ->
  PartialSegment.getHasIFrame p = (i =? 0)
  /\ PartialSegment.getHasIFrame (Segment.base seg) = true.
Proof.
  intros R E Ep.
  pose proof (Reachable_Segment_sound s msn seg R E) as [_ _ S3 S4 _ _ _].
  split; [|exact S3].
  destruct (Forall_first_get _ _ _ _ _ S4 Ep) as [H0 H1].
  unfold PartialSegment.getHasIFrame. destruct (Z.eqb_spec i 0) as [Hi|Hi].
  - apply (H0 Hi).
  - apply (H1 Hi).
Qed.

End Fetched.

Lemma test_state_three_parts_Reachable : Reachable (lib := plain_lib) test_state_three_parts.
Proof.
  apply (Reachable_run (lib := plain_lib) (new_TSFragmenter None) test_three_parts
           test_state_three_parts []); [apply Reachable_new | reflexivity].
Qed.



Lemma segments_tile_the_window_witness :
  exists seg next,
    M3U8_Get_Segment test_state_three_parts 0 = Some seg
    /\ M3U8_Get_Segment test_state_three_parts 1 = Some next
    /\ PartialSegment.endPTS (Segment.base seg)
       = Some (PartialSegment.beginPTS (Segment.base next)).
Proof.
  destruct (M3U8_Get_Segment test_state_three_parts 0) as [seg|] eqn:E;
    [|vm_compute in E; discriminate].
  destruct (M3U8_Get_Segment test_state_three_parts 1) as [next|] eqn:En;
    [|vm_compute in En; discriminate].
  exists seg, next. split; [reflexivity|]. split; [reflexivity|].
  exact (segments_tile_the_window (lib := plain_lib) test_state_three_parts 0 seg next
           test_state_three_parts_Reachable E En).
Defined.


Lemma only_the_first_partial_is_independent_witness :
  exists seg p,
    M3U8_Get_Segment test_state_three_parts 0 = Some seg
    /\ Segment.getPartial seg 1 = Some p
    /\ PartialSegment.getHasIFrame p = false.
Proof.
  destruct (M3U8_Get_Segment test_state_three_parts 0) as [seg|] eqn:E;
    [|vm_compute in E; discriminate].
  destruct (Segment.getPartial seg 1) as [p|] eqn:Ep;
    [|vm_compute in E; inversion E; subst seg; vm_compute in Ep; discriminate].
  exists seg, p. split; [reflexivity|]. split; [exact Ep|].
  apply (only_the_first_partial_is_independent (lib := plain_lib)
           test_state_three_parts 0 1 seg p test_state_three_parts_Reachable E Ep).
Defined.


(** ** Sealed data is final *)

Lemma same_content_refl (p : PartialSegment.t) : same_content p p.
Proof. repeat split. Qed.

Lemma Partial_keeps_refl (p : PartialSegment.t) : Partial_keeps p p.
Proof. repeat split. Qed.

Lemma Partial_keeps_trans (p1 p2 p3 : PartialSegment.t) :
  Partial_keeps p1 p2 -> Partial_keeps p2 p3 -> Partial_keeps p1 p3.
Proof.
  intros (B1 & F1 & C1) (B2 & F2 & C2). split; [congruence|]. split; [congruence|].
  intros H. destruct (C1 H) as (a1 & a2 & a3 & a4 & a5).
  assert (H2 : PartialSegment.isCompleted p2 = true).
  { unfold PartialSegment.isCompleted in *. rewrite a2. exact H. }
  destruct (C2 H2) as (b1 & b2 & b3 & b4 & b5).
  repeat split; congruence.
Qed.

Lemma Partial_keeps_open (p p' : PartialSegment.t) :
  PartialSegment.isCompleted p = false ->
  PartialSegment.beginPTS p' = PartialSegment.beginPTS p ->
  PartialSegment.hasIFrame p' = PartialSegment.hasIFrame p ->
  Partial_keeps p p'.
Proof. intros Ho Hb Hf. split; [exact Hb|]. split; [exact Hf|]. congruence. Qed.

Lemma Partial_keeps_addCallback (p : PartialSegment.t) (cb : Callback) :
  Partial_keeps p (PartialSegment.addCallback p cb).
Proof. repeat split. Qed.

(** Replacing one element by a related one, and appending. *)
Lemma array_get_replace_extend {A : Type} (K : A -> A -> Prop)
    (init rest extra : list A) (x x' : A) :
  (forall a, K a a) -> K x x' ->
  forall i a, array_get (init ++ x :: rest) i = Some a ->
              exists a', array_get (init ++ x' :: rest ++ extra) i = Some a' /\ K a a'.
Proof.
  intros Hrefl Hx i a. unfold array_get. destruct (i <? 0); [discriminate|].
  generalize (Z.to_nat i). clear i. intros n.
  destruct (Nat.lt_ge_cases n (List.length init)) as [L|G].
  - rewrite !nth_error_app1 by assumption. intros E. exists a. auto.
  - rewrite !nth_error_app2 by assumption.
    destruct (n - List.length init)%nat as [|m]; simpl.
    + intros E. inversion E; subst. exists x'. auto.
    + intros E. exists a. split; [|apply Hrefl].
      rewrite nth_error_app1; [exact E|]. apply nth_error_Some. congruence.
Qed.

Lemma Segment_keeps_refl (seg : Segment.t) : Segment_keeps seg seg.
Proof.
  split; [reflexivity|]. split; [apply Partial_keeps_refl|]. split; [|reflexivity].
  intros i p E. exists p. split; [exact E | apply Partial_keeps_refl].
Qed.

Lemma Segment_keeps_trans (s1 s2 s3 : Segment.t) :
  Segment_keeps s1 s2 -> Segment_keeps s2 s3 -> Segment_keeps s1 s3.
Proof.
  intros (D1 & B1 & P1 & L1) (D2 & B2 & P2 & L2).
  split; [congruence|]. split; [eapply Partial_keeps_trans; eauto|]. split.
  - intros i p E. destruct (P1 i p E) as (p' & E' & K').
    destruct (P2 i p' E') as (p'' & E'' & K'').
    exists p''. split; [exact E''|]. eapply Partial_keeps_trans; eauto.
  - intros H. rewrite L2, L1; auto.
    destruct B1 as (_ & _ & C1). destruct (C1 H) as (_ & a2 & _).
    unfold Segment.isCompleted, PartialSegment.isCompleted in *. now rewrite a2.
Qed.

(** An open segment may change its last partial and get new ones. *)
Lemma Segment_keeps_open (seg : Segment.t) (pinit extra : list PartialSegment.t)
    (lastP lastP' base' : PartialSegment.t) :
  Segment.parts seg = pinit ++ [lastP] ->
  PartialSegment.isCompleted (Segment.base seg) = false ->
  PartialSegment.beginPTS base' = PartialSegment.beginPTS (Segment.base seg) ->
  PartialSegment.hasIFrame base' = PartialSegment.hasIFrame (Segment.base seg) ->
  Partial_keeps lastP lastP' ->
  Segment_keeps seg
    (Segment.mk base' (pinit ++ lastP' :: extra) (Segment.programDateTime seg)).
Proof.
  intros E Ho Hb Hf Hk. split; [reflexivity|].
  split; [now apply Partial_keeps_open|]. split.
  - unfold Segment.getPartial. cbn [Segment.parts]. rewrite E.
    apply (array_get_replace_extend Partial_keeps pinit [] extra lastP lastP');
      [apply Partial_keeps_refl | exact Hk].
  - unfold Segment.isCompleted. congruence.
Qed.

(** Any segment may get callbacks. *)
Lemma Segment_keeps_callbacks (seg : Segment.t) (pinit prest : list PartialSegment.t)
    (p p' base' : PartialSegment.t) :
  Segment.parts seg = pinit ++ p :: prest ->
  Partial_keeps (Segment.base seg) base' ->
  Partial_keeps p p' ->
  Segment_keeps seg
    (Segment.mk base' (pinit ++ p' :: prest) (Segment.programDateTime seg)).
Proof.
  intros E Hb Hk. split; [reflexivity|]. split; [exact Hb|]. split.
  - unfold Segment.getPartial. cbn [Segment.parts]. rewrite E.
    intros i q Eq.
    destruct (array_get_replace_extend Partial_keeps pinit prest [] p p'
                Partial_keeps_refl Hk i q Eq) as (q' & Eq' & Kq).
    rewrite app_nil_r in Eq'. eauto.
  - intros _. unfold Segment.getLength. cbn [Segment.parts]. rewrite E.
    unfold array_length. rewrite !length_app. reflexivity.
Qed.

Lemma Keeps_refl (s : TSFragmenter) : Keeps s s.
Proof.
  constructor; try lia. intros i seg E _. exists seg. split; [exact E|].
  apply Segment_keeps_refl.
Qed.

Lemma Keeps_trans (s1 s2 s3 : TSFragmenter) : Keeps s1 s2 -> Keeps s2 s3 -> Keeps s1 s3.
Proof.
  intros [B1 E1 K1] [B2 E2 K2]. constructor; try lia.
  intros i seg E H. destruct (K1 i seg E ltac:(lia)) as (seg' & E' & Hk').
  destruct (K2 i seg' E' H) as (seg'' & E'' & Hk'').
  exists seg''. split; [exact E''|]. eapply Segment_keeps_trans; eauto.
Qed.

(** The same sequence numbers, one segment replaced by a related one,
    new segments behind. *)
Lemma Keeps_replace (s s' : TSFragmenter) (init rest extra : list Segment.t)
    (x x' : Segment.t) :
  M3U8_Segments s = init ++ x :: rest ->
  M3U8_Segments s' = init ++ x' :: rest ++ extra ->
  M3U8_Begin_Sequence_Number s' = M3U8_Begin_Sequence_Number s ->
  M3U8_End_Sequence_Number s <= M3U8_End_Sequence_Number s' ->
  Segment_keeps x x' ->
  Keeps s s'.
Proof.
  intros E E' Hb He Hk. constructor; [lia | exact He|].
  intros i seg Eg _. rewrite E in Eg. rewrite E', Hb.
  exact (array_get_replace_extend Segment_keeps init rest extra x x'
           Segment_keeps_refl Hk _ _ Eg).
Qed.

Lemma Keeps_Evict (s : TSFragmenter) : Keeps s (M3U8_Evict s).
Proof.
  unfold M3U8_Evict. destruct (_ <? _); [|apply Keeps_refl].
  constructor; cbn [M3U8_Begin_Sequence_Number M3U8_End_Sequence_Number
                      M3U8_Segments set_M3U8]; try lia.
  intros i seg E H. exists seg. split; [|apply Segment_keeps_refl].
  rewrite array_get_tl by lia.
  replace (i - (M3U8_Begin_Sequence_Number s + 1) + 1)
    with (i - M3U8_Begin_Sequence_Number s) by lia.
  exact E.
Qed.

(** Every mutation keeps what is sealed. *)
Lemma Mutation_Keeps (s s' : TSFragmenter) (f r : list Callback) :
  WF s -> Mutation s s' f r -> Keeps s s'.
Proof.
  intros W M.
  destruct M as [s s' (Eb & Ee & Es) _ _
                |s init lastS pinit lastP pkt E Ep
                |s init lastS pinit lastP pts E Ep D Hlo Hhi
                |s pts now E D
                |s init lastS pinit lastP pts now E Ep D
                |s init seg rest cb E
                |s init seg rest pinit p prest cb E Ep].
  - constructor; try lia. intros i seg E _. rewrite Es, Eb. exists seg.
    split; [exact E | apply Segment_keeps_refl].
  - destruct (WF_last_open s init lastS pinit lastP W E Ep) as (_ & Hb & _ & Hl).
    apply (Keeps_replace s _ init [] [] lastS
             (Segment.mk (PartialSegment.addPacket (Segment.base lastS) pkt)
                (pinit ++ [PartialSegment.addPacket lastP pkt])
                (Segment.programDateTime lastS)));
      [exact E | reflexivity | reflexivity | cbn; lia |].
    apply (Segment_keeps_open lastS pinit [] lastP); auto; try apply Hb.
    apply Partial_keeps_open; auto. apply Hl.
  - destruct (WF_last_open s init lastS pinit lastP W E Ep) as (_ & Hb & _ & Hl).
    apply (Keeps_replace s _ init [] [] lastS
             (Segment.mk (Segment.base lastS)
                (pinit ++ [fst (PartialSegment.complete lastP pts);
                           PartialSegment.new pts None])
                (Segment.programDateTime lastS)));
      [exact E | reflexivity | reflexivity | cbn; lia |].
    apply (Segment_keeps_open lastS pinit [PartialSegment.new pts None] lastP);
      auto; try apply Hb.
    apply Partial_keeps_open; auto. apply Hl.
  - eapply Keeps_trans; [|apply Keeps_Evict].
    constructor; cbn [M3U8_Begin_Sequence_Number M3U8_End_Sequence_Number
                        M3U8_Segments set_M3U8]; try lia.
    intros i seg Eg _. rewrite E in Eg. unfold array_get in Eg.
    destruct (_ <? 0); [discriminate|]. now destruct (Z.to_nat _).
  - destruct (WF_last_open s init lastS pinit lastP W E Ep) as (_ & Hb & _ & Hl).
    eapply Keeps_trans; [|apply Keeps_Evict].
    apply (Keeps_replace s _ init [] [Segment.new pts (Some true) now] lastS
             (Segment.mk (fst (PartialSegment.complete (Segment.base lastS) pts))
                (pinit ++ [fst (PartialSegment.complete lastP pts)])
                (Segment.programDateTime lastS)));
      [exact E | reflexivity | reflexivity | cbn; lia |].
    apply (Segment_keeps_open lastS pinit [] lastP); auto; try apply Hb.
    apply Partial_keeps_open; auto. apply Hl.
  - apply (Keeps_replace s _ init rest [] seg (Segment.addCallback seg cb));
      [exact E
      |cbn [M3U8_Segments set_M3U8_Segments set_M3U8]; now rewrite app_nil_r
      |reflexivity | cbn; lia |].
    split; [reflexivity|]. split; [apply Partial_keeps_addCallback|].
    split; [|reflexivity]. intros i q Eq. exists q.
    split; [exact Eq | apply Partial_keeps_refl].
  - apply (Keeps_replace s _ init rest [] seg
             (Segment.mk (Segment.base seg)
                (pinit ++ PartialSegment.addCallback p cb :: prest)
                (Segment.programDateTime seg)));
      [exact E
      |cbn [M3U8_Segments set_M3U8_Segments set_M3U8]; now rewrite app_nil_r
      |reflexivity | cbn; lia |].
    apply (Segment_keeps_callbacks seg pinit prest p); auto.
    + apply Partial_keeps_refl.
    + apply Partial_keeps_addCallback.
Qed.

Lemma Mutations_Keeps (s s' : TSFragmenter) (f r : list Callback) :
  Mutations s s' f r -> Keeps s s'.
Proof.
  induction 1 as [s W|s s1 s2 f1 f2 r1 r2 W M Ms IH]; [apply Keeps_refl|].
  eapply Keeps_trans; [exact (Mutation_Keeps _ _ _ _ W M) | exact IH].
Qed.



Lemma same_content_sealed (p p' : PartialSegment.t) :
  same_content p p' ->
  PartialSegment.isCompleted p' = PartialSegment.isCompleted p
  /\ PartialSegment.getSeconds p' = PartialSegment.getSeconds p
  /\ PartialSegment.getBuffer p' = PartialSegment.getBuffer p
  /\ PartialSegment.getHasIFrame p' = PartialSegment.getHasIFrame p.
Proof.
  intros (H1 & H2 & H3 & H4 & H5).
  unfold PartialSegment.isCompleted, PartialSegment.getSeconds, PartialSegment.getBuffer,
    PartialSegment.getHasIFrame.
  rewrite H1, H2, H3, H4. auto.
Qed.



Section Final.

Context {lib : Collaborators}.

Lemma run_Keeps (s s' : TSFragmenter) (calls : list Call) (f : list Callback) :
  Reachable s -> run s calls = Some (s', f) -> Keeps s s' /\ WF s /\ WF s'.
Proof.
  intros R E. pose proof (Reachable_WF s R) as W.
  destruct (run_trace calls s W) as (s1 & f1 & r1 & E1 & M & _).
  rewrite E in E1. inversion E1; subst s1 f1.
  split; [exact (Mutations_Keeps _ _ _ _ M)|]. split; [exact W|].
  exact (Mutations_WF_r _ _ _ _ M).
Qed.

Lemma Get_Segment_in_range (s : TSFragmenter) (msn : Z) :
  inRangeSegment s msn = true ->
  M3U8_Begin_Sequence_Number s <= msn < M3U8_End_Sequence_Number s
  /\ M3U8_Get_Segment s msn
     = array_get (M3U8_Segments s) (msn - M3U8_Begin_Sequence_Number s).
Proof.
  intros H. unfold M3U8_Get_Segment. rewrite H. split; [|reflexivity].
  unfold inRangeSegment in H.
  destruct (Z.ltb_spec msn (M3U8_Begin_Sequence_Number s)); [discriminate|].
  destruct (Z.leb_spec (M3U8_End_Sequence_Number s) msn); [discriminate|]. lia.
Qed.

(** A segment of the window that is still in the window later. *)
Lemma Keeps_Get_Segment (s s' : TSFragmenter) (msn : Z) (seg : Segment.t) :
  Keeps s s' ->
  M3U8_Get_Segment s msn = Some seg ->
  inRangeSegment s' msn = true ->
  exists seg', M3U8_Get_Segment s' msn = Some seg' /\ Segment_keeps seg seg'.
Proof.
  intros K E R'. destruct (Get_Segment_in_range s' msn R') as [B' ->].
  apply Get_Segment_index in E. exact (Keeps_segments s s' K msn seg E ltac:(lia)).
Qed.

Lemma inRangePartial_WF (s : TSFragmenter) (msn part : Z) :
  WF s ->
  inRangePartial s msn part
  = Some (match lookup_partial s msn part with Some _ => true | None => false end).
Proof.
  intros W. pose proof (M3U8_Get_Partial_WF s msn part W) as H.
  unfold M3U8_Get_Partial in H. unfold lookup_partial, M3U8_Get_Segment in *.
  unfold inRangePartial in *.
  destruct (negb (inRangeSegment s msn)); [reflexivity|].
  destruct (array_get (M3U8_Segments s) (msn - M3U8_Begin_Sequence_Number s));
    [|discriminate].
  now destruct (Segment.getPartial t part).
Qed.

Lemma getPartial_WF (s : TSFragmenter) (msn part : Z) :
  WF s ->
  getPartial s msn part
  = Some (match lookup_partial s msn part with
          | Some p => PartialSegment.getBuffer p
          | None => []
          end).
Proof.
  intros W. unfold getPartial. rewrite (M3U8_Get_Partial_WF s msn part W).
  now destruct (lookup_partial s msn part).
Qed.

(** X13. A sealed partial is final: as long as its segment stays in
    the window, every later state returns the same buffer for it and
    reports it as in range and fulfilled. *)
Theorem sealed_partial_is_final
    (s s' : TSFragmenter) (calls : list Call) (fired : list Callback) (msn part : Z) :
  Reachable s ->
  run s calls = Some (s', fired) ->
  inRangePartial s msn part = Some true ->
  isFulfilledPartial s msn part = Some true ->
  inRangeSegment s' msn = true ->
  getPartial s' msn part = getPartial s msn part
  /\ inRangePartial s' msn part = Some true
  /\ isFulfilledPartial s' msn part = Some true.
Proof.
  intros R E Hin Hful R'. destruct (run_Keeps s s' calls fired R E) as (K & W & W').
  rewrite (inRangePartial_WF s msn part W) in Hin.
  rewrite (isFulfilledPartial_WF s msn part W) in Hful.
  rewrite (getPartial_WF s msn part W), (getPartial_WF s' msn part W'),
    (inRangePartial_WF s' msn part W'), (isFulfilledPartial_WF s' msn part W').
  unfold lookup_partial in *.
  destruct (M3U8_Get_Segment s msn) as [seg|] eqn:Es; [|discriminate].
  destruct (Segment.getPartial seg part) as [p|] eqn:Ep; [|discriminate].
  inversion Hful as [Hc].
  destruct (Keeps_Get_Segment s s' msn seg K Es R') as (seg' & -> & (_ & _ & Hp & _)).
  destruct (Hp part p Ep) as (p' & -> & (_ & _ & Hsame)).
  destruct (same_content_sealed p p' (Hsame Hc)) as (Hc' & _ & Hb & _).
  rewrite Hb, Hc', Hc. auto.
Qed.


(** X15. Sequence numbers only advance: no call lowers the begin or
    the end MSN of the window, and an MSN below the window is never in
    range again. *)
Theorem sequence_numbers_only_advance
    (s s' : TSFragmenter) (calls : list Call) (fired : list Callback) :
  Reachable s ->
  run s calls = Some (s', fired) ->
  M3U8_Begin_Sequence_Number s <= M3U8_Begin_Sequence_Number s'
  /\ M3U8_End_Sequence_Number s <= M3U8_End_Sequence_Number s'
  /\ forall msn, msn < M3U8_Begin_Sequence_Number s -> inRangeSegment s' msn = false.
Proof.
  intros R E. destruct (run_Keeps s s' calls fired R E) as ([Hb He _] & _ & _).
  split; [exact Hb|]. split; [exact He|]. intros msn Hm. unfold inRangeSegment.
  destruct (Z.ltb_spec msn (M3U8_Begin_Sequence_Number s')); [reflexivity | lia].
Qed.

End Final.

Lemma test_state_one_part_cut_Reachable :
  Reachable (lib := plain_lib) test_state_one_part_cut.
Proof.
  apply (Reachable_run (lib := plain_lib) (new_TSFragmenter None) test_one_part_cut
           test_state_one_part_cut []); [apply Reachable_new | reflexivity].
Qed.

(** Partial 0 of segment 0, sealed by the part cut, after the next IDR
    access unit. *)
Lemma sealed_partial_is_final_witness :
  exists s' fired,
    run (lib := plain_lib) test_state_one_part_cut
      [Call_write [test_video_arrival 5 180000 true]] = Some (s', fired)
    /\ getPartial s' 0 0 = getPartial test_state_one_part_cut 0 0.
Proof.
  destruct (run (lib := plain_lib) test_state_one_part_cut
              [Call_write [test_video_arrival 5 180000 true]])
    as [[s' fired]|] eqn:E; [|vm_compute in E; discriminate].
  exists s', fired. split; [reflexivity|].
  apply (sealed_partial_is_final (lib := plain_lib) test_state_one_part_cut s'
           [Call_write [test_video_arrival 5 180000 true]] fired 0 0
           test_state_one_part_cut_Reachable E).
  - reflexivity.
  - reflexivity.
  - vm_compute in E. inversion E. reflexivity.
Defined.


Lemma sequence_numbers_only_advance_witness :
  exists s' fired,
    run (lib := plain_lib) (new_TSFragmenter None) test_five_segments = Some (s', fired)
    /\ 0 <= M3U8_Begin_Sequence_Number s'
    /\ 0 <= M3U8_End_Sequence_Number s'.
Proof.
  destruct (run (lib := plain_lib) (new_TSFragmenter None) test_five_segments)
    as [[s' fired]|] eqn:E; [|vm_compute in E; discriminate].
  exists s', fired. split; [reflexivity|].
  destruct (sequence_numbers_only_advance (lib := plain_lib) (new_TSFragmenter None) s'
              test_five_segments fired (Reachable_new None) E) as (Hb & He & _).
  split; assumption.
Defined.


(** ** Only open objects fire callbacks *)

Lemma list_sum_snoc (l : list nat) (x : nat) : list_sum (l ++ [x]) = (list_sum l + x)%nat.
Proof. rewrite list_sum_app. simpl. lia. Qed.

Lemma Armed_le (c : Callback) (p : PartialSegment.t) :
  (Armed c p <= Partial_count c p)%nat.
Proof. unfold Armed. destruct (PartialSegment.isCompleted p); lia. Qed.

Lemma Armed_open (c : Callback) (p : PartialSegment.t) :
  PartialSegment.isCompleted p = false -> Armed c p = Partial_count c p.
Proof. unfold Armed. now intros ->. Qed.

Lemma Armed_sealed (c : Callback) (p : PartialSegment.t) :
  PartialSegment.isCompleted p = true -> Armed c p = 0%nat.
Proof. unfold Armed. now intros ->. Qed.

Lemma Armed_addPacket (c : Callback) (p : PartialSegment.t) (pkt : Buffer) :
  Armed c (PartialSegment.addPacket p pkt) = Armed c p.
Proof. reflexivity. Qed.

Lemma Armed_addCallback (c cb : Callback) (p : PartialSegment.t) :
  cb <> c -> Armed c (PartialSegment.addCallback p cb) = Armed c p.
Proof.
  intros H. unfold Armed.
  change (PartialSegment.isCompleted (PartialSegment.addCallback p cb))
    with (PartialSegment.isCompleted p).
  rewrite Partial_count_addCallback.
  destruct (Nat.eqb_spec cb c); [contradiction|]. now rewrite Nat.add_0_r.
Qed.

Lemma Parts_armed_le (c : Callback) (l : list PartialSegment.t) :
  (list_sum (map (Armed c) l) <= list_sum (map (Partial_count c) l))%nat.
Proof.
  induction l as [|p l IH]; simpl; [lia|]. pose proof (Armed_le c p). lia.
Qed.

Lemma Segment_armed_le (c : Callback) (seg : Segment.t) :
  (Segment_armed c seg <= Segment_count c seg)%nat.
Proof.
  unfold Segment_armed, Segment_count.
  pose proof (Armed_le c (Segment.base seg)).
  pose proof (Parts_armed_le c (Segment.parts seg)). lia.
Qed.

Lemma Window_armed_le (c : Callback) (s : TSFragmenter) :
  (Window_armed c s <= Window_count c s)%nat.
Proof.
  unfold Window_armed, Window_count.
  induction (M3U8_Segments s) as [|seg l IH]; simpl; [lia|].
  pose proof (Segment_armed_le c seg). lia.
Qed.

Lemma Parts_armed_sealed (c : Callback) (l : list PartialSegment.t) :
  Forall Partial_sealed l -> list_sum (map (Armed c) l) = 0%nat.
Proof.
  induction 1 as [|p l [_ Hp] _ IH]; simpl; [reflexivity|].
  now rewrite (Armed_sealed c p Hp), IH.
Qed.

Lemma Segment_armed_sealed (c : Callback) (seg : Segment.t) :
  Segment_sealed seg -> Segment_armed c seg = 0%nat.
Proof.
  intros ([_ Hb] & _ & Hp). unfold Segment_armed.
  now rewrite (Armed_sealed c _ Hb), (Parts_armed_sealed c _ Hp).
Qed.

Lemma Segments_armed_app (c : Callback) (a b : list Segment.t) :
  list_sum (map (Segment_armed c) (a ++ b))
  = (list_sum (map (Segment_armed c) a) + list_sum (map (Segment_armed c) b))%nat.
Proof. now rewrite map_app, list_sum_app. Qed.

Lemma Parts_armed_app (c : Callback) (a b : list PartialSegment.t) :
  list_sum (map (Armed c) (a ++ b))
  = (list_sum (map (Armed c) a) + list_sum (map (Armed c) b))%nat.
Proof. now rewrite map_app, list_sum_app. Qed.

Lemma Segments_armed_snoc (c : Callback) (a : list Segment.t) (x : Segment.t) :
  list_sum (map (Segment_armed c) (a ++ [x]))
  = (list_sum (map (Segment_armed c) a) + Segment_armed c x)%nat.
Proof. rewrite Segments_armed_app. simpl. lia. Qed.

Lemma Segments_armed_middle (c : Callback) (a b : list Segment.t) (x : Segment.t) :
  list_sum (map (Segment_armed c) (a ++ x :: b))
  = (list_sum (map (Segment_armed c) a) + Segment_armed c x
     + list_sum (map (Segment_armed c) b))%nat.
Proof. rewrite Segments_armed_app. simpl. lia. Qed.

Lemma Parts_armed_snoc (c : Callback) (a : list PartialSegment.t) (x : PartialSegment.t) :
  list_sum (map (Armed c) (a ++ [x])) = (list_sum (map (Armed c) a) + Armed c x)%nat.
Proof. rewrite Parts_armed_app. simpl. lia. Qed.

Lemma Parts_armed_middle (c : Callback) (a b : list PartialSegment.t)
    (x : PartialSegment.t) :
  list_sum (map (Armed c) (a ++ x :: b))
  = (list_sum (map (Armed c) a) + Armed c x + list_sum (map (Armed c) b))%nat.
Proof. rewrite Parts_armed_app. simpl. lia. Qed.

Lemma Armed_complete (c : Callback) (p : PartialSegment.t) (e : Z) :
  Armed c (fst (PartialSegment.complete p e)) = 0%nat.
Proof. reflexivity. Qed.

Lemma Armed_new (c : Callback) (b : Z) (h : option bool) :
  Armed c (PartialSegment.new b h) = 0%nat.
Proof. reflexivity. Qed.

Lemma Segment_armed_new (c : Callback) (b : Z) (h : option bool) (now : string) :
  Segment_armed c (Segment.new b h now) = 0%nat.
Proof. reflexivity. Qed.

Lemma Segment_armed_mk (c : Callback) (b : PartialSegment.t)
    (l : list PartialSegment.t) (d : string) :
  Segment_armed c (Segment.mk b l d) = (Armed c b + list_sum (map (Armed c) l))%nat.
Proof. reflexivity. Qed.

Lemma Segment_armed_eq (c : Callback) (seg : Segment.t) :
  Segment_armed c seg
  = (Armed c (Segment.base seg) + list_sum (map (Armed c) (Segment.parts seg)))%nat.
Proof. reflexivity. Qed.

Lemma Window_armed_set (c : Callback) (s : TSFragmenter) (segments : list Segment.t) :
  Window_armed c (set_M3U8_Segments s segments)
  = list_sum (map (Segment_armed c) segments).
Proof. reflexivity. Qed.

(** Eviction removes no open object. *)
Lemma Window_armed_Evict (c : Callback) (s : TSFragmenter) :
  (forall seg, hd_error (M3U8_Segments s) = Some seg -> Segment_armed c seg = 0%nat) ->
  Window_armed c (M3U8_Evict s) = Window_armed c s.
Proof.
  intros H. unfold M3U8_Evict. destruct (_ <? _); [|reflexivity].
  unfold Window_armed. cbn [M3U8_Segments set_M3U8].
  destruct (M3U8_Segments s) as [|seg l]; [reflexivity|]. simpl.
  now rewrite (H seg eq_refl).
Qed.

(** A mutation that does not register [c] fires it as many times as it
    disarms it. *)
Lemma Mutation_armed (c : Callback) (s s' : TSFragmenter) (f r : list Callback) :
  WF s -> Mutation s s' f r -> ~ In c r ->
  (fired_count c f + Window_armed c s' = Window_armed c s)%nat.
Proof.
  intros W M Hr.
  destruct M as [s s' (Eb & Ee & Es) _ _
                |s init lastS pinit lastP pkt E Ep
                |s init lastS pinit lastP pts E Ep D Hlo Hhi
                |s pts now E D
                |s init lastS pinit lastP pts now E Ep D
                |s init seg rest cb E
                |s init seg rest pinit p prest cb E Ep].
  - unfold Window_armed. now rewrite Es.
  - rewrite Window_armed_set. unfold Window_armed.
    rewrite E, !Segments_armed_snoc, Segment_armed_mk. unfold Segment_armed.
    rewrite Ep, !Parts_armed_snoc, !Armed_addPacket. reflexivity.
  - destruct (WF_last_open s init lastS pinit lastP W E Ep) as (_ & Hb & _ & Hl).
    rewrite Window_armed_set. unfold Window_armed.
    rewrite E, !Segments_armed_snoc, Segment_armed_mk. unfold Segment_armed.
    replace (pinit ++ [fst (PartialSegment.complete lastP pts); PartialSegment.new pts None])
      with ((pinit ++ [fst (PartialSegment.complete lastP pts)])
              ++ [PartialSegment.new pts None]) by now rewrite <- app_assoc.
    rewrite Ep, !Parts_armed_snoc, Armed_complete, Armed_new.
    rewrite (Armed_open c lastP) by apply Hl. unfold Partial_count. lia.
  - rewrite Window_armed_Evict.
    + unfold Window_armed. cbn [M3U8_Segments set_M3U8]. now rewrite E.
    + cbn [M3U8_Segments set_M3U8 hd_error]. intros seg H. inversion H; subst.
      reflexivity.
  - destruct (WF_last_open s init lastS pinit lastP W E Ep) as (Hi & Hb & Hpi & Hl).
    rewrite Window_armed_Evict.
    + unfold Window_armed. cbn [M3U8_Segments set_M3U8].
      replace (init ++
               [Segment.mk (fst (PartialSegment.complete (Segment.base lastS) pts))
                  (pinit ++ [fst (PartialSegment.complete lastP pts)])
                  (Segment.programDateTime lastS);
                Segment.new pts (Some true) now])
        with ((init ++
               [Segment.mk (fst (PartialSegment.complete (Segment.base lastS) pts))
                  (pinit ++ [fst (PartialSegment.complete lastP pts)])
                  (Segment.programDateTime lastS)])
                ++ [Segment.new pts (Some true) now]) by now rewrite <- app_assoc.
      rewrite E, !Segments_armed_snoc, Segment_armed_mk, Segment_armed_new.
      unfold Segment_armed. rewrite Ep, !Parts_armed_snoc, !Armed_complete.
      rewrite (Armed_open c lastP) by apply Hl.
      rewrite (Armed_open c (Segment.base lastS)) by apply Hb.
      rewrite fired_count_app. unfold Partial_count. lia.
    + cbn [M3U8_Segments set_M3U8]. intros seg H. destruct init as [|x init].
      * simpl in H. inversion H; subst. rewrite Segment_armed_mk, Parts_armed_snoc.
        rewrite (Parts_armed_sealed c pinit Hpi). reflexivity.
      * simpl in H. inversion H; subst. apply Segment_armed_sealed.
        now inversion Hi.
  - assert (Hne : cb <> c) by (intros ->; apply Hr; now left).
    rewrite Window_armed_set. unfold Window_armed.
    rewrite E, !Segments_armed_middle. unfold Segment_armed.
    cbn [Segment.base Segment.parts Segment.addCallback].
    rewrite (Armed_addCallback c cb _ Hne). reflexivity.
  - assert (Hne : cb <> c) by (intros ->; apply Hr; now left).
    rewrite Window_armed_set. unfold Window_armed.
    rewrite E, !Segments_armed_middle, Segment_armed_mk. unfold Segment_armed.
    rewrite Ep, !Parts_armed_middle, (Armed_addCallback c cb _ Hne). reflexivity.
Qed.

Lemma Mutations_armed (c : Callback) (s s' : TSFragmenter) (f r : list Callback) :
  Mutations s s' f r -> ~ In c r ->
  (fired_count c f + Window_armed c s' = Window_armed c s)%nat.
Proof.
  induction 1 as [s W|s s1 s2 f1 f2 r1 r2 W M Ms IH]; intros Hr; [reflexivity|].
  rewrite fired_count_app.
  pose proof (Mutation_armed c _ _ _ _ W M ltac:(intros H; apply Hr, in_or_app; now left)).
  specialize (IH ltac:(intros H'; apply Hr, in_or_app; now right)). lia.
Qed.

Section Sealed_targets.

Context {lib : Collaborators}.

Lemma run_armed (c : Callback) (s s' : TSFragmenter) (calls : list Call)
    (f : list Callback) :
  WF s -> run s calls = Some (s', f) ->
  forallb (fun k => negb (registers c k)) calls = true ->
  (fired_count c f + Window_armed c s' = Window_armed c s)%nat
  /\ Keeps s s' /\ WF s'.
Proof.
  intros W E Hreg. destruct (run_trace calls s W) as (s1 & f1 & r1 & E1 & M & Hr).
  rewrite E in E1. inversion E1; subst s1 f1.
  split; [exact (Mutations_armed c _ _ _ _ M (Hr c Hreg))|].
  split; [exact (Mutations_Keeps _ _ _ _ M) | exact (Mutations_WF_r _ _ _ _ M)].
Qed.

Lemma call_armed (c : Callback) (s s' : TSFragmenter) (k : Call) (f : list Callback) :
  WF s -> call s k = Some (s', f) -> registers c k = false ->
  (fired_count c f + Window_armed c s' = Window_armed c s)%nat
  /\ Keeps s s' /\ WF s'.
Proof.
  intros W E Hreg. destruct (call_trace s k W) as (s1 & f1 & r1 & E1 & M & Hr).
  rewrite E in E1. inversion E1; subst s1 f1.
  split; [exact (Mutations_armed c _ _ _ _ M (Hr c Hreg))|].
  split; [exact (Mutations_Keeps _ _ _ _ M) | exact (Mutations_WF_r _ _ _ _ M)].
Qed.

(** X16. A callback registered on a sealed partial is accepted but
    never invoked: the registration returns [true], and no later call
    fires the callback. *)
Theorem callback_on_a_sealed_partial_never_fires
    (s : TSFragmenter) (msn part : Z) (c : Callback) :
  Reachable s ->
  inRangePartial s msn part = Some true ->
  isFulfilledPartial s msn part = Some true ->
  Window_count c s = 0%nat ->
  exists registered,
    addPartialCallback s msn part c = Some (registered, true)
    /\ forall calls s' fired,
        forallb (fun k => negb (registers c k)) calls = true ->
        run registered calls = Some (s', fired) ->
        fired_count c fired = 0%nat.
Proof.
  intros R Hin Hful Hnew. pose proof (Reachable_WF s R) as W.
  rewrite (inRangePartial_WF s msn part W) in Hin.
  rewrite (isFulfilledPartial_WF s msn part W) in Hful.
  destruct (lookup_partial s msn part) as [p|] eqn:El; [|discriminate].
  assert (Hc : PartialSegment.isCompleted p = true) by congruence. clear Hin Hful.
  destruct (lookup_partial_split _ _ _ _ El)
    as (init & seg & rest & pinit & prest & Es & Ep & Ei & Epi & H0 & Rg).
  destruct (addPartialCallback_spec s msn part c W) as (s1 & ok & E1 & W1 & _).
  rewrite (addPartialCallback_exact s msn part c init rest seg pinit prest p) in *
    by assumption.
  eexists. split; [reflexivity|].
  assert (Es1 : set_M3U8_Segments s
                  (init ++ Segment.mk (Segment.base seg)
                             (pinit ++ PartialSegment.addCallback p c :: prest)
                             (Segment.programDateTime seg) :: rest) = s1) by congruence.
  rewrite Es1. clear E1.
  assert (Ha : Window_armed c s1 = 0%nat).
  { pose proof (Window_armed_le c s) as Hle. rewrite Hnew in Hle.
    rewrite <- Es1, Window_armed_set. unfold Window_armed in Hle.
    rewrite Es, Segments_armed_middle, (Segment_armed_eq c seg) in Hle.
    rewrite Ep, Parts_armed_middle in Hle.
    rewrite Segments_armed_middle, Segment_armed_mk, Parts_armed_middle.
    rewrite (Armed_sealed c (PartialSegment.addCallback p c) Hc). lia. }
  intros calls s' fired Hreg Erun.
  destruct (run_armed c s1 s' calls fired W1 Erun Hreg) as (Hcount & _). lia.
Qed.

(** X17. A callback registered on a sealed segment is accepted but
    never invoked. *)
Theorem callback_on_a_sealed_segment_never_fires
    (s : TSFragmenter) (msn : Z) (c : Callback) :
  Reachable s ->
  inRangeSegment s msn = true ->
  isFulfilledSegment s msn = true ->
  Window_count c s = 0%nat ->
  snd (addSegmentCallback s msn c) = true
  /\ forall calls s' fired,
      forallb (fun k => negb (registers c k)) calls = true ->
      run (fst (addSegmentCallback s msn c)) calls = Some (s', fired) ->
      fired_count c fired = 0%nat.
Proof.
  intros R Hin Hful Hnew. pose proof (Reachable_WF s R) as W.
  destruct (addSegmentCallback_spec s msn c W) as (W1 & _).
  unfold isFulfilledSegment in Hful. unfold addSegmentCallback in *.
  destruct (M3U8_Get_Segment s msn) as [seg|] eqn:E.
  2:{ unfold M3U8_Get_Segment in E. rewrite Hin in E. simpl in E.
      destruct (WF_Get_Segment s msn W Hin) as (seg & E' & _).
      unfold M3U8_Get_Segment in E'. rewrite Hin in E'. simpl in E'. congruence. }
  cbn [fst snd] in *. split; [reflexivity|].
  apply Get_Segment_index in E.
  destruct (array_get_split _ _ _ E) as (init & rest & Es & Ei & _).
  rewrite Ei, Es, array_set_app in *.
  set (s1 := set_M3U8_Segments s (init ++ Segment.addCallback seg c :: rest)) in *.
  assert (Ha : Window_armed c s1 = 0%nat).
  { pose proof (Window_armed_le c s) as Hle. rewrite Hnew in Hle.
    unfold s1. rewrite Window_armed_set. unfold Window_armed in Hle.
    rewrite Es, Segments_armed_middle, (Segment_armed_eq c seg) in Hle.
    rewrite Segments_armed_middle, (Segment_armed_eq c (Segment.addCallback seg c)).
    cbn [Segment.base Segment.parts Segment.addCallback].
    unfold Segment.isCompleted in Hful.
    rewrite (Armed_sealed c (PartialSegment.addCallback (Segment.base seg) c) Hful).
    lia. }
  intros calls s' fired Hreg Erun.
  destruct (run_armed c s1 s' calls fired W1 Erun Hreg) as (Hcount & _). lia.
Qed.

End Sealed_targets.

(** Partial 0 of segment 0 is sealed after the part cut; the callback
    7 registered on it is not fired by the next IDR access unit. *)
Lemma callback_on_a_sealed_partial_never_fires_witness :
  exists registered s' fired,
    addPartialCallback test_state_one_part_cut 0 0 7%nat = Some (registered, true)
    /\ run (lib := plain_lib) registered [Call_write [test_video_arrival 5 180000 true]]
       = Some (s', fired)
    /\ fired_count 7%nat fired = 0%nat.
Proof.
  destruct (callback_on_a_sealed_partial_never_fires (lib := plain_lib)
              test_state_one_part_cut 0 0 7%nat test_state_one_part_cut_Reachable
              eq_refl eq_refl eq_refl) as (registered & Ereg & H).
  destruct (run (lib := plain_lib) registered
              [Call_write [test_video_arrival 5 180000 true]])
    as [[s' fired]|] eqn:E.
  - exists registered, s', fired. split; [exact Ereg|]. split; [exact E|].
    exact (H [Call_write [test_video_arrival 5 180000 true]] s' fired eq_refl E).
  - vm_compute in Ereg. inversion Ereg; subst registered. vm_compute in E. discriminate.
Defined.

(** Segment 0 of the run with three parts is sealed. *)
Lemma callback_on_a_sealed_segment_never_fires_witness :
  exists s' fired,
    run (lib := plain_lib) (fst (addSegmentCallback test_state_three_parts 0 7%nat))
      [Call_write [test_video_arrival 7 333108 true]] = Some (s', fired)
    /\ fired_count 7%nat fired = 0%nat.
Proof.
  destruct (callback_on_a_sealed_segment_never_fires (lib := plain_lib)
              test_state_three_parts 0 7%nat test_state_three_parts_Reachable
              eq_refl eq_refl eq_refl) as (_ & H).
  destruct (run (lib := plain_lib) (fst (addSegmentCallback test_state_three_parts 0 7%nat))
              [Call_write [test_video_arrival 7 333108 true]])
    as [[s' fired]|] eqn:E.
  - exists s', fired. split; [reflexivity|].
    exact (H [Call_write [test_video_arrival 7 333108 true]] s' fired eq_refl E).
  - vm_compute in E. discriminate.
Defined.


(** ** The life of a registration on a segment *)

Lemma snoc_middle_cases {A : Type} (init0 rest init : list A) (x lastS : A) :
  init0 ++ x :: rest = init ++ [lastS] ->
  (rest = [] /\ init0 = init /\ x = lastS)
  \/ (exists rest', rest = rest' ++ [lastS] /\ init = init0 ++ x :: rest').
Proof.
  intros E. destruct rest as [|y rest] using rev_ind.
  - left. apply app_inj_tail in E. tauto.
  - right. clear IHrest. exists rest.
    change (init0 ++ x :: rest ++ [y]) with (init0 ++ (x :: rest) ++ [y]) in E.
    rewrite app_assoc in E. apply app_inj_tail in E. destruct E as [<- <-].
    auto.
Qed.

Lemma Evict_end (s : TSFragmenter) :
  M3U8_End_Sequence_Number (M3U8_Evict s) = M3U8_End_Sequence_Number s.
Proof. unfold M3U8_Evict. now destruct (_ <? _). Qed.

Lemma Partial_count_addCallback_other (c cb : Callback) (p : PartialSegment.t) :
  cb <> c -> Partial_count c (PartialSegment.addCallback p cb) = Partial_count c p.
Proof.
  intros H. rewrite Partial_count_addCallback.
  destruct (Nat.eqb_spec cb c); [contradiction | lia].
Qed.

(** What a mutation that does not register [c] does to the
    registrations of [c] on the last segment: they stay, or the segment
    is sealed and they are fired. *)
Lemma Mutation_last_base (c : Callback) (s s' : TSFragmenter) (f r : list Callback)
    (init : list Segment.t) (lastS : Segment.t) :
  Mutation s s' f r -> ~ In c r ->
  M3U8_Segments s = init ++ [lastS] ->
  (exists init' lastS',
      M3U8_Segments s' = init' ++ [lastS']
      /\ M3U8_End_Sequence_Number s' = M3U8_End_Sequence_Number s
      /\ Partial_count c (Segment.base lastS') = Partial_count c (Segment.base lastS))
  \/ (M3U8_End_Sequence_Number s' = M3U8_End_Sequence_Number s + 1
      /\ (Partial_count c (Segment.base lastS) <= fired_count c f)%nat).
Proof.
  intros M Hr El.
  destruct M as [s s' (Eb & Ee & Es) _ _
                |s init0 lastS0 pinit lastP pkt E Ep
                |s init0 lastS0 pinit lastP pts E Ep D Hlo Hhi
                |s pts now E D
                |s init0 lastS0 pinit lastP pts now E Ep D
                |s init0 seg rest cb E
                |s init0 seg rest pinit p prest cb E Ep].
  - left. exists init, lastS. rewrite Es. auto.
  - rewrite E in El. apply app_inj_tail in El. destruct El as [-> ->].
    left. eexists _, _. split; [apply M3U8_Segments_set|]. split; reflexivity.
  - rewrite E in El. apply app_inj_tail in El. destruct El as [-> ->].
    left. eexists _, _. split; [apply M3U8_Segments_set|]. split; reflexivity.
  - rewrite E in El. destruct init; discriminate.
  - rewrite E in El. apply app_inj_tail in El. destruct El as [-> ->].
    right. rewrite Evict_end. split; [reflexivity|].
    rewrite fired_count_app. unfold Partial_count. lia.
  - assert (Hne : cb <> c) by (intros ->; apply Hr; now left).
    rewrite E in El. left.
    destruct (snoc_middle_cases _ _ _ _ _ El) as [(-> & -> & ->)|(rest' & -> & ->)].
    + eexists _, _. split; [apply M3U8_Segments_set|]. split; [reflexivity|].
      apply Partial_count_addCallback_other, Hne.
    + exists (init0 ++ Segment.addCallback seg cb :: rest'), lastS.
      split; [|split; reflexivity].
      rewrite M3U8_Segments_set, <- app_assoc. reflexivity.
  - rewrite E in El. left.
    destruct (snoc_middle_cases _ _ _ _ _ El) as [(-> & -> & ->)|(rest' & -> & ->)].
    + eexists _, _. split; [apply M3U8_Segments_set|]. split; reflexivity.
    + eexists (init0 ++ _ :: rest'), lastS. split; [|split; reflexivity].
      rewrite M3U8_Segments_set, <- app_assoc. reflexivity.
Qed.

Lemma WF_last_base_open (s : TSFragmenter) (init : list Segment.t) (lastS : Segment.t) :
  WF s -> M3U8_Segments s = init ++ [lastS] ->
  PartialSegment.isCompleted (Segment.base lastS) = false
  /\ Forall Segment_sealed init
  /\ array_length init = M3U8_End_Sequence_Number s - M3U8_Begin_Sequence_Number s - 1.
Proof.
  intros W E. pose proof (WF_window s W) as Hw. pose proof (WF_size s W) as Hs.
  rewrite E in Hw, Hs. apply Forall_last_app in Hw. destruct Hw as [Hi ((_ & Hb) & _)].
  rewrite array_length_app in Hs. change (array_length [lastS]) with 1 in Hs.
  split; [exact Hb|]. split; [exact Hi | lia].
Qed.

Lemma Pending_Mutation (c : Callback) (s s' : TSFragmenter) (f r : list Callback)
    (msn : Z) :
  WF s -> WF s' -> Mutation s s' f r -> ~ In c r ->
  Segment_pending c s msn ->
  (Segment_pending c s' msn /\ fired_count c f = 0%nat)
  \/ (Segment_done c s' msn /\ fired_count c f = 1%nat).
Proof.
  intros W W' M Hr (Hm & (init & lastS & El & Hc) & Ha).
  pose proof (Mutation_armed c s s' f r W M Hr) as Harmed. rewrite Ha in Harmed.
  destruct (Mutation_last_base c s s' f r init lastS M Hr El)
    as [(init' & lastS' & El' & He & Hc')|(He & Hf)].
  - left. destruct (WF_last_base_open s' init' lastS' W' El') as (Ho & _ & _).
    assert (Hge : (1 <= Window_armed c s')%nat).
    { unfold Window_armed. rewrite El', Segments_armed_snoc, Segment_armed_eq.
      rewrite (Armed_open c _ Ho), Hc', Hc. lia. }
    split; [|lia]. split; [lia|]. split; [|lia].
    exists init', lastS'. split; [exact El' | congruence].
  - right. rewrite Hc in Hf. split; [|lia]. split; lia.
Qed.

Lemma Done_Mutation (c : Callback) (s s' : TSFragmenter) (f r : list Callback)
    (msn : Z) :
  WF s -> Mutation s s' f r -> ~ In c r ->
  Segment_done c s msn ->
  Segment_done c s' msn /\ fired_count c f = 0%nat.
Proof.
  intros W M Hr (Hm & Ha).
  pose proof (Mutation_armed c s s' f r W M Hr) as Harmed. rewrite Ha in Harmed.
  pose proof (Keeps_end _ _ (Mutation_Keeps s s' f r W M)) as He.
  split; [split|]; lia.
Qed.

Lemma Done_Mutations (c : Callback) (s s' : TSFragmenter) (f r : list Callback)
    (msn : Z) :
  Mutations s s' f r -> ~ In c r ->
  Segment_done c s msn ->
  Segment_done c s' msn /\ fired_count c f = 0%nat.
Proof.
  induction 1 as [s W|s s1 s2 f1 f2 r1 r2 W M Ms IH]; intros Hr Hd; [auto|].
  rewrite fired_count_app.
  destruct (Done_Mutation c s s1 f1 r1 msn W M
              ltac:(intros H; apply Hr, in_or_app; now left) Hd) as [Hd1 Hf1].
  destruct (IH ltac:(intros H; apply Hr, in_or_app; now right) Hd1) as [Hd2 Hf2].
  split; [exact Hd2 | lia].
Qed.

Lemma Pending_Mutations (c : Callback) (s s' : TSFragmenter) (f r : list Callback)
    (msn : Z) :
  Mutations s s' f r -> ~ In c r ->
  Segment_pending c s msn ->
  (Segment_pending c s' msn /\ fired_count c f = 0%nat)
  \/ (Segment_done c s' msn /\ fired_count c f = 1%nat).
Proof.
  induction 1 as [s W|s s1 s2 f1 f2 r1 r2 W M Ms IH]; intros Hr Hp; [left; auto|].
  rewrite fired_count_app.
  assert (Hr1 : ~ In c r1) by (intros H; apply Hr, in_or_app; now left).
  assert (Hr2 : ~ In c r2) by (intros H; apply Hr, in_or_app; now right).
  destruct (Pending_Mutation c s s1 f1 r1 msn W (Mutations_WF_l _ _ _ _ Ms) M Hr1 Hp)
    as [[Hp1 Hf1]|[Hd1 Hf1]].
  - destruct (IH Hr2 Hp1) as [[Hp2 Hf2]|[Hd2 Hf2]]; [left | right]; split; auto; lia.
  - destruct (Done_Mutations c s1 s2 f2 r2 msn Ms Hr2 Hd1) as [Hd2 Hf2].
    right. split; [exact Hd2 | lia].
Qed.

Section Segment_registration.

Context {lib : Collaborators}.

Lemma Pending_unfulfilled (c : Callback) (s : TSFragmenter) (msn : Z) :
  WF s -> Segment_pending c s msn -> isFulfilledSegment s msn = false.
Proof.
  intros W (Hm & (init & lastS & El & _) & _).
  destruct (WF_last_base_open s init lastS W El) as (Ho & _ & Hlen).
  assert (0 <= array_length init) by (unfold array_length; lia).
  unfold isFulfilledSegment, M3U8_Get_Segment, inRangeSegment.
  destruct (Z.ltb_spec msn (M3U8_Begin_Sequence_Number s)); [lia|].
  destruct (Z.leb_spec (M3U8_End_Sequence_Number s) msn); [lia|]. simpl.
  replace (msn - M3U8_Begin_Sequence_Number s) with (array_length (init ++ [lastS]) - 1).
  2:{ rewrite array_length_app. change (array_length [lastS]) with 1. lia. }
  rewrite El, array_get_last. exact Ho.
Qed.

Lemma Done_fulfilled (c : Callback) (s : TSFragmenter) (msn : Z) :
  WF s -> Segment_done c s msn -> isFulfilledSegment s msn = true.
Proof.
  intros W (Hm & _). unfold isFulfilledSegment.
  destruct (M3U8_Get_Segment s msn) as [seg|] eqn:E; [|reflexivity].
  assert (R : inRangeSegment s msn = true).
  { unfold M3U8_Get_Segment in E. destruct (inRangeSegment s msn); [auto|discriminate]. }
  destruct (Get_Segment_in_range s msn R) as [B Eg]. rewrite Eg in E.
  destruct (WF_view s W ltac:(lia)) as (init & lastS & _ & _ & El & _ & Hi & _ & _ & _ & Hlen).
  rewrite El, array_get_app_l in E by lia.
  destruct (array_get_Forall _ _ _ _ Hi E) as ((_ & Hc) & _). exact Hc.
Qed.

(** Registering a new callback on the open segment. *)
Lemma addSegmentCallback_Pending (c : Callback) (s : TSFragmenter) (msn : Z) :
  WF s ->
  inRangeSegment s msn = true ->
  isFulfilledSegment s msn = false ->
  Window_count c s = 0%nat ->
  snd (addSegmentCallback s msn c) = true
  /\ WF (fst (addSegmentCallback s msn c))
  /\ Segment_pending c (fst (addSegmentCallback s msn c)) msn.
Proof.
  intros W R Hopen Hnew. destruct (addSegmentCallback_spec s msn c W) as (W1 & _).
  split; [|split; [exact W1|]].
  { unfold addSegmentCallback. destruct (WF_Get_Segment s msn W R) as (seg & -> & _).
    reflexivity. }
  destruct (Get_Segment_in_range s msn R) as [B Eg].
  destruct (WF_view s W ltac:(lia)) as (init & lastS & _ & _ & El & _ & Hi & Hb & _ & _ & Hlen).
  unfold isFulfilledSegment in Hopen. unfold addSegmentCallback in *.
  rewrite Eg, El in *.
  destruct (Z.lt_ge_cases (msn - M3U8_Begin_Sequence_Number s) (array_length init))
    as [Hlt|Hge].
  { rewrite array_get_app_l in Hopen by exact Hlt.
    destruct (array_get init (msn - M3U8_Begin_Sequence_Number s)) as [seg|] eqn:E;
      [|discriminate].
    destruct (array_get_Forall _ _ _ _ Hi E) as ((_ & Hc) & _).
    unfold Segment.isCompleted in Hopen. congruence. }
  assert (Hidx : msn - M3U8_Begin_Sequence_Number s = array_length (init ++ [lastS]) - 1).
  { rewrite array_length_app. change (array_length [lastS]) with 1. lia. }
  rewrite Hidx, array_get_last, array_set_last in *. cbn [fst] in *.
  pose proof (Window_armed_le c s) as Hle. rewrite Hnew in Hle.
  unfold Window_armed in Hle. rewrite El, Segments_armed_snoc, Segment_armed_eq in Hle.
  unfold Window_count in Hnew. fold (Segments_count c (M3U8_Segments s)) in Hnew.
  rewrite El, Segments_count_app in Hnew. unfold Segments_count in Hnew at 2.
  simpl in Hnew. unfold Segment_count in Hnew.
  assert (Hc0 : Partial_count c (Segment.base lastS) = 0%nat) by lia.
  split; [|split].
  - cbn [M3U8_End_Sequence_Number set_M3U8_Segments set_M3U8]. lia.
  - eexists _, _. split; [apply M3U8_Segments_set|].
    cbn [Segment.base Segment.addCallback].
    rewrite Partial_count_addCallback, Nat.eqb_refl. lia.
  - rewrite Window_armed_set, Segments_armed_snoc, Segment_armed_eq.
    cbn [Segment.base Segment.parts Segment.addCallback].
    unfold Armed at 1.
    change (PartialSegment.isCompleted (PartialSegment.addCallback (Segment.base lastS) c))
      with (PartialSegment.isCompleted (Segment.base lastS)).
    replace (PartialSegment.isCompleted (Segment.base lastS)) with false
      by (symmetry; apply Hb).
    rewrite Partial_count_addCallback, Nat.eqb_refl. lia.
Qed.

(** X18. A new callback registered on the open segment is invoked
    exactly once, by the call during which that segment is sealed: in
    every run that follows the registration (without registering the
    same callback again), no call fires it while the segment stays
    unfulfilled, the call after which the segment is fulfilled fires it
    once, and no later call fires it. *)
Theorem segment_callback_fires_once_when_sealed :
  forall (this : TSFragmenter) (msn : Z) (c : Callback) (calls : list Call),
    Reachable this ->
    inRangeSegment this msn = true ->
    isFulfilledSegment this msn = false ->
    Window_count c this = 0%nat ->
    forallb (fun k => negb (registers c k)) calls = true ->
    snd (addSegmentCallback this msn c) = true
    /\ forall before k after,
        calls = before ++ k :: after ->
        exists sa fa sb fk sc fc,
          run (fst (addSegmentCallback this msn c)) before = Some (sa, fa)
          /\ call sa k = Some (sb, fk)
          /\ run sb after = Some (sc, fc)
          /\ (isFulfilledSegment sb msn = false ->
              isFulfilledSegment sa msn = false
              /\ fired_count c fa = 0%nat
              /\ fired_count c fk = 0%nat)
          /\ (isFulfilledSegment sa msn = false ->
              isFulfilledSegment sb msn = true ->
              fired_count c fa = 0%nat
              /\ fired_count c fk = 1%nat
              /\ fired_count c fc = 0%nat)
          /\ (isFulfilledSegment sa msn = true ->
              isFulfilledSegment sb msn = true
              /\ fired_count c fk = 0%nat
              /\ fired_count c fc = 0%nat)
          /\ (fired_count c (fa ++ fk ++ fc) <= 1)%nat.
Proof.
  intros this msn c calls R Hin Hopen Hnew Hreg.
  pose proof (Reachable_WF this R) as W.
  destruct (addSegmentCallback_Pending c this msn W Hin Hopen Hnew) as (Hok & W0 & P0).
  split; [exact Hok|].
  set (registered := fst (addSegmentCallback this msn c)) in *.
  intros before k after ->.
  rewrite forallb_app in Hreg. apply andb_true_iff in Hreg. destruct Hreg as [Hb Hka].
  cbn [forallb] in Hka. apply andb_true_iff in Hka. destruct Hka as [Hk Ha].
  apply negb_true_iff in Hk.
  destruct (run_trace before registered W0) as (sa & fa & ra & Ea & Ma & Hra).
  pose proof (Mutations_WF_r _ _ _ _ Ma) as Wa.
  destruct (call_trace sa k Wa) as (sb & fk & rk & Ek & Mk & Hrk).
  pose proof (Mutations_WF_r _ _ _ _ Mk) as Wb.
  destruct (run_trace after sb Wb) as (sc & fc & rc & Ec & Mc & Hrc).
  specialize (Hra c Hb). specialize (Hrk c Hk). specialize (Hrc c Ha).
  exists sa, fa, sb, fk, sc, fc.
  split; [exact Ea|]. split; [exact Ek|]. split; [exact Ec|].
  rewrite !fired_count_app.
  destruct (Pending_Mutations c _ _ _ _ msn Ma Hra P0) as [[Pa Fa]|[Da Fa]].
  - pose proof (Pending_unfulfilled c sa msn Wa Pa) as Ia.
    destruct (Pending_Mutations c _ _ _ _ msn Mk Hrk Pa) as [[Pb Fk]|[Db Fk]].
    + pose proof (Pending_unfulfilled c sb msn Wb Pb) as Ib.
      destruct (Pending_Mutations c _ _ _ _ msn Mc Hrc Pb) as [[_ Fc]|[_ Fc]];
        (split; [auto|]; split; [congruence|]; split; [congruence|]; lia).
    + pose proof (Done_fulfilled c sb msn Wb Db) as Ib.
      destruct (Done_Mutations c _ _ _ _ msn Mc Hrc Db) as [_ Fc].
      split; [congruence|]. split; [auto|]. split; [congruence|]. lia.
  - pose proof (Done_fulfilled c sa msn Wa Da) as Ia.
    destruct (Done_Mutations c _ _ _ _ msn Mk Hrk Da) as [Db Fk].
    pose proof (Done_fulfilled c sb msn Wb Db) as Ib.
    destruct (Done_Mutations c _ _ _ _ msn Mc Hrc Db) as [_ Fc].
    split; [congruence|]. split; [congruence|]. split; [auto|]. lia.
Qed.

End Segment_registration.

(** The callback 7 registered on the open segment 0 is not fired by
    the part cut, and fired once by the next IDR access unit. *)
Lemma segment_callback_fires_once_when_sealed_witness :
  exists sb fk sc fc,
    call (lib := plain_lib) (fst (addSegmentCallback test_state_first_segment 0 7%nat))
      (Call_write [test_video_arrival 4 90000 false]) = Some (sb, fk)
    /\ run (lib := plain_lib) sb [Call_write [test_video_arrival 5 180000 true]]
       = Some (sc, fc)
    /\ fired_count 7%nat fk = 0%nat
    /\ (fired_count 7%nat (fk ++ fc) <= 1)%nat.
Proof.
  assert (R : Reachable (lib := plain_lib) test_state_first_segment).
  { apply (Reachable_run (lib := plain_lib) (new_TSFragmenter None) test_first_segment
             test_state_first_segment []); [apply Reachable_new | reflexivity]. }
  destruct (segment_callback_fires_once_when_sealed (lib := plain_lib)
              test_state_first_segment 0 7%nat test_seal_then_go_on R
              eq_refl eq_refl eq_refl eq_refl) as (_ & H).
  destruct (H [] (Call_write [test_video_arrival 4 90000 false])
              [Call_write [test_video_arrival 5 180000 true]] eq_refl)
    as (sa & fa & sb & fk & sc & fc & Ea & Ek & Ec & Hopen & _ & _ & Htotal).
  cbn in Ea. inversion Ea; subst sa fa. clear Ea.
  exists sb, fk, sc, fc. split; [exact Ek|]. split; [exact Ec|].
  assert (Ib : isFulfilledSegment sb 0 = false).
  { vm_compute in Ek. inversion Ek. reflexivity. }
  destruct (Hopen Ib) as (_ & _ & Fk). split; [exact Fk | exact Htotal].
Defined.


(** ** What is open and what is sealed *)

Section Open_end.

Context {lib : Collaborators}.



End Open_end.




(** ** How a segment begins *)

Section Beginning.

Context {lib : Collaborators}.

(** Appending packets to a window that ends with the segment
    [(b, pinit ++ [p], d)]. *)
Lemma forEach_Add_Packet_fold (packets : list Buffer) :
  forall (s : TSFragmenter) (init : list Segment.t) (b : PartialSegment.t)
         (pinit : list PartialSegment.t) (p : PartialSegment.t) (d : string),
    M3U8_Segments s = init ++ [Segment.mk b (pinit ++ [p]) d] ->
    array_length init
    = M3U8_End_Sequence_Number s - M3U8_Begin_Sequence_Number s - 1 ->
    forEach M3U8_Add_Packet packets s
    = Some (set_M3U8_Segments s
              (init ++ [Segment.mk (fold_left PartialSegment.addPacket packets b)
                          (pinit ++ [fold_left PartialSegment.addPacket packets p]) d])).
Proof.
  induction packets as [|pkt packets IH]; intros s init b pinit p d E Hl; simpl.
  - now rewrite <- E, set_M3U8_Segments_same.
  - rewrite (M3U8_Add_Packet_last s pkt init _ pinit p E eq_refl Hl).
    cbn [Segment.base Segment.programDateTime].
    rewrite (IH _ init (PartialSegment.addPacket b pkt) pinit
               (PartialSegment.addPacket p pkt) d).
    + now rewrite set_M3U8_Segments_twice.
    + apply M3U8_Segments_set.
    + exact Hl.
Qed.

Lemma Evict_keeps_last (s : TSFragmenter) (L : list Segment.t) (x y : Segment.t) :
  M3U8_Segments s = L ++ [x; y] ->
  exists init',
    M3U8_Segments (M3U8_Evict s) = init' ++ [y]
    /\ array_length init'
       = array_length (M3U8_Segments (M3U8_Evict s)) - 1.
Proof.
  intros E. unfold M3U8_Evict. destruct (_ <? _).
  - cbn [M3U8_Segments set_M3U8]. rewrite E. destruct L as [|z L].
    + exists []. split; reflexivity.
    + exists (L ++ [x]). simpl. rewrite <- app_assoc. split; [reflexivity|].
      rewrite !array_length_app. change (array_length [x; y]) with 2.
      change (array_length [x]) with 1. lia.
  - exists (L ++ [x]). rewrite E, <- app_assoc. split; [reflexivity|].
    rewrite !array_length_app. change (array_length [x; y]) with 2.
    change (array_length [x]) with 1. lia.
Qed.

Lemma Evict_fields (s : TSFragmenter) :
  Packet_TransportErrorIndicator (M3U8_Evict s) = Packet_TransportErrorIndicator s
  /\ Packet_TransportPriority (M3U8_Evict s) = Packet_TransportPriority s
  /\ Packet_TransportScramblingControl (M3U8_Evict s) = Packet_TransportScramblingControl s
  /\ PAT_Continuous_Counter (M3U8_Evict s) = PAT_Continuous_Counter s
  /\ PMT_Continuous_Counter (M3U8_Evict s) = PMT_Continuous_Counter s
  /\ PAT_TargetPMTPid (M3U8_Evict s) = PAT_TargetPMTPid s
  /\ Video_Packets (M3U8_Evict s) = Video_Packets s
  /\ M3U8_Initial_IDR_Detected (M3U8_Evict s) = M3U8_Initial_IDR_Detected s.
Proof. unfold M3U8_Evict. destruct (_ <? _); repeat split. Qed.

(** X21. An IDR access unit processed while the window is not empty
    (with a cached PAT and a cached PMT) seals the last segment, firing
    the callbacks of the segment before those of its last partial, and
    opens the next segment at the PTS of the access unit with one
    partial; the segment and the partial begin with the packets of the
    cached PAT, then those of the cached PMT, then the buffered video
    packets, and the buffer of video packets is emptied. *)
Theorem IDR_access_unit_opens_a_segment
    (s : TSFragmenter) (VideoPES : Buffer) (now : string) (PAT PMT : Buffer)
    (init : list Segment.t) (lastS : Segment.t)
    (pinit : list PartialSegment.t) (lastP : PartialSegment.t) :
  Reachable s ->
  M3U8_Segments s = init ++ [lastS] ->
  Segment.parts lastS = pinit ++ [lastP] ->
  PES_hasIDR VideoPES = true ->
  PAT_lastPAT s = Some PAT ->
  PMT_lastPMT s = Some PMT ->
  let opened :=
    fold_left PartialSegment.addPacket
      (PAT_packets s PAT ++ PMT_packets s PMT ++ Video_Packets s)
      (PartialSegment.new (PES_pts VideoPES) (Some true)) in
  exists s',
    Video_PES s (VideoPES, now)
    = Some (s', PartialSegment.complete_callbacks (Segment.base lastS)
                  ++ PartialSegment.complete_callbacks lastP)
    /\ M3U8_End_Sequence_Number s' = M3U8_End_Sequence_Number s + 1
    /\ M3U8_Get_Segment s' (M3U8_End_Sequence_Number s)
       = Some (Segment.mk opened [opened] now)
    /\ Video_Packets s' = [].
Proof.
  intros R E Ep Hidr EPAT EPMT opened. pose proof (Reachable_WF s R) as W.
  pose proof (WF_size s W) as Hsize. pose proof (WF_begin s W) as Hbegin.
  assert (Hlen : array_length init
                 = M3U8_End_Sequence_Number s - M3U8_Begin_Sequence_Number s - 1).
  { rewrite E, array_length_app in Hsize. change (array_length [lastS]) with 1 in Hsize.
    lia. }
  assert (0 <= array_length init) by (unfold array_length; lia).
  assert (Hflag : M3U8_Initial_IDR_Detected s = true).
  { destruct (M3U8_Initial_IDR_Detected s) eqn:Ef; [reflexivity|].
    pose proof (WF_idle s W Ef). lia. }
  set (pts := PES_pts VideoPES) in *.
  (* the sealing of the last segment, the new segment and the eviction *)
  set (sealed := Segment.mk (fst (PartialSegment.complete (Segment.base lastS) pts))
                   (pinit ++ [fst (PartialSegment.complete lastP pts)])
                   (Segment.programDateTime lastS)).
  set (fired := PartialSegment.complete_callbacks (Segment.base lastS)
                  ++ PartialSegment.complete_callbacks lastP).
  assert (E1 : M3U8_Complete_Last s pts
               = Some (set_M3U8_Segments s (init ++ [sealed]), fired)).
  { unfold M3U8_Complete_Last.
    destruct (Z.ltb_spec 0 (M3U8_End_Sequence_Number s - M3U8_Begin_Sequence_Number s));
      [|lia].
    replace (M3U8_End_Sequence_Number s - M3U8_Begin_Sequence_Number s - 1)
      with (array_length (init ++ [lastS]) - 1).
    2:{ rewrite array_length_app. change (array_length [lastS]) with 1. lia. }
    rewrite E, array_get_last, (Segment_complete_open _ pinit lastP) by exact Ep.
    now rewrite array_set_last. }
  set (s1 := set_M3U8_Segments s (init ++ [sealed])) in *.
  set (s3 := M3U8_Evict
               (set_M3U8 s1 (M3U8_Begin_Sequence_Number s1)
                  (M3U8_End_Sequence_Number s1 + 1)
                  (M3U8_Segments s1 ++ [Segment.new pts (Some true) now]))).
  destruct (Evict_keeps_last
              (set_M3U8 s1 (M3U8_Begin_Sequence_Number s1)
                 (M3U8_End_Sequence_Number s1 + 1)
                 (M3U8_Segments s1 ++ [Segment.new pts (Some true) now]))
              init sealed (Segment.new pts (Some true) now))
    as (init3 & E3 & Hlen3).
  { unfold s1. cbn [M3U8_Segments set_M3U8 set_M3U8_Segments].
    now rewrite <- app_assoc. }
  fold s3 in E3, Hlen3.
  destruct (Evict_fields
              (set_M3U8 s1 (M3U8_Begin_Sequence_Number s1)
                 (M3U8_End_Sequence_Number s1 + 1)
                 (M3U8_Segments s1 ++ [Segment.new pts (Some true) now])))
    as (F1 & F2 & F3 & F4 & F5 & F6 & F7 & F8).
  fold s3 in F1, F2, F3, F4, F5, F6, F7, F8.
  cbn [Packet_TransportErrorIndicator Packet_TransportPriority
         Packet_TransportScramblingControl PAT_Continuous_Counter PMT_Continuous_Counter
         PAT_TargetPMTPid Video_Packets M3U8_Initial_IDR_Detected
         set_M3U8 set_M3U8_Segments s1] in F1, F2, F3, F4, F5, F6, F7, F8.
  assert (W3 : WF s3).
  { destruct (M3U8_Complete_Last_spec s pts W) as (L & f0 & E0 & HL & HlenL & _).
    assert (EL : s1 = set_M3U8_Segments s L) by congruence.
    apply (M3U8_push_evict_spec s1 pts now).
    - apply W.
    - rewrite EL, M3U8_Segments_set. exact HlenL.
    - apply W.
    - rewrite EL, M3U8_Segments_set. exact HL.
    - apply W.
    - exact Hflag.
    - apply PES_pts_domain. }
  assert (End3 : M3U8_End_Sequence_Number s3 = M3U8_End_Sequence_Number s + 1).
  { unfold s3. rewrite Evict_end. reflexivity. }
  assert (Hlen3' : array_length init3
                   = M3U8_End_Sequence_Number s3 - M3U8_Begin_Sequence_Number s3 - 1).
  { rewrite Hlen3, (WF_size s3 W3). reflexivity. }
  (* the packets of the PAT and of the PMT *)
  set (P0 := PartialSegment.new pts (Some true)).
  assert (EPATadd : M3U8_Add_PAT s3 PAT
            = Some (set_M3U8_Segments
                      (set_PAT s3 (PAT_lastPAT s3)
                         (Z.land (PAT_Continuous_Counter s3
                                  + array_length (PAT_packets s PAT)) 0x0F)
                         (PAT_TargetPMTPid s3))
                      (init3 ++ [Segment.mk
                                   (fold_left PartialSegment.addPacket (PAT_packets s PAT) P0)
                                   ([] ++ [fold_left PartialSegment.addPacket
                                             (PAT_packets s PAT) P0]) now]))).
  { unfold M3U8_Add_PAT. rewrite F1, F2, F3, F4. fold (PAT_packets s PAT).
    rewrite <- F4.
    apply (forEach_Add_Packet_fold (PAT_packets s PAT) _ init3 P0 [] P0 now).
    - exact E3.
    - exact Hlen3'. }
  set (s4 := set_M3U8_Segments (set_PAT s3 _ _ _) _) in EPATadd.
  set (P1 := fold_left PartialSegment.addPacket (PAT_packets s PAT) P0) in *.
  assert (EPMTadd : M3U8_Add_PMT s4 PMT
            = Some (set_M3U8_Segments
                      (match PAT_TargetPMTPid s with
                       | None => s4
                       | Some pmtPid =>
                           if pmtPid =? 0 then s4
                           else set_PMT s4 (PMT_lastPMT s4)
                                  (Z.land (PMT_Continuous_Counter s4
                                           + array_length (PMT_packets s PMT)) 0x0F)
                                  (PMT_VideoPid s4) (PMT_PCRPid s4)
                       end)
                      (init3 ++ [Segment.mk
                                   (fold_left PartialSegment.addPacket (PMT_packets s PMT) P1)
                                   ([] ++ [fold_left PartialSegment.addPacket
                                             (PMT_packets s PMT) P1]) now]))).
  { unfold M3U8_Add_PMT, PMT_packets.
    change (PAT_TargetPMTPid s4) with (PAT_TargetPMTPid s3). rewrite F6.
    assert (Hsame : set_M3U8_Segments s4 (init3 ++ [Segment.mk P1 ([] ++ [P1]) now]) = s4)
      by reflexivity.
    destruct (PAT_TargetPMTPid s) as [pmtPid|]; [|now rewrite <- Hsame at 1].
    destruct (pmtPid =? 0); [now rewrite <- Hsame at 1|].
    change (Packet_TransportErrorIndicator s4) with (Packet_TransportErrorIndicator s3).
    change (Packet_TransportPriority s4) with (Packet_TransportPriority s3).
    change (Packet_TransportScramblingControl s4)
      with (Packet_TransportScramblingControl s3).
    change (PMT_Continuous_Counter s4) with (PMT_Continuous_Counter s3).
    rewrite F1, F2, F3, F5.
    apply (forEach_Add_Packet_fold _ _ init3 P1 [] P1 now).
    - reflexivity.
    - exact Hlen3'. }
  set (s5 := set_M3U8_Segments _ _) in EPMTadd.
  set (P2 := fold_left PartialSegment.addPacket (PMT_packets s PMT) P1) in *.
  assert (E5 : M3U8_Segments s5 = init3 ++ [Segment.mk P2 ([] ++ [P2]) now])
    by apply M3U8_Segments_set.
  assert (F5' : Video_Packets s5 = Video_Packets s
                /\ M3U8_Initial_IDR_Detected s5 = true
                /\ M3U8_End_Sequence_Number s5 = M3U8_End_Sequence_Number s + 1
                /\ M3U8_Begin_Sequence_Number s5 = M3U8_Begin_Sequence_Number s3).
  { unfold s5, s4. destruct (PAT_TargetPMTPid s) as [pmtPid|];
      [destruct (pmtPid =? 0)|];
      cbn [Video_Packets M3U8_Initial_IDR_Detected M3U8_End_Sequence_Number
             M3U8_Begin_Sequence_Number set_M3U8_Segments set_M3U8 set_PAT set_PMT];
      rewrite F7, F8, End3; auto. }
  destruct F5' as (V5 & I5 & End5 & B5).
  (* the whole operation *)
  assert (ENew : M3U8_New_Segment s pts now = Some (s5, fired)).
  { unfold M3U8_New_Segment. rewrite EPAT, EPMT, E1. unfold bind at 1.
    fold s3. rewrite EPATadd. cbn [lift bind]. rewrite EPMTadd. cbn [lift].
    now rewrite !app_nil_r. }
  assert (Eflush : forEach M3U8_Add_Packet (Video_Packets s5) s5
                   = Some (set_M3U8_Segments s5
                             (init3 ++ [Segment.mk opened ([] ++ [opened]) now]))).
  { rewrite (forEach_Add_Packet_fold (Video_Packets s5) s5 init3 P2 [] P2 now E5).
    - unfold opened, P2, P1, P0. rewrite V5, !fold_left_app. reflexivity.
    - rewrite End5, B5, <- End3. exact Hlen3'. }
  eexists. split; [|split; [|split]].
  - unfold Video_PES. fold pts. rewrite Hidr, Hflag. cbn [negb]. rewrite ENew.
    unfold bind at 1. rewrite I5. cbn [negb]. rewrite bind_ret_l, Eflush.
    rewrite bind_lift_Some. unfold ret. now rewrite app_nil_r.
  - cbn [M3U8_End_Sequence_Number set_Video_Packets set_M3U8_Segments set_M3U8].
    exact End5.
  - unfold M3U8_Get_Segment, inRangeSegment.
    cbn [M3U8_End_Sequence_Number M3U8_Begin_Sequence_Number M3U8_Segments
           set_Video_Packets set_M3U8_Segments set_M3U8].
    rewrite End5, B5.
    pose proof (WF_begin s3 W3) as Hb3.
    assert (0 <= array_length init3) by (unfold array_length; lia).
    destruct (Z.ltb_spec (M3U8_End_Sequence_Number s) (M3U8_Begin_Sequence_Number s3));
      [lia|].
    destruct (Z.leb_spec (M3U8_End_Sequence_Number s + 1) (M3U8_End_Sequence_Number s));
      [lia|].
    simpl negb. cbv iota.
    replace (M3U8_End_Sequence_Number s - M3U8_Begin_Sequence_Number s3)
      with (array_length (init3 ++ [Segment.mk opened ([] ++ [opened]) now]) - 1).
    2:{ rewrite array_length_app.
        change (array_length [Segment.mk opened ([] ++ [opened]) now]) with 1. lia. }
    apply array_get_last.
  - reflexivity.
Qed.

End Beginning.

(** The second IDR access unit of the run [test_five_segments], after
    PAT, PMT and a first IDR access unit. *)
Lemma IDR_access_unit_opens_a_segment_witness :
  exists s',
    Video_PES (lib := plain_lib) test_state_first_segment
      (test_PES 90000 true, test_clock) = Some (s', [])
    /\ M3U8_End_Sequence_Number s' = 2.
Proof.
  assert (R : Reachable (lib := plain_lib) test_state_first_segment).
  { apply (Reachable_run (lib := plain_lib) (new_TSFragmenter None) test_first_segment
             test_state_first_segment []); [apply Reachable_new | reflexivity]. }
  destruct (M3U8_Segments test_state_first_segment) as [|lastS [|x l]] eqn:E;
    try (vm_compute in E; discriminate).
  destruct (Segment.parts lastS) as [|lastP [|y l]] eqn:Ep;
    try (vm_compute in E; inversion E; subst lastS; vm_compute in Ep; discriminate).
  destruct (IDR_access_unit_opens_a_segment (lib := plain_lib) test_state_first_segment
              (test_PES 90000 true) test_clock test_PAT test_PMT [] lastS [] lastP
              R E Ep eq_refl eq_refl eq_refl) as (s' & Ev & End' & _).
  exists s'. split; [|exact End'].
  rewrite Ev. vm_compute in E. inversion E; subst lastS.
  vm_compute in Ep. inversion Ep; subst lastP. reflexivity.
Defined.
